(** * Grid posterior computation of [1-UnivariateBayes.ipynb]

    A shallow embedding of the numerical code of the notebook: the inline
    Poisson-rate posterior cells on the notebook namespace, [test_norm],
    [norm_like] and [cauchy_like], together with the parts of numpy and
    scipy they call ([trapz], [linspace], [ones_like],
    [assert_approx_equal], array arithmetic with broadcasting, the pdf of
    [stats.gamma(1, scale)]).

    Number model.  In the numpy layer a float64 value is either a finite
    number, carried as a real, or one of the three special values of
    IEEE arithmetic.  Finite arithmetic is exact there: rounding,
    overflow, underflow and the sign of zero are not represented.  The
    special values are kept because numpy creates them from finite
    operands (division by zero, logarithm of zero) without raising.
    A theorem that states values of the code therefore bounds its
    operands (module [Range]) so that no intermediate value of the code
    overflows, underflows or becomes subnormal; inside those bounds the
    code agrees with the exact layer up to the rounding of the last
    bits.  What the code does outside is shown on a second layer (module
    [B64]) that replays the arithmetic lines on the binary64 numbers of
    the kernel.

    Layout.  Definitions come first: the numpy layer, the notebook
    functions, their counterparts on reals, the namespace and its cells,
    the spread of a grid posterior, the integer computations that
    certify bounds, the remaining cells, the operand ranges, the result
    buffer of [cauchy_like] and the binary64 layer.  The lemmas and the
    theorems follow. *)

From Stdlib Require Import Reals Lra Lia List ZArith Psatz Floats.
From stdpp Require Import gmap strings.
Import ListNotations.

Local Open Scope R_scope.

(** ** The numpy layer *)

Module NP.

Inductive npfloat : Type :=
| Fin (r : R)
| PInf
| NInf
| NaN.

(** Sign of a real, decided by trichotomy. *)
Definition sgn (r : R) : comparison :=
  match total_order_T r 0 with
  | inleft (left _) => Lt
  | inleft (right _) => Eq
  | inright _ => Gt
  end.

Definition fneg (a : npfloat) : npfloat :=
  match a with
  | Fin r => Fin (- r)
  | PInf => NInf
  | NInf => PInf
  | NaN => NaN
  end.

Definition fadd (a b : npfloat) : npfloat :=
  match a, b with
  | NaN, _ | _, NaN => NaN
  | Fin x, Fin y => Fin (x + y)
  | PInf, NInf | NInf, PInf => NaN
  | PInf, _ | _, PInf => PInf
  | NInf, _ | _, NInf => NInf
  end.

Definition fsub (a b : npfloat) : npfloat := fadd a (fneg b).

(** An infinity of sign [pos] scaled by a finite factor [r]. *)
Definition inf_times (pos : bool) (r : R) : npfloat :=
  match sgn r with
  | Gt => if pos then PInf else NInf
  | Lt => if pos then NInf else PInf
  | Eq => NaN
  end.

Definition fmul (a b : npfloat) : npfloat :=
  match a, b with
  | NaN, _ | _, NaN => NaN
  | Fin x, Fin y => Fin (x * y)
  | Fin x, PInf | PInf, Fin x => inf_times true x
  | Fin x, NInf | NInf, Fin x => inf_times false x
  | PInf, PInf | NInf, NInf => PInf
  | PInf, NInf | NInf, PInf => NInf
  end.

(** Division.  A finite non-zero value over zero is an infinity, zero
    over zero is NaN; numpy warns and goes on. *)
Definition fdiv (a b : npfloat) : npfloat :=
  match a, b with
  | NaN, _ | _, NaN => NaN
  | Fin x, Fin y =>
      match sgn y with
      | Eq => match sgn x with Gt => PInf | Lt => NInf | Eq => NaN end
      | _ => Fin (x / y)
      end
  | Fin _, (PInf | NInf) => Fin 0
  | PInf, Fin y => match sgn y with Lt => NInf | _ => PInf end
  | NInf, Fin y => match sgn y with Lt => PInf | _ => NInf end
  | (PInf | NInf), (PInf | NInf) => NaN
  end.

(** [x ** n] for a float [x] and a Python int [n >= 0]. *)
Definition fpow (a : npfloat) (n : nat) : npfloat :=
  match n with
  | O => Fin 1
  | S _ =>
      match a with
      | Fin x => Fin (x ^ n)
      | PInf => PInf
      | NInf => if Nat.even n then PInf else NInf
      | NaN => NaN
      end
  end.

Definition fexp (a : npfloat) : npfloat :=
  match a with
  | Fin x => Fin (exp x)
  | PInf => PInf
  | NInf => Fin 0
  | NaN => NaN
  end.

Definition fabs (a : npfloat) : npfloat :=
  match a with
  | Fin x => Fin (Rabs x)
  | PInf | NInf => PInf
  | NaN => NaN
  end.

Definition isnan (a : npfloat) : bool :=
  match a with NaN => true | _ => false end.

Definition isfinite (a : npfloat) : bool :=
  match a with Fin _ => true | _ => false end.

(** [a == b]: false as soon as one side is NaN. *)
Definition feqb (a b : npfloat) : bool :=
  match a, b with
  | Fin x, Fin y => if Req_dec_T x y then true else false
  | PInf, PInf | NInf, NInf => true
  | _, _ => false
  end.

(** [a >= b]: false as soon as one side is NaN. *)
Definition fgeb (a b : npfloat) : bool :=
  match a, b with
  | NaN, _ | _, NaN => false
  | Fin x, Fin y => if Rle_dec y x then true else false
  | PInf, _ | _, NInf => true
  | _, _ => false
  end.

(** [np.log10], [np.floor] and [np.power(10, .)]. *)
Definition flog10 (a : npfloat) : npfloat :=
  match a with
  | Fin x =>
      match sgn x with
      | Gt => Fin (ln x / ln 10)
      | Eq => NInf
      | Lt => NaN
      end
  | PInf => PInf
  | NInf | NaN => NaN
  end.

Definition ffloor (a : npfloat) : npfloat :=
  match a with
  | Fin x => Fin (IZR (Int_part x))
  | _ => a
  end.

Definition fpower10 (a : npfloat) : npfloat :=
  match a with
  | Fin e => Fin (Rpower 10 e)
  | PInf => PInf
  | NInf => Fin 0
  | NaN => NaN
  end.

(** Python exceptions that the modelled code can raise. *)
Inductive exn : Type :=
| NameError (name : string)
| TypeError
| ValueError
| IndexError
| OverflowError
| AssertionError.

Inductive result (A : Type) : Type :=
| Ok (a : A)
| Raise (e : exn).
Arguments Ok {A} a.
Arguments Raise {A} e.

Definition bind {A B : Type} (m : result A) (k : A -> result B) : result B :=
  match m with
  | Ok a => k a
  | Raise e => Raise e
  end.

(** A numpy array of float64: 0-d (what [asarray] makes of a scalar) or
    1-d. *)
Inductive ndarray : Type :=
| Scalar (x : npfloat)
| Vector (l : list npfloat).

Definition np_sum (l : list npfloat) : npfloat := fold_left fadd l (Fin 0).
Definition np_prod (l : list npfloat) : npfloat := fold_left fmul l (Fin 1).

(** Elementwise binary operation on two 1-d arrays with numpy's
    broadcasting: equal lengths pair up, a length-1 array is stretched,
    any other pair of shapes is a [ValueError]. *)
Definition broadcast2 (f : npfloat -> npfloat -> npfloat)
    (a b : list npfloat) : result (list npfloat) :=
  if Nat.eqb (length a) (length b) then
    Ok (map (fun p => f (fst p) (snd p)) (combine a b))
  else
    match a, b with
    | [x], _ => Ok (map (fun y => f x y) b)
    | _, [y] => Ok (map (fun x => f x y) a)
    | _, _ => Raise ValueError
    end.

(** [ones_like(a)] *)
Definition ones_like (a : list npfloat) : list npfloat :=
  map (fun _ => Fin 1) a.

(** [np.trapz(y, dx=d)]: [(d * (y[1:] + y[:-1]) / 2.0).sum()]. *)
Definition trapz (y : list npfloat) (d : npfloat) : npfloat :=
  np_sum (map (fun p => fdiv (fmul d (fadd (fst p) (snd p))) (Fin 2))
              (combine (tl y) (removelast y))).

(** [np.linspace(start, stop, num)] with the end point included:
    [arange(0, num) * step + start] with [step = (stop - start) / (num - 1)]
    (for [num = 1] the only sample is [start]).  numpy then overwrites the
    last sample with [stop], which in exact arithmetic it already is. *)
Definition linspace (start stop : npfloat) (num : nat) : list npfloat :=
  let delta := fsub stop start in
  let step :=
    match num with
    | S (S _) => fdiv delta (Fin (INR (num - 1)))
    | _ => delta
    end in
  map (fun i => fadd (fmul (Fin (INR i)) step) start) (seq 0 num).

(** [numpy.testing.assert_approx_equal(actual, desired, significant)]. *)
Definition assert_approx_equal (actual desired : npfloat) (significant : Z)
    : result unit :=
  if feqb desired actual then Ok tt
  else
    let scale := fmul (Fin 0.5) (fadd (fabs desired) (fabs actual)) in
    let scale := fpower10 (ffloor (flog10 scale)) in
    let sc_desired := fdiv desired scale in
    let sc_actual := fdiv actual scale in
    if negb (isfinite desired && isfinite actual) then
      if isnan desired || isnan actual then
        if negb (isnan desired && isnan actual) then Raise AssertionError
        else Ok tt
      else
        if negb (feqb desired actual) then Raise AssertionError
        else Ok tt
    else
      if fgeb (fabs (fsub sc_desired sc_actual))
              (Fin (powerRZ 10 (- (significant - 1))))
      then Raise AssertionError
      else Ok tt.

End NP.

(** ** The notebook *)

Module Notebook.
Import NP.

(** [ones_like(rvals)/(prior_u - prior_l)]: the bounded flat prior. *)
Definition prior_pdf (rvals : list npfloat) (prior_l prior_u : npfloat)
    : list npfloat :=
  map (fun o => fdiv o (fsub prior_u prior_l)) (ones_like rvals).

(** [stats.gamma(1, scale=scale).pdf(x)] at one point, as scipy evaluates
    a frozen distribution: NaN for a bad scale or a NaN argument, zero
    outside the support [x >= 0], the closed form [exp(-x/scale)/scale]
    inside. *)
Definition gamma1_pdf (scale x : npfloat) : npfloat :=
  match scale with
  | Fin s =>
      match sgn s with
      | Gt =>
          match x with
          | NaN => NaN
          | NInf => Fin 0
          | PInf => Fin 0
          | Fin v =>
              match sgn v with
              | Lt => Fin 0
              | _ => Fin (exp (- (v / s)) / s)
              end
          end
      | _ => NaN
      end
  | PInf =>
      match x with
      | Fin _ => Fin 0
      | _ => NaN
      end
  | _ => NaN
  end.

(** [rvals*T] *)
Definition rtvals (rvals : list npfloat) (T : npfloat) : list npfloat :=
  map (fun r => fmul r T) rvals.

(** [(rtvals)**n * exp(-rtvals)]: the Poisson likelihood without its
    [n!] factor. *)
Definition like (n : nat) (rtvals : list npfloat) : list npfloat :=
  map (fun rt => fmul (fpow rt n) (fexp (fneg rt))) rtvals.

(** [rvals[1] - rvals[0]] *)
Definition spacing (rvals : list npfloat) : result npfloat :=
  match rvals with
  | r0 :: r1 :: _ => Ok (fsub r1 r0)
  | _ => Raise IndexError
  end.

(** [numer = prior_pdf*like] *)
Definition numer (prior likelihood : list npfloat) : result (list npfloat) :=
  broadcast2 fmul prior likelihood.

(** [denom = np.trapz(numer, dx=dr)] *)
Definition denom (numer : list npfloat) (dr : npfloat) : npfloat :=
  trapz numer dr.

(** The three lines
    [numer = prior_pdf*like; denom = np.trapz(numer, dx=dr);
     post_pdf = numer/denom]. *)
Definition post_pdf (prior likelihood : list npfloat) (dr : npfloat)
    : result (list npfloat) :=
  bind (numer prior likelihood) (fun nm =>
  let dn := denom nm dr in
  Ok (map (fun x => fdiv x dn) nm)).

Definition test_norm (ppdf : list npfloat) (delta : npfloat) : result unit :=
  assert_approx_equal (trapz ppdf delta) (Fin 1) 2.

(** [sum((data - mu)**2)/sig2] for one [mu]. *)
Definition norm_q (data : list npfloat) (sig2 mu : npfloat) : npfloat :=
  fdiv (np_sum (map (fun d => fpow (fsub d mu) 2) data)) sig2.

(** [norm_like]: the list comprehension iterates over [asarray(muvals)],
    which Python refuses for a 0-d array. *)
Definition norm_like (data : list npfloat) (muvals : ndarray) (sig : npfloat)
    : result ndarray :=
  let sig2 := fmul sig sig in
  match muvals with
  | Scalar _ => Raise TypeError
  | Vector mus =>
      let q := map (norm_q data sig2) mus in
      Ok (Vector (map (fun qi => fexp (fmul (Fin (-0.5)) qi)) q))
  end.

(** [prod(1./(1. + (x0 - data)**2/scale2))] for one [x0]. *)
Definition cauchy_prod (data : list npfloat) (scale2 x0 : npfloat) : npfloat :=
  np_prod (map (fun d =>
      fdiv (Fin 1) (fadd (Fin 1) (fdiv (fpow (fsub x0 d) 2) scale2))) data).

(** [x0vals] is an array of float64, so that [empty_like(x0vals)] is
    one too.  The square [scale**2] is exact on this layer; with it the
    [OverflowError] of a Python float whose square overflows is out of
    reach here, and is on the binary64 layer. *)
Definition cauchy_like (data : list npfloat) (x0vals : ndarray)
    (scale : npfloat) : result ndarray :=
  let scale2 := fpow scale 2 in
  match x0vals with
  | Scalar x0 => Ok (Scalar (cauchy_prod data scale2 x0))
  | Vector xs => Ok (Vector (map (cauchy_prod data scale2) xs))
  end.

End Notebook.

(** ** Real-valued counterparts

    On finite operands every operation above is the operation on reals.
    The functions below are those real operations on whole arrays; the
    lemmas that follow connect them with the numpy layer. *)

Module RealSide.
Import NP.

Definition fins (l : list R) : list npfloat := map Fin l.

Definition rsum (l : list R) : R := fold_right Rplus 0 l.
Definition rprod (l : list R) : R := fold_right Rmult 1 l.

(** The pairs [(y[i+1], y[i])] that the trapezoidal rule adds up. *)
Fixpoint pairs {A : Type} (y : list A) : list (A * A) :=
  match y with
  | a :: (b :: _) as t => (b, a) :: pairs t
  | _ => []
  end.

Definition rtrapz (y : list R) (d : R) : R :=
  rsum (map (fun p => d * (fst p + snd p) / 2) (pairs y)).

(** The likelihood of one parameter value, on reals. *)
Definition poisson_l (n : nat) (T r : R) : R :=
  (r * T) ^ n * exp (- (r * T)).

Definition norm_l (data : list R) (sig mu : R) : R :=
  exp (-0.5 * (rsum (map (fun d => (d + - mu) ^ 2) data) / (sig * sig))).

Definition cauchy_l (data : list R) (scale x0 : R) : R :=
  rprod (map (fun d => 1 / (1 + (x0 + - d) ^ 2 / scale ^ 2)) data).

(** The exponential prior density at one point, on reals. *)
Definition gamma1_l (s v : R) : R :=
  match sgn v with
  | Lt => 0
  | _ => exp (- (v / s)) / s
  end.

(** The elementwise product of two real vectors of one length. *)
Definition rmul2 (a b : list R) : list R :=
  map (fun p => fst p * snd p) (combine a b).

(** The posterior of a real prior and likelihood. *)
Definition rpost (prior likelihood : list R) (d : R) : list R :=
  map (fun x => x / rtrapz (rmul2 prior likelihood) d)
      (rmul2 prior likelihood).

(** The rate grid [linspace(0, 20, 200)] on reals. *)
Definition rv200 : list R := map (fun i => INR i * (20 / 199)) (seq 0 200).

(** A grid: strictly increasing samples. *)
Definition strictly_increasing (l : list R) : Prop :=
  forall i j : nat, (i < j < length l)%nat -> nth i l 0 < nth j l 0.

(** A vector of [N] finite non-negative samples. *)
Definition density_vector (N : nat) (v : list npfloat) : Prop :=
  exists rv, v = fins rv /\ length rv = N /\ Forall (fun x => 0 <= x) rv.

(** A vector of [N] finite strictly positive samples. *)
Definition positive_vector (N : nat) (v : list npfloat) : Prop :=
  exists rv, v = fins rv /\ length rv = N /\ Forall (fun x => 0 < x) rv.

End RealSide.

(** ** The notebook namespace

    The Poisson cells are inline code on the global namespace of the
    kernel, a dictionary from names to values.  Reading an unbound name
    raises [NameError].  Every name is bound by the cells to one kind of
    value only.  Python checks no kinds: what a cell does with a name
    bound to another kind of value depends on the operation that meets
    it.  That is not modelled; such a read is reported as [TypeError],
    and the theorems on cells are equalities between runs, or concern
    namespaces in which the names hold what the cells bind them to. *)

Module Cells.
Import NP Notebook.

Inductive value : Type :=
| VFloat (x : npfloat)
| VInt (n : nat)
| VArray (a : list npfloat)
| VGamma1 (scale : npfloat).

Definition get_float (ns : gmap string value) (k : string) : result npfloat :=
  match ns !! k with
  | Some (VFloat x) => Ok x
  | Some _ => Raise TypeError
  | None => Raise (NameError k)
  end.

Definition get_array (ns : gmap string value) (k : string)
    : result (list npfloat) :=
  match ns !! k with
  | Some (VArray a) => Ok a
  | Some _ => Raise TypeError
  | None => Raise (NameError k)
  end.

Definition get_gamma1 (ns : gmap string value) (k : string) : result npfloat :=
  match ns !! k with
  | Some (VGamma1 s) => Ok s
  | Some _ => Raise TypeError
  | None => Raise (NameError k)
  end.

(** The three lines that end every posterior cell, storing [numer],
    [denom] and the posterior under [name]. *)
Definition bayes (name : string) (prior likelihood : list npfloat)
    (dr : npfloat) (ns : gmap string value) : result (gmap string value) :=
  bind (numer prior likelihood) (fun nm =>
  bind (post_pdf prior likelihood dr) (fun post =>
  Ok (<[name := VArray post]>
      (<["denom" := VFloat (denom nm dr)]>
      (<["numer" := VArray nm]> ns))))).

(** 1st case: flat prior, [(n, T) = (16, 2)].  The cell binds every name
    it uses before reading it. *)
Definition cell_case1 (ns : gmap string value) : result (gmap string value) :=
  let prior_l := Fin 0 in
  let prior_u := Fin 100000 in
  let n := 16%nat in
  let T := Fin 2 in
  let r_l := Fin 0 in
  let r_u := Fin 20 in
  let rvals := linspace r_l r_u 200 in
  let rtv := rtvals rvals T in
  let ns := <["rtvals" := VArray rtv]>
            (<["rvals" := VArray rvals]>
            (<["r_u" := VFloat r_u]>
            (<["r_l" := VFloat r_l]>
            (<["T" := VFloat T]>
            (<["n" := VInt n]>
            (<["prior_u" := VFloat prior_u]>
            (<["prior_l" := VFloat prior_l]> ns))))))) in
  bind (spacing rvals) (fun dr =>
  let pp := prior_pdf rvals prior_l prior_u in
  let lk := like n rtv in
  bayes "post_pdf" pp lk dr
    (<["like" := VArray lk]>
    (<["prior_pdf" := VArray pp]>
    (<["dr" := VFloat dr]> ns)))).

(** 2nd case: exponential prior of scale 10, the likelihood left in
    [like] by an earlier cell.  The names are read in the order of the
    lines: [rvals] and [like] for [numer = prior.pdf(rvals)*like], whose
    shapes must combine, then [dr] for [denom]. *)
Definition cell_case2 (ns : gmap string value) : result (gmap string value) :=
  let scale := Fin 10 in
  let ns := <["prior" := VGamma1 scale]> (<["scale" := VFloat scale]> ns) in
  bind (get_array ns "rvals") (fun rvals =>
  let pp := map (gamma1_pdf scale) rvals in
  bind (get_array ns "like") (fun lk =>
  bind (numer pp lk) (fun _ =>
  bind (get_float ns "dr") (fun dr =>
  bayes "post_pdf2" pp lk dr ns)))).

(** 3rd case: flat prior, [(n, T) = (80, 10)], on the grid, the spacing
    and the prior bounds left by the 1st case. *)
Definition cell_case3 (ns : gmap string value) : result (gmap string value) :=
  let n := 80%nat in
  let T := Fin 10 in
  let ns := <["T" := VFloat T]> (<["n" := VInt n]> ns) in
  bind (get_array ns "rvals") (fun rvals =>
  let rtv := rtvals rvals T in
  let ns := <["rtvals" := VArray rtv]> ns in
  bind (get_float ns "prior_u") (fun prior_u =>
  bind (get_float ns "prior_l") (fun prior_l =>
  let pp := prior_pdf rvals prior_l prior_u in
  let lk := like n rtv in
  let ns := <["like" := VArray lk]> (<["prior_pdf" := VArray pp]> ns) in
  bind (get_float ns "dr") (fun dr =>
  bayes "post_pdf3" pp lk dr ns)))).

(** 4th case: exponential prior, everything read from the namespace, in
    the order of the lines: [prior], [rvals] and [like] for [numer], then
    [dr]. *)
Definition cell_case4 (ns : gmap string value) : result (gmap string value) :=
  bind (get_gamma1 ns "prior") (fun scale =>
  bind (get_array ns "rvals") (fun rvals =>
  let pp := map (gamma1_pdf scale) rvals in
  bind (get_array ns "like") (fun lk =>
  bind (numer pp lk) (fun _ =>
  bind (get_float ns "dr") (fun dr =>
  bayes "post_pdf4" pp lk dr ns))))).

(** What a cell run leaves under [name]. *)
Definition posterior_of (name : string) (r : result (gmap string value))
    : result (option value) :=
  bind r (fun ns => Ok (ns !! name)).

(** Running cells one after the other. *)
Fixpoint run (cells : list (gmap string value -> result (gmap string value)))
    (ns : gmap string value) : result (gmap string value) :=
  match cells with
  | [] => Ok ns
  | c :: cs => bind (c ns) (run cs)
  end.

End Cells.

(** ** Spread of a grid posterior *)

Module Summary.
Import NP.

(** Modelled from the spec: the mean of a grid posterior, which the
    notebook only plots; taken as the trapezoidal sum of [rvals*pdf]. *)
Definition grid_mean (rvals pdf : list npfloat) (dr : npfloat)
    : result npfloat :=
  bind (broadcast2 fmul rvals pdf) (fun y => Ok (trapz y dr)).

(** Modelled from the spec: the variance of a grid posterior, the
    trapezoidal sum of [(rvals - mean)**2 * pdf]. *)
Definition grid_var (rvals pdf : list npfloat) (dr : npfloat)
    : result npfloat :=
  bind (grid_mean rvals pdf dr) (fun m =>
  bind (broadcast2 fmul (map (fun r => fpow (fsub r m) 2) rvals) pdf)
       (fun y => Ok (trapz y dr))).

End Summary.

Module SpreadReal.
Import RealSide.

(** [i^16 * exp(-40/199)^i]: the Poisson likelihood of 16 counts in 2
    seconds at the [i]-th grid rate, up to a constant factor. *)
Definition tau (i : nat) : R := INR i ^ 16 * exp (- (40 / 199)) ^ i.

(** Trapezoidal moment of order [k] of weights [g] on the rate grid. *)
Definition tmoment (k : nat) (g : nat -> R) : R :=
  rtrapz (map (fun j => INR j ^ k * g j) (seq 0 200)) (20 / 199).

Definition rmean (rv pdf : list R) (d : R) : R := rtrapz (rmul2 rv pdf) d.

Definition rvar (rv pdf : list R) (d : R) : R :=
  rtrapz (rmul2 (map (fun r => (r + - rmean rv pdf d) ^ 2) rv) pdf) d.

(** What one triple [(i, (lo, hi))] of integer bounds says about the
    term of index [j]: [lo * 2^50 <= j^16 * q^j <= hi * 2^50]. *)
Definition brackets (q : R) (t : Z * (Z * Z)) (j : nat) : Prop :=
  fst t = Z.of_nat j
  /\ (0 <= fst (snd t))%Z
  /\ IZR (fst (snd t)) * 2 ^ 50 <= INR j ^ 16 * q ^ j
     <= IZR (snd (snd t)) * 2 ^ 50.

End SpreadReal.

(** ** Certified rational bounds

    Integer computations that bracket [exp(-t)] for a rational [t] and
    the terms [i^16 * exp(-40/199)^i] of the Poisson likelihood on the
    rate grid.  They serve the comparison of the two posterior spreads. *)

Module Certify.
Local Open Scope Z_scope.

Definition sq_down (D a : Z) : Z := (a * a) / D.
Definition sq_up (D b : Z) : Z := (b * b + D - 1) / D.

(** [k] squarings of an interval with outward rounding, in units of
    [1/D]. *)
Fixpoint chain (k : nat) (D a b : Z) : Z * Z :=
  match k with
  | O => (a, b)
  | S k' => chain k' D (sq_down D a) (sq_up D b)
  end.

(** Bounds of [exp(-tn/td)]: [1 - x <= exp(-x) <= 1/(1 + x)] at
    [x = tn/(td*2^k)], squared [k] times. *)
Definition exp_neg_bounds (tn td : Z) (k : nat) (D : Z) : Z * Z :=
  let den := td * 2 ^ Z.of_nat k in
  chain k D ((D * (den - tn)) / den)
            ((D * den + (den + tn) - 1) / (den + tn)).

(** The same interval in the coarser unit [1/D2]. *)
Definition coarsen (D D2 : Z) (ab : Z * Z) : Z * Z :=
  ((fst ab * D2) / D, (snd ab * D2 + D - 1) / D).

(** Bounds of [q = exp(-40/199)] in units of [2^-20]. *)
Definition q_bounds : Z * Z :=
  coarsen (2 ^ 48) (2 ^ 20) (exp_neg_bounds 40 199 20 (2 ^ 48)).

(** For [i = i0, i0+1, ...], [n] triples [(i, lo, hi)] with
    [lo * 2^50 <= i^16 * q^i <= hi * 2^50], from bounds [plo], [phi] of
    [q^i0] in units of [2^-100] and bounds [a], [b] of [q] in units of
    [2^-20]. *)
Fixpoint tbounds (n : nat) (i a b plo phi : Z) : list (Z * (Z * Z)) :=
  match n with
  | O => []
  | S n' =>
      let c := i ^ 16 in
      (i, (Z.shiftr (c * plo) 150, Z.shiftr (c * phi) 150 + 1))
        :: tbounds n' (i + 1) a b
             (Z.shiftr (plo * a) 20) (Z.shiftr (phi * b) 20 + 1)
  end.

Definition tb200 : list (Z * (Z * Z)) :=
  tbounds 200 0 (fst q_bounds) (snd q_bounds) (2 ^ 100) (2 ^ 100).

(** Twice the trapezoidal sum, for unit spacing. *)
Fixpoint ztrapz (l : list Z) : Z :=
  match l with
  | a :: (b :: _) as t => (b + a) + ztrapz t
  | _ => 0
  end.

(** Moment [k] of the lower ([hi = false]) or upper bounds raised to the
    power [pw]. *)
Definition moment (tb : list (Z * (Z * Z))) (k : nat) (hi : bool) (pw : nat)
    : Z :=
  ztrapz (map (fun t => fst t ^ Z.of_nat k
                        * (if hi then snd (snd t) else fst (snd t))
                          ^ Z.of_nat pw)
              tb).

End Certify.

(** ** The test cells and the location-parameter sections

    The rest of the inline code of the notebook: the cell
    [test_norm(post_pdf, dr)] after each Poisson case, the grid posterior
    of the Normal and of the Cauchy section, and the loop over the
    simulated Cauchy data sets.  The data are random draws in the
    notebook; here they are arguments, like the grid bounds that the
    cells derive from them. *)

Module Sections.
Import NP Notebook Cells.

(** The cell [test_norm(<name>, dr)]. *)
Definition cell_test (name : string) (ns : gmap string value)
    : result (gmap string value) :=
  bind (get_array ns name) (fun ppdf =>
  bind (get_float ns "dr") (fun dr =>
  bind (test_norm ppdf dr) (fun _ => Ok ns))).

(** The Poisson cells in the order of the notebook. *)
Definition poisson_cells
    : list (gmap string value -> result (gmap string value)) :=
  [ cell_case1; cell_test "post_pdf";
    cell_case2; cell_test "post_pdf2";
    cell_case3; cell_test "post_pdf3";
    cell_case4; cell_test "post_pdf4" ].

(** A likelihood array as the operand of [prior_pdf*like] against a 1-d
    prior: a 0-d array is stretched like an array of one element. *)
Definition as_operand (a : ndarray) : list npfloat :=
  match a with
  | Scalar x => [x]
  | Vector l => l
  end.

(** The lines that the Normal and the Cauchy section share, from the
    grid to the normalisation test:
    [vals = linspace(lo, hi, 200); d = vals[1] - vals[0];
     prior_pdf = ones_like(vals)/(prior_u - prior_l);
     like = <likelihood>(vals); numer = prior_pdf*like;
     denom = np.trapz(numer, dx=d); post_pdf = numer/denom;
     test_norm(post_pdf, d)]
    with [prior_l, prior_u = -100., 100.] (in the Normal section the call
    of [test_norm] is the next cell).  The result is [post_pdf]. *)
Definition grid_posterior_lines (like_fn : ndarray -> result ndarray)
    (lo hi : npfloat) : result (list npfloat) :=
  let prior_l := Fin (-100) in
  let prior_u := Fin 100 in
  let vals := linspace lo hi 200 in
  bind (spacing vals) (fun d =>
  let pp := prior_pdf vals prior_l prior_u in
  bind (like_fn (Vector vals)) (fun lk =>
  bind (post_pdf pp (as_operand lk) d) (fun post =>
  bind (test_norm post d) (fun _ => Ok post)))).

(** The Normal section on the grid from [mu_l] to [mu_u]. *)
Definition normal_posterior (data : list npfloat) (sig mu_l mu_u : npfloat)
    : result (list npfloat) :=
  grid_posterior_lines (fun g => norm_like data g sig) mu_l mu_u.

(** The Cauchy section on the grid from [x0_l] to [x0_u]. *)
Definition cauchy_posterior (data : list npfloat) (scale x0_l x0_u : npfloat)
    : result (list npfloat) :=
  grid_posterior_lines (fun g => cauchy_like data g scale) x0_l x0_u.

(** The loop [for data in datasets: ...] of the last cell, on the grid,
    the spacing and the prior left by the cell before it; the result
    lists the posteriors it plots. *)
Fixpoint cauchy_loop (datasets : list (list npfloat))
    (x0vals prior : list npfloat) (scale dx : npfloat)
    : result (list (list npfloat)) :=
  match datasets with
  | [] => Ok []
  | data :: rest =>
      bind (cauchy_like data (Vector x0vals) scale) (fun lk =>
      bind (post_pdf prior (as_operand lk) dx) (fun post =>
      bind (test_norm post dx) (fun _ =>
      bind (cauchy_loop rest x0vals prior scale dx) (fun ps =>
      Ok (post :: ps)))))
  end.

End Sections.

(** ** Samples on reals *)

Module Sample.
Import RealSide.


(** A data set or a grid moved by [c]. *)
Definition shifted (c : R) (l : list R) : list R := map (fun x => x + c) l.

(** A vector multiplied by [c]. *)
Definition scaled (c : R) (l : list R) : list R := map (fun x => c * x) l.

End Sample.

(** ** Operand ranges

    Binary64 holds magnitudes between about [2^-1022] and [2^1024] with
    53 significant bits.  The exact arithmetic of the numpy layer stands
    for the code as long as no intermediate value leaves that range or
    sinks to its lower end.  The predicates below bound the operands of
    a theorem so that every intermediate value of the code stays far
    inside the range; a theorem that carries them describes the code up
    to the rounding of the last bits.  What happens outside is shown on
    the binary64 layer further down. *)

Module Range.
Import RealSide.

(** A positive magnitude between [2^-k] and [2^k]. *)
Definition in_range (k : nat) (x : R) : Prop := / 2 ^ k <= x <= 2 ^ k.

(** A sample of a density: zero, or a magnitude in range. *)
Definition sample (k : nat) (x : R) : Prop := x = 0 \/ in_range k x.

(** A value of either sign whose magnitude is at most [2^k]. *)
Definition bounded (k : nat) (x : R) : Prop := Rabs x <= 2 ^ k.

(** A grid of two to [2^20] points. *)
Definition grid_size (N : nat) : Prop := (2 <= Z.of_nat N <= 1048576)%Z.

(** Grid bounds far enough apart for the samples of [linspace] to stay
    distinct: [hi - lo] is in range and at least [2^-20] of either
    bound. *)
Definition separated (lo hi : R) : Prop :=
  in_range 60 (hi - lo)
  /\ Rabs lo <= 2 ^ 20 * (hi - lo) /\ Rabs hi <= 2 ^ 20 * (hi - lo).

(** The operands of the three posterior lines: aligned vectors on a grid
    of admissible size, prior samples within [2^-60, 2^60], likelihood
    samples within [2^-300, 2^300], a spacing within [2^-60, 2^60], and
    a product that is positive somewhere. *)
Definition posterior_regime (prior likelihood : list R) (d : R) : Prop :=
  length prior = length likelihood
  /\ grid_size (length prior)
  /\ Forall (sample 60) prior
  /\ Forall (sample 300) likelihood
  /\ in_range 60 d
  /\ Exists (fun x => 0 < x) (rmul2 prior likelihood).



(** The exponential prior away from underflow: a scale in range and
    rates between 0 and 20 scales. *)
Definition gamma_regime (s : R) (rs : list R) : Prop :=
  in_range 20 s /\ Forall (fun r => 0 <= r <= 20 * s) rs.

(** The Normal likelihood away from underflow: a scale in range,
    bounded data and locations, at most [2^20] observations, and a sum
    of squared residuals of at most 400 squared scales at every
    location. *)
Definition norm_regime (data mus : list R) (sig : R) : Prop :=
  in_range 100 (Rabs sig)
  /\ Forall (bounded 100) data /\ Forall (bounded 100) mus
  /\ (Z.of_nat (length data) <= 1048576)%Z
  /\ Forall (fun mu =>
               rsum (map (fun d => (d + - mu) ^ 2) data) <= 400 * (sig * sig))
            mus.

(** The Cauchy likelihood away from underflow: a scale in range,
    bounded data and locations, at most 20 observations, each within 64
    scales of every location. *)
Definition cauchy_regime (data xs : list R) (scale : R) : Prop :=
  in_range 100 (Rabs scale)
  /\ Forall (bounded 100) data /\ Forall (bounded 100) xs
  /\ (length data <= 20)%nat
  /\ Forall (fun x0 =>
               Forall (fun d => Rabs (x0 + - d) <= 64 * Rabs scale) data) xs.

End Range.

(** ** The result buffer of [cauchy_like]

    [cauchy_like] writes its vector result into
    [lvals = empty_like(x0vals)], an array of the shape of [x0vals]
    whose initial content is whatever the allocator left there, one
    index after the other. *)

Module Buffer.
Import NP Notebook.

(** [for i in range(len(x0vals)): lvals[i] = prod(...)], from index [i]
    on, [todo] passes to go. *)
Fixpoint fill_lvals (data : list npfloat) (scale2 : npfloat)
    (x0vals : list npfloat) (i todo : nat) (lvals : list npfloat)
    : result (list npfloat) :=
  match todo with
  | O => Ok lvals
  | S todo' =>
      match x0vals !! i with
      | None => Raise IndexError
      | Some x0 =>
          if decide (i < length lvals)%nat then
            fill_lvals data scale2 x0vals (S i) todo'
                       (<[i := cauchy_prod data scale2 x0]> lvals)
          else Raise IndexError
      end
  end.

(** The vector branch of [cauchy_like] on a buffer of initial content
    [garbage]. *)
Definition cauchy_like_lvals (data x0vals : list npfloat) (scale : npfloat)
    (garbage : list npfloat) : result (list npfloat) :=
  let scale2 := fpow scale 2 in
  fill_lvals data scale2 x0vals 0 (length x0vals) garbage.

End Buffer.

(** ** The arithmetic lines in binary64

    The lines of the notebook that only multiply, add, subtract and
    divide are replayed here bit for bit on the binary64 numbers of the
    kernel, to show what the code does where the exact layer does not
    stand for it: at overflow, at underflow and among subnormal numbers.
    [numpy.sum] of a contiguous array starts from zero and adds fewer
    than 8 terms from left to right, up to 128 terms on 8 running sums
    that it then pairs up, and more terms by halving the array;
    [numpy.prod] multiplies from left to right.  The square [x**2] of an
    array is the rounded product [x*x]; [scale**2] on a Python float is
    C's [pow], taken here as the rounded square, which raises
    [OverflowError] when a finite operand gives an infinite result. *)

Module B64.
Import NP.
Local Open Scope float_scope.

Inductive ndarray64 : Type :=
| Scalar64 (x : float)
| Vector64 (l : list float).

Definition is_finite (x : float) : bool := negb (is_nan x || is_infinity x).

(** The 8 running sums paired up. *)
Definition tree8 (r : list float) : float :=
  match r with
  | [r0; r1; r2; r3; r4; r5; r6; r7] =>
      ((r0 + r1) + (r2 + r3)) + ((r4 + r5) + (r6 + r7))
  | _ => fold_left PrimFloat.add r 0
  end.

(** [k] blocks of 8 terms added onto the running sums [r]. *)
Fixpoint blocks8 (k : nat) (r l : list float) : list float * list float :=
  match k with
  | O => (r, l)
  | S k' =>
      blocks8 k' (map (fun p => fst p + snd p) (combine r (firstn 8 l)))
              (skipn 8 l)
  end.

(** The sum of 8 to 128 terms. *)
Definition block_sum (a : list float) : float :=
  let rl := blocks8 (length a / 8 - 1) (firstn 8 a) (skipn 8 a) in
  fold_left PrimFloat.add (snd rl) (tree8 (fst rl)).

Fixpoint pairwise_sum (fuel : nat) (a : list float) : float :=
  let n := length a in
  if (n <? 8)%nat then fold_left PrimFloat.add a 0
  else if (n <=? 128)%nat then block_sum a
  else
    match fuel with
    | O => block_sum a
    | S fuel' =>
        let n2 := (n / 2 - (n / 2) mod 8)%nat in
        pairwise_sum fuel' (firstn n2 a) + pairwise_sum fuel' (skipn n2 a)
    end.

Definition np_sum (a : list float) : float := 0 + pairwise_sum (length a) a.

Definition np_prod (a : list float) : float := fold_left PrimFloat.mul a 1.

Definition broadcast2 (f : float -> float -> float) (a b : list float)
    : result (list float) :=
  if Nat.eqb (length a) (length b) then
    Ok (map (fun p => f (fst p) (snd p)) (combine a b))
  else
    match a, b with
    | [x], _ => Ok (map (fun y => f x y) b)
    | _, [y] => Ok (map (fun x => f x y) a)
    | _, _ => Raise ValueError
    end.

(** [np.trapz(y, dx=d)] *)
Definition trapz (y : list float) (d : float) : float :=
  np_sum (map (fun p => d * (fst p + snd p) / 2)
              (combine (tl y) (removelast y))).

(** [ones_like(rvals)/(prior_u - prior_l)] *)
Definition prior_pdf (rvals : list float) (prior_l prior_u : float)
    : list float :=
  map (fun o => o / (prior_u - prior_l)) (map (fun _ => 1) rvals).

(** [rvals[1] - rvals[0]] *)
Definition spacing (rvals : list float) : result float :=
  match rvals with
  | r0 :: r1 :: _ => Ok (r1 - r0)
  | _ => Raise IndexError
  end.

Definition numer (prior likelihood : list float) : result (list float) :=
  broadcast2 PrimFloat.mul prior likelihood.

Definition denom (numer : list float) (dr : float) : float := trapz numer dr.

Definition post_pdf (prior likelihood : list float) (dr : float)
    : result (list float) :=
  bind (numer prior likelihood) (fun nm =>
  let dn := denom nm dr in
  Ok (map (fun x => x / dn) nm)).

(** [scale**2] on a Python float. *)
Definition float_pow2 (x : float) : result float :=
  let r := x * x in
  if is_finite x && is_infinity r then Raise OverflowError else Ok r.

(** [prod(1./(1. + (x0 - data)**2/scale2))] for one [x0]. *)
Definition cauchy_prod (data : list float) (scale2 x0 : float) : float :=
  np_prod (map (fun d => 1 / (1 + ((x0 - d) * (x0 - d)) / scale2)) data).

Definition cauchy_like (data : list float) (x0vals : ndarray64)
    (scale : float) : result ndarray64 :=
  bind (float_pow2 scale) (fun scale2 =>
  match x0vals with
  | Scalar64 x0 => Ok (Scalar64 (cauchy_prod data scale2 x0))
  | Vector64 xs => Ok (Vector64 (map (cauchy_prod data scale2) xs))
  end).

End B64.

(** ** Finite operands *)

Section Lifting.
Import NP RealSide Notebook.

Lemma sgn_pos (r : R) : 0 < r -> sgn r = Gt.
Proof.
  intros H. unfold sgn.
  destruct (total_order_T r 0) as [[Hlt | Heq] | Hgt]; try reflexivity; lra.
Qed.

Lemma sgn_neg (r : R) : r < 0 -> sgn r = Lt.
Proof.
  intros H. unfold sgn.
  destruct (total_order_T r 0) as [[Hlt | Heq] | Hgt]; try reflexivity; lra.
Qed.

Lemma sgn_zero : sgn 0 = Eq.
Proof.
  unfold sgn.
  destruct (total_order_T 0 0) as [[Hlt | Heq] | Hgt]; try reflexivity; lra.
Qed.

Lemma sgn_Eq_inv (r : R) : sgn r = Eq -> r = 0.
Proof.
  unfold sgn.
  destruct (total_order_T r 0) as [[Hlt | Heq] | Hgt]; congruence.
Qed.

Lemma fdiv_fin (x y : R) : y <> 0 -> fdiv (Fin x) (Fin y) = Fin (x / y).
Proof.
  intros Hy. simpl.
  destruct (sgn y) eqn:E; try reflexivity.
  apply sgn_Eq_inv in E. contradiction.
Qed.

Lemma fold_fadd_fins (l : list R) (a : R) :
  fold_left fadd (fins l) (Fin a) = Fin (a + rsum l).
Proof.
  revert a. induction l as [| x l IH]; intros a; simpl.
  - f_equal. lra.
  - rewrite IH. f_equal. lra.
Qed.

Lemma np_sum_fins (l : list R) : np_sum (fins l) = Fin (rsum l).
Proof.
  unfold np_sum. rewrite fold_fadd_fins. f_equal. lra.
Qed.

Lemma fold_fmul_fins (l : list R) (a : R) :
  fold_left fmul (fins l) (Fin a) = Fin (a * rprod l).
Proof.
  revert a. induction l as [| x l IH]; intros a; simpl.
  - f_equal. lra.
  - rewrite IH. f_equal. lra.
Qed.

Lemma np_prod_fins (l : list R) : np_prod (fins l) = Fin (rprod l).
Proof.
  unfold np_prod. rewrite fold_fmul_fins. f_equal. lra.
Qed.

Lemma combine_tl_removelast {A : Type} (y : list A) :
  combine (tl y) (removelast y) = pairs y.
Proof.
  destruct y as [| a t]; [reflexivity |].
  revert a. induction t as [| b t IH]; intros a; [reflexivity |].
  specialize (IH b). simpl in *. f_equal. exact IH.
Qed.

Lemma pairs_map {A B : Type} (f : A -> B) (y : list A) :
  pairs (map f y) = map (fun p => (f (fst p), f (snd p))) (pairs y).
Proof.
  induction y as [| a [| b t] IH]; try reflexivity.
  simpl in *. f_equal. exact IH.
Qed.

Lemma trapz_fins (y : list R) (d : R) :
  trapz (fins y) (Fin d) = Fin (rtrapz y d).
Proof.
  unfold trapz, rtrapz. rewrite combine_tl_removelast.
  unfold fins at 1. rewrite pairs_map, map_map.
  rewrite <- np_sum_fins. unfold fins. rewrite map_map.
  f_equal. apply map_ext. intros [b a]. cbn [fst snd fadd fmul].
  rewrite fdiv_fin by lra. reflexivity.
Qed.

Lemma rsum_scale (c : R) (l : list R) :
  rsum (map (fun x => x / c) l) = rsum l / c.
Proof.
  induction l as [| x l IH]; simpl.
  - unfold Rdiv. lra.
  - rewrite IH. unfold Rdiv. lra.
Qed.

Lemma rtrapz_scale (c d : R) (y : list R) :
  rtrapz (map (fun x => x / c) y) d = rtrapz y d / c.
Proof.
  unfold rtrapz. rewrite pairs_map, map_map, <- rsum_scale, map_map.
  f_equal. apply map_ext. intros [b a]. simpl. unfold Rdiv. lra.
Qed.

End Lifting.

(** ** Finite results come from finite operands *)

Section Finiteness.
Import NP RealSide Notebook.

Lemma isfinite_inv (a : npfloat) : isfinite a = true -> exists r, a = Fin r.
Proof. destruct a; simpl; intros H; try discriminate. eauto. Qed.

Lemma Forall_isfinite_fins (l : list npfloat) :
  Forall (fun a => isfinite a = true) l -> exists rl, l = fins rl.
Proof.
  induction 1 as [| a l Ha _ [rl ->]].
  - exists []. reflexivity.
  - apply isfinite_inv in Ha as [r ->]. exists (r :: rl). reflexivity.
Qed.

Lemma fadd_Fin_inv (a b : npfloat) (z : R) :
  fadd a b = Fin z -> isfinite a = true /\ isfinite b = true.
Proof. destruct a, b; simpl; intros H; try discriminate; auto. Qed.

Lemma inf_times_not_Fin (pos : bool) (r z : R) : inf_times pos r <> Fin z.
Proof. unfold inf_times. destruct (sgn r), pos; discriminate. Qed.

Lemma fmul_Fin_inv (a b : npfloat) (z : R) :
  fmul a b = Fin z -> isfinite a = true /\ isfinite b = true.
Proof.
  destruct a, b; simpl; intros H; try discriminate; auto;
    exfalso; eapply inf_times_not_Fin; eassumption.
Qed.

Lemma fdiv_two_Fin_inv (a : npfloat) (z : R) :
  fdiv a (Fin 2) = Fin z -> isfinite a = true.
Proof.
  destruct a; simpl; try discriminate; auto;
    rewrite sgn_pos by lra; discriminate.
Qed.

Lemma fold_fadd_Fin_inv (l : list npfloat) (a : npfloat) (z : R) :
  fold_left fadd l a = Fin z ->
  isfinite a = true /\ Forall (fun x => isfinite x = true) l.
Proof.
  revert a. induction l as [| x l IH]; intros a H; simpl in H.
  - subst a. auto.
  - apply IH in H as [Hax Hl].
    apply isfinite_inv in Hax as [r Hr].
    apply fadd_Fin_inv in Hr as [Ha Hx]. auto.
Qed.

Lemma pairs_finite_all (y : list npfloat) :
  (2 <= length y)%nat ->
  Forall (fun p => isfinite (fst p) = true /\ isfinite (snd p) = true)
         (pairs y) ->
  Forall (fun a => isfinite a = true) y.
Proof.
  induction y as [| a [| b t] IH]; simpl; intros Hlen H; try lia.
  inversion H as [| p ps [Hb Ha] Hps]; subst.
  constructor; [exact Ha |].
  destruct t as [| c t].
  - constructor; [exact Hb | constructor].
  - apply IH; [simpl; lia | exact Hps].
Qed.

(** A finite non-zero trapezoidal sum has a finite spacing and finite
    samples. *)
Lemma trapz_Fin_inv (y : list npfloat) (d : npfloat) (z : R) :
  trapz y d = Fin z -> z <> 0 ->
  exists ry rd, y = fins ry /\ d = Fin rd.
Proof.
  unfold trapz. rewrite combine_tl_removelast. intros H Hz.
  apply fold_fadd_Fin_inv in H as Hfin. destruct Hfin as [_ Hterms].
  rewrite Forall_map in Hterms.
  destruct y as [| a [| b t]].
  - simpl in H. injection H as <-. contradiction.
  - simpl in H. injection H as <-. contradiction.
  - assert (Hd : isfinite d = true).
    { inversion Hterms as [| p ps Hp _]; subst. simpl in Hp.
      apply isfinite_inv in Hp as [r Hr].
      apply fdiv_two_Fin_inv in Hr. apply isfinite_inv in Hr as [r' Hr'].
      apply fmul_Fin_inv in Hr'. tauto. }
    assert (Hall : Forall (fun a => isfinite a = true) (a :: b :: t)).
    { apply pairs_finite_all; [simpl; lia |].
      eapply Forall_impl; [exact Hterms |].
      intros [q p] Hp. simpl in Hp |- *.
      apply isfinite_inv in Hp as [r Hr].
      apply fdiv_two_Fin_inv in Hr. apply isfinite_inv in Hr as [r' Hr'].
      apply fmul_Fin_inv in Hr' as [_ Hs].
      apply isfinite_inv in Hs as [s Hs].
      apply fadd_Fin_inv in Hs. tauto. }
    apply Forall_isfinite_fins in Hall as [ry Hry].
    apply isfinite_inv in Hd as [rd Hrd].
    exists ry, rd. auto.
Qed.

End Finiteness.

(** ** The validator *)

Section Validator.
Import NP RealSide Notebook.

Lemma exp_le_mono (x y : R) : x <= y -> exp x <= exp y.
Proof.
  intros [H | ->]; [left; apply exp_increasing; exact H | right; reflexivity].
Qed.

Lemma ln10_pos : 0 < ln 10.
Proof. rewrite <- ln_1. apply ln_increasing; lra. Qed.

(** [10 ** floor(log10(s))] brackets [s] within one decade. *)
Lemma decade_bracket (s : R) :
  0 < s ->
  Rpower 10 (IZR (Int_part (ln s / ln 10))) <= s
  /\ s < 10 * Rpower 10 (IZR (Int_part (ln s / ln 10))).
Proof.
  intros Hs. pose proof ln10_pos as H10.
  destruct (base_Int_part (ln s / ln 10)) as [Hlo Hhi].
  set (k := IZR (Int_part (ln s / ln 10))) in *.
  assert (Hx : ln s / ln 10 * ln 10 = ln s) by (field; lra).
  unfold Rpower. split.
  - rewrite <- (exp_ln s Hs). apply exp_le_mono.
    rewrite <- Hx. apply Rmult_le_compat_r; lra.
  - rewrite <- (exp_ln 10) at 1 by lra. rewrite <- exp_plus.
    rewrite <- (exp_ln s Hs). apply exp_increasing.
    rewrite <- Hx. nra.
Qed.

Lemma decade_cases (k : Z) :
  ((k <= -2)%Z -> Rpower 10 (IZR k) <= 0.01)
  /\ (k = (-1)%Z -> Rpower 10 (IZR k) = 0.1)
  /\ (k = 0%Z -> Rpower 10 (IZR k) = 1)
  /\ ((1 <= k)%Z -> 10 <= Rpower 10 (IZR k)).
Proof.
  assert (H1 : Rpower 10 1 = 10) by (apply Rpower_1; lra).
  assert (Hm1 : Rpower 10 (-1) = 0.1).
  { replace (-1) with (Ropp 1) by lra. rewrite Rpower_Ropp, H1. lra. }
  assert (Hm2 : Rpower 10 (-2) = 0.01).
  { replace (-2) with (-1 + -1) by lra. rewrite Rpower_plus, Hm1. lra. }
  repeat split.
  - intros Hk. rewrite <- Hm2. apply Rle_Rpower; [lra |].
    apply IZR_le in Hk. exact Hk.
  - intros ->. exact Hm1.
  - intros ->. apply Rpower_O. lra.
  - intros Hk. rewrite <- H1 at 1. apply Rle_Rpower; [lra |].
    apply IZR_le in Hk. exact Hk.
Qed.

(** The two-digit test against 1, on a finite value other than 1. *)
Lemma two_digit_criterion (I : R) :
  let s := 0.5 * (Rabs 1 + Rabs I) in
  let P := Rpower 10 (IZR (Int_part (ln s / ln 10))) in
  / 10 <= Rabs (1 / P + - (I / P)) <-> ~ (0.99 < I < 1.1).
Proof.
  intros s P.
  assert (Hs : 0.5 <= s).
  { unfold s. rewrite Rabs_R1. pose proof (Rabs_pos I). lra. }
  destruct (decade_bracket s) as [Hlo Hhi]; [lra |]. fold P in Hlo, Hhi.
  assert (HP : 0 < P) by (unfold P, Rpower; apply exp_pos).
  assert (E : Rabs (1 / P + - (I / P)) = Rabs (1 - I) / P).
  { replace (1 / P + - (I / P)) with ((1 - I) / P) by (field; lra).
    unfold Rdiv. rewrite Rabs_mult, (Rabs_right (/ P)); [reflexivity |].
    left. apply Rinv_0_lt_compat. exact HP. }
  rewrite E.
  assert (Q : / 10 <= Rabs (1 - I) / P <-> 0.1 * P <= Rabs (1 - I)).
  { split; intros H.
    - apply (Rmult_le_compat_r P) in H; [| lra].
      unfold Rdiv in H. rewrite Rmult_assoc, Rinv_l, Rmult_1_r in H; lra.
    - apply (Rmult_le_reg_r P); [exact HP |].
      unfold Rdiv. rewrite Rmult_assoc, Rinv_l, Rmult_1_r; lra. }
  rewrite Q. clear E Q.
  unfold s in Hs, Hlo, Hhi. rewrite Rabs_R1 in Hlo, Hhi.
  destruct (decade_cases (Int_part (ln s / ln 10))) as (Ha & Hb & Hc & Hd).
  fold P in Ha, Hb, Hc, Hd.
  assert (Hk : (Int_part (ln s / ln 10) <= -2
                \/ Int_part (ln s / ln 10) = -1
                \/ Int_part (ln s / ln 10) = 0
                \/ 1 <= Int_part (ln s / ln 10))%Z) by lia.
  revert Hlo Hhi. unfold Rabs.
  destruct (Rcase_abs I), (Rcase_abs (1 - I)); intros Hlo Hhi;
    destruct Hk as [Hk | [Hk | [Hk | Hk]]];
    try (specialize (Ha Hk)); try (specialize (Hb Hk));
    try (specialize (Hc Hk)); try (specialize (Hd Hk));
    split; intros; lra.
Qed.

Lemma assert_approx_equal_one (I : R) :
  assert_approx_equal (Fin I) (Fin 1) 2 =
  if Rle_dec (/ 10)
       (Rabs (1 / Rpower 10 (IZR (Int_part
                 (ln (0.5 * (Rabs 1 + Rabs I)) / ln 10)))
              + - (I / Rpower 10 (IZR (Int_part
                 (ln (0.5 * (Rabs 1 + Rabs I)) / ln 10))))))
  then (if Req_dec_T 1 I then Ok tt else Raise AssertionError)
  else Ok tt.
Proof.
  unfold assert_approx_equal. cbn [feqb].
  destruct (Req_dec_T 1 I) as [HI | HI].
  - destruct (Rle_dec _ _); reflexivity.
  - cbn [isfinite andb negb fabs fadd fmul].
    assert (Hs : 0 < 0.5 * (Rabs 1 + Rabs I)).
    { rewrite Rabs_R1. pose proof (Rabs_pos I). lra. }
    cbn [flog10]. rewrite (sgn_pos _ Hs). cbn [ffloor fpower10].
    set (P := Rpower 10 _).
    assert (HP : P <> 0).
    { unfold P, Rpower. apply Rgt_not_eq, exp_pos. }
    rewrite !fdiv_fin by exact HP.
    cbn [fsub fneg fadd fabs fgeb].
    replace (powerRZ 10 (- (2 - 1))) with (/ 10) by (simpl; f_equal; lra).
    destruct (Rle_dec _ _); reflexivity.
Qed.

End Validator.

Section ValidatorClaims.
Import NP RealSide Notebook.

Lemma test_norm_Fin (ppdf : list npfloat) (delta : npfloat) (I : R) :
  trapz ppdf delta = Fin I ->
  (0.99 < I < 1.1 -> test_norm ppdf delta = Ok tt)
  /\ (~ (0.99 < I < 1.1) -> test_norm ppdf delta = Raise AssertionError).
Proof.
  intros HI. unfold test_norm. rewrite HI, assert_approx_equal_one.
  pose proof (two_digit_criterion I) as Hc. cbv zeta in Hc.
  destruct (Rle_dec _ _) as [Hle | Hnle].
  - apply Hc in Hle. split; [tauto |]. intros _.
    destruct (Req_dec_T 1 I) as [<- | _]; [exfalso; apply Hle; lra | reflexivity].
  - split; [reflexivity |]. intros Hout. exfalso. apply Hnle, Hc, Hout.
Qed.

Lemma test_norm_not_Fin (ppdf : list npfloat) (delta : npfloat) :
  isfinite (trapz ppdf delta) = false ->
  test_norm ppdf delta = Raise AssertionError.
Proof.
  unfold test_norm. destruct (trapz ppdf delta); simpl; try discriminate;
    reflexivity.
Qed.

Lemma rtrapz_ones_cons (a : R) (t : list R) (d : R) :
  rtrapz (map (fun _ => 1) (a :: t)) d = INR (length t) * d.
Proof.
  unfold rtrapz. revert a.
  induction t as [| b t IH]; intros a.
  - simpl. lra.
  - specialize (IH b). rewrite length_cons, S_INR.
    simpl in IH |- *. rewrite IH. lra.
Qed.

Lemma rtrapz_ones (l : list R) (d : R) :
  rtrapz (map (fun _ => 1) l) d = INR (length l - 1) * d.
Proof.
  destruct l as [| a t].
  - unfold rtrapz. simpl. lra.
  - rewrite rtrapz_ones_cons. simpl. rewrite Nat.sub_0_r. reflexivity.
Qed.

Lemma ones_like_fins (l : list R) :
  ones_like (fins l) = fins (map (fun _ => 1) l).
Proof. unfold ones_like, fins. rewrite !map_map. reflexivity. Qed.

Lemma linspace_fins (a b : R) (m : nat) :
  linspace (Fin a) (Fin b) (S (S m)) =
  fins (map (fun i => INR i * ((b + - a) / INR (S m)) + a) (seq 0 (S (S m)))).
Proof.
  unfold linspace, fins. cbn [fsub fneg fadd].
  replace (S (S m) - 1)%nat with (S m) by lia.
  rewrite fdiv_fin by (apply not_0_INR; lia).
  rewrite map_map. reflexivity.
Qed.

Lemma rvals_200 :
  linspace (Fin 0) (Fin 20) 200 =
  fins (map (fun i => INR i * (20 / 199)) (seq 0 200)).
Proof.
  rewrite linspace_fins. f_equal. apply map_ext. intros i.
  replace (INR 199) with 199 by (rewrite INR_IZR_INZ; reflexivity).
  lra.
Qed.

Lemma spacing_200 :
  spacing (linspace (Fin 0) (Fin 20) 200) = Ok (Fin (20 / 199)).
Proof.
  rewrite rvals_200.
  change (seq 0 200) with (0%nat :: 1%nat :: seq 2 198).
  cbn [fins map spacing fsub fneg fadd]. do 2 f_equal. simpl. lra.
Qed.

End ValidatorClaims.

(** ** The likelihood evaluators on finite operands *)

Section Evaluators.
Import NP RealSide Notebook.

Lemma fpow_fin (x : R) (n : nat) : fpow (Fin x) n = Fin (x ^ n).
Proof. destruct n; reflexivity. Qed.

Lemma like_fins (n : nat) (T : R) (rs : list R) :
  like n (rtvals (fins rs) (Fin T)) = fins (map (poisson_l n T) rs).
Proof.
  unfold like, rtvals, fins. rewrite !map_map. apply map_ext. intros r.
  cbn [fmul fneg fexp]. rewrite fpow_fin. reflexivity.
Qed.

Lemma norm_q_fins (data : list R) (sig mu : R) :
  sig <> 0 ->
  norm_q (fins data) (fmul (Fin sig) (Fin sig)) (Fin mu) =
  Fin (rsum (map (fun d => (d + - mu) ^ 2) data) / (sig * sig)).
Proof.
  intros Hs. unfold norm_q.
  assert (E : map (fun d => fpow (fsub d (Fin mu)) 2) (fins data)
              = fins (map (fun d => (d + - mu) ^ 2) data)).
  { unfold fins. rewrite !map_map. reflexivity. }
  rewrite E, np_sum_fins. cbn [fmul]. apply fdiv_fin. nra.
Qed.

Lemma norm_like_fins (data mus : list R) (sig : R) :
  sig <> 0 ->
  norm_like (fins data) (Vector (fins mus)) (Fin sig) =
  Ok (Vector (fins (map (norm_l data sig) mus))).
Proof.
  intros Hs. unfold norm_like. do 2 f_equal.
  unfold fins at 2 3. rewrite !map_map. apply map_ext. intros mu.
  rewrite norm_q_fins by exact Hs. reflexivity.
Qed.

Lemma sqr_pos_of_neq (r : R) : r <> 0 -> 0 < r ^ 2.
Proof.
  intros Hr. simpl.
  destruct (Rtotal_order r 0) as [H | [H | H]]; [nra | contradiction | nra].
Qed.

Lemma cauchy_factor_pos (scale x0 d : R) :
  scale <> 0 -> 1 <= 1 + (x0 + - d) ^ 2 / scale ^ 2.
Proof.
  intros Hs.
  pose proof (sqr_pos_of_neq scale Hs) as H2.
  pose proof (pow2_ge_0 (x0 + - d)) as H1.
  assert (H3 : 0 <= (x0 + - d) ^ 2 / scale ^ 2).
  { apply Rmult_le_pos; [exact H1 |]. left. apply Rinv_0_lt_compat, H2. }
  lra.
Qed.

Lemma cauchy_prod_fins (data : list R) (scale x0 : R) :
  scale <> 0 ->
  cauchy_prod (fins data) (fpow (Fin scale) 2) (Fin x0) =
  Fin (cauchy_l data scale x0).
Proof.
  intros Hs. unfold cauchy_prod, cauchy_l.
  rewrite <- np_prod_fins. f_equal.
  unfold fins. rewrite !map_map. apply map_ext. intros d.
  cbn [fsub fneg fadd fpow].
  rewrite fdiv_fin by (apply Rgt_not_eq, sqr_pos_of_neq, Hs). cbn [fadd].
  apply fdiv_fin. pose proof (cauchy_factor_pos scale x0 d Hs). lra.
Qed.

Lemma cauchy_like_fins (data xs : list R) (scale : R) :
  scale <> 0 ->
  cauchy_like (fins data) (Vector (fins xs)) (Fin scale) =
  Ok (Vector (fins (map (cauchy_l data scale) xs))).
Proof.
  intros Hs. unfold cauchy_like. do 2 f_equal.
  unfold fins at 2 3. rewrite !map_map. apply map_ext. intros x.
  apply cauchy_prod_fins, Hs.
Qed.

Lemma cauchy_l_range (data : list R) (scale x0 : R) :
  scale <> 0 -> 0 < cauchy_l data scale x0 <= 1.
Proof.
  intros Hs. unfold cauchy_l, rprod.
  induction data as [| d data IH]; cbn [map fold_right].
  - lra.
  - pose proof (cauchy_factor_pos scale x0 d Hs) as Hf.
    set (q := 1 + (x0 + - d) ^ 2 / scale ^ 2) in *.
    assert (Hq : 0 < 1 / q <= 1).
    { split.
      - apply Rdiv_lt_0_compat; lra.
      - apply (Rmult_le_reg_r q); [lra |].
        unfold Rdiv. rewrite Rmult_assoc, Rinv_l; lra. }
    destruct IH as [IH1 IH2], Hq as [Hq1 Hq2]. split.
    + apply Rmult_lt_0_compat; assumption.
    + apply Rle_trans with (1 * 1); [apply Rmult_le_compat; lra | lra].
Qed.

Lemma norm_l_pos (data : list R) (sig mu : R) : 0 < norm_l data sig mu.
Proof. unfold norm_l. apply exp_pos. Qed.

Lemma poisson_l_nonneg (n : nat) (T r : R) :
  0 <= r * T -> 0 <= poisson_l n T r.
Proof.
  intros H. unfold poisson_l.
  apply Rmult_le_pos; [apply pow_le, H | left; apply exp_pos].
Qed.

Lemma poisson_l_pos (n : nat) (T r : R) :
  0 < r * T -> 0 < poisson_l n T r.
Proof.
  intros H. unfold poisson_l.
  apply Rmult_lt_0_compat; [apply pow_lt, H | apply exp_pos].
Qed.

End Evaluators.

(** ** Shape of the Poisson likelihood *)

Section PoissonShape.
Import NP RealSide Notebook.

Lemma pow_lt_strict (x y : R) (n : nat) :
  0 <= x < y -> (0 < n)%nat -> x ^ n < y ^ n.
Proof.
  intros [Hx Hxy] Hn. induction n as [| n IH]; [lia |].
  destruct n as [| n].
  - simpl. lra.
  - assert (IH' : x ^ S n < y ^ S n) by (apply IH; lia).
    assert (H0 : 0 <= x ^ S n) by (apply pow_le; exact Hx).
    change (x ^ S (S n)) with (x * x ^ S n).
    change (y ^ S (S n)) with (y * y ^ S n).
    nra.
Qed.

Lemma exp_pow_nat (x : R) (n : nat) : exp x ^ n = exp (INR n * x).
Proof.
  induction n as [| n IH].
  - simpl. rewrite Rmult_0_l, exp_0. reflexivity.
  - rewrite S_INR. change (exp x ^ S n) with (exp x * exp x ^ n).
    rewrite IH, <- exp_plus. f_equal. lra.
Qed.

(** [x^n * exp(-x)] rises strictly up to [x = n]. *)
Lemma gamma_kernel_increasing (n : nat) (a b : R) :
  (0 < n)%nat -> 0 <= a < b -> b <= INR n ->
  a ^ n * exp (- a) < b ^ n * exp (- b).
Proof.
  intros Hn [Ha Hab] Hb.
  assert (Hbpos : 0 < b) by lra.
  set (t := (b - a) / b).
  assert (Ht : 0 < t) by (apply Rdiv_lt_0_compat; lra).
  assert (Hratio : a / b = 1 + - t) by (unfold t; field; lra).
  assert (H1 : a / b < exp (- t)).
  { rewrite Hratio. apply exp_ineq1. lra. }
  assert (H2 : (a / b) ^ n < exp (- t) ^ n).
  { apply pow_lt_strict; [| exact Hn]. split; [| exact H1].
    apply Rmult_le_pos; [exact Ha | left; apply Rinv_0_lt_compat, Hbpos]. }
  rewrite exp_pow_nat in H2.
  assert (H3 : exp (INR n * - t) <= exp (a - b)).
  { apply exp_le_mono.
    assert (Hbt : b * t = b - a) by (unfold t; field; lra).
    nra. }
  assert (H4 : a ^ n = (a / b) ^ n * b ^ n).
  { rewrite <- Rpow_mult_distr. f_equal. field. lra. }
  assert (Hbn : 0 < b ^ n) by (apply pow_lt, Hbpos).
  assert (He : exp (- b) = exp (a - b) * exp (- a)).
  { rewrite <- exp_plus. f_equal. lra. }
  rewrite H4, He.
  pose proof (exp_pos (- a)) as Hea.
  assert (H5 : (a / b) ^ n < exp (a - b)) by lra.
  assert (H6 : (a / b) ^ n * (b ^ n * exp (- a))
               < exp (a - b) * (b ^ n * exp (- a))).
  { apply Rmult_lt_compat_r; [apply Rmult_lt_0_compat; assumption | exact H5]. }
  lra.
Qed.

(** [x^n * exp(-x)] falls strictly from [x = n] on. *)
Lemma gamma_kernel_decreasing (n : nat) (a b : R) :
  (0 < n)%nat -> INR n <= a -> a < b ->
  b ^ n * exp (- b) < a ^ n * exp (- a).
Proof.
  intros Hn Hna Hab.
  assert (Hnpos : 0 < INR n) by (apply lt_0_INR, Hn).
  assert (Hapos : 0 < a) by lra.
  set (s := (b - a) / a).
  assert (Hs : 0 < s) by (apply Rdiv_lt_0_compat; lra).
  assert (Hratio : b / a = 1 + s) by (unfold s; field; lra).
  assert (H1 : b / a < exp s).
  { rewrite Hratio. apply exp_ineq1. lra. }
  assert (H2 : (b / a) ^ n < exp s ^ n).
  { apply pow_lt_strict; [| exact Hn]. split; [| exact H1].
    rewrite Hratio. lra. }
  rewrite exp_pow_nat in H2.
  assert (H3 : exp (INR n * s) <= exp (b - a)).
  { apply exp_le_mono.
    assert (Has : a * s = b - a) by (unfold s; field; lra).
    nra. }
  assert (H4 : b ^ n = (b / a) ^ n * a ^ n).
  { rewrite <- Rpow_mult_distr. f_equal. field. lra. }
  assert (Han : 0 < a ^ n) by (apply pow_lt, Hapos).
  assert (He : exp (- a) = exp (b - a) * exp (- b)).
  { rewrite <- exp_plus. f_equal. lra. }
  rewrite H4, He.
  pose proof (exp_pos (- b)) as Heb.
  assert (H5 : (b / a) ^ n < exp (b - a)) by lra.
  assert (H6 : (b / a) ^ n * (a ^ n * exp (- b))
               < exp (b - a) * (a ^ n * exp (- b))).
  { apply Rmult_lt_compat_r; [apply Rmult_lt_0_compat; assumption | exact H5]. }
  lra.
Qed.

(** C6.  For a count [n > 0] and an exposure [T > 0] the Poisson
    likelihood that the notebook evaluates, [(r*T)**n * exp(-r*T)], is
    strictly increasing in the rate on [0, n/T], strictly decreasing on
    [n/T, infinity), and so takes its largest value on [r >= 0] only at
    [r = n/T]. *)
Theorem poisson_like_unimodal (n : nat) (T : R) :
  (0 < n)%nat -> 0 < T ->
  (forall rs : list R,
      like n (rtvals (fins rs) (Fin T)) = fins (map (poisson_l n T) rs))
  /\ (forall a b : R,
         0 <= a < b -> b <= INR n / T -> poisson_l n T a < poisson_l n T b)
  /\ (forall a b : R,
         INR n / T <= a -> a < b -> poisson_l n T b < poisson_l n T a)
  /\ (forall r : R,
         0 <= r -> r <> INR n / T ->
         poisson_l n T r < poisson_l n T (INR n / T)).
Proof.
  intros Hn HT.
  assert (Hinc : forall a b : R,
             0 <= a < b -> b <= INR n / T ->
             poisson_l n T a < poisson_l n T b).
  { intros a b [Ha Hab] Hb. unfold poisson_l.
    apply gamma_kernel_increasing; [exact Hn | split; nra |].
    apply (Rmult_le_compat_r T) in Hb; [| lra].
    unfold Rdiv in Hb. rewrite Rmult_assoc, Rinv_l, Rmult_1_r in Hb; lra. }
  assert (Hdec : forall a b : R,
             INR n / T <= a -> a < b ->
             poisson_l n T b < poisson_l n T a).
  { intros a b Ha Hab. unfold poisson_l.
    apply gamma_kernel_decreasing; [exact Hn | | nra].
    apply (Rmult_le_compat_r T) in Ha; [| lra].
    unfold Rdiv in Ha. rewrite Rmult_assoc, Rinv_l, Rmult_1_r in Ha; lra. }
  split; [intros rs; apply like_fins |].
  split; [exact Hinc |]. split; [exact Hdec |].
  intros r Hr Hne.
  destruct (Rtotal_order r (INR n / T)) as [Hlt | [Heq | Hgt]].
  - apply Hinc; [split; assumption | lra].
  - contradiction.
  - apply Hdec; [lra | exact Hgt].
Qed.

Lemma poisson_like_unimodal_witness :
  poisson_l 16 2 1 < poisson_l 16 2 (INR 16 / 2).
Proof.
  assert (Hn : (0 < 16)%nat) by lia.
  assert (HT : 0 < 2) by lra.
  destruct (poisson_like_unimodal 16 2 Hn HT) as (_ & _ & _ & Hmode).
  apply Hmode; [lra |].
  replace (INR 16) with 16 by (rewrite INR_IZR_INZ; reflexivity). lra.
Defined.

End PoissonShape.

(** ** The posterior on finite operands *)

Section Posterior.
Import NP RealSide Notebook.

Lemma numer_fins (a b : list R) :
  length a = length b ->
  numer (fins a) (fins b) = Ok (fins (rmul2 a b)).
Proof.
  intros Hlen. unfold numer, broadcast2, fins.
  rewrite !length_map, Hlen, Nat.eqb_refl. f_equal.
  unfold rmul2. rewrite map_map.
  revert b Hlen. induction a as [| x a IH]; intros [| y b] Hlen;
    try discriminate; [reflexivity |].
  simpl. f_equal. apply IH. simpl in Hlen. lia.
Qed.

Lemma length_rmul2 (a b : list R) :
  length a = length b -> length (rmul2 a b) = length a.
Proof.
  intros H. unfold rmul2. rewrite length_map, length_combine. lia.
Qed.

Lemma post_pdf_fins (prior likelihood : list R) (d : R) :
  length prior = length likelihood ->
  rtrapz (rmul2 prior likelihood) d <> 0 ->
  post_pdf (fins prior) (fins likelihood) (Fin d) =
  Ok (fins (map (fun x => x / rtrapz (rmul2 prior likelihood) d)
                (rmul2 prior likelihood))).
Proof.
  intros Hlen HZ. unfold post_pdf. rewrite numer_fins by exact Hlen.
  cbn [bind]. unfold denom. rewrite trapz_fins. f_equal.
  unfold fins. rewrite !map_map. apply map_ext. intros x.
  apply fdiv_fin, HZ.
Qed.

Lemma prior_pdf_fins (xs : list R) (pl pu : R) :
  pl <> pu ->
  prior_pdf (fins xs) (Fin pl) (Fin pu) =
  fins (map (fun _ => 1 / (pu + - pl)) xs).
Proof.
  intros H. unfold prior_pdf, ones_like, fins. rewrite !map_map.
  apply map_ext. intros _. cbn [fsub fneg fadd]. apply fdiv_fin. lra.
Qed.

Lemma rsum_nonneg (l : list R) : Forall (fun x => 0 <= x) l -> 0 <= rsum l.
Proof.
  unfold rsum. induction 1 as [| x l Hx _ IH]; simpl; lra.
Qed.

Lemma pairs_Forall {A : Type} (P : A -> Prop) (y : list A) :
  Forall P y -> Forall (fun p => P (fst p) /\ P (snd p)) (pairs y).
Proof.
  induction y as [| a [| b t] IH]; intros H; try constructor.
  - inversion H as [| ? ? Ha Ht]; subst.
    inversion Ht as [| ? ? Hb _]; subst. simpl. auto.
  - apply IH. inversion H; assumption.
Qed.

Lemma rtrapz_nonneg (y : list R) (d : R) :
  Forall (fun x => 0 <= x) y -> 0 <= d -> 0 <= rtrapz y d.
Proof.
  intros Hy Hd. unfold rtrapz. apply rsum_nonneg.
  rewrite Forall_map. eapply Forall_impl; [apply pairs_Forall, Hy |].
  intros [b a] [Hb Ha]. simpl in *. nra.
Qed.

Lemma rtrapz_cons2 (a b : R) (t : list R) (d : R) :
  rtrapz (a :: b :: t) d = d * (b + a) / 2 + rtrapz (b :: t) d.
Proof. reflexivity. Qed.

(** One strictly positive sample among non-negative ones makes the
    trapezoidal sum strictly positive, on two samples or more. *)
Lemma rtrapz_pos (y : list R) (d : R) :
  (2 <= length y)%nat ->
  Forall (fun x => 0 <= x) y -> Exists (fun x => 0 < x) y -> 0 < d ->
  0 < rtrapz y d.
Proof.
  induction y as [| a [| b t] IH]; intros Hlen Hy He Hd;
    try (simpl in Hlen; lia).
  rewrite rtrapz_cons2.
  inversion Hy as [| ? ? Ha Hy']; subst.
  inversion Hy' as [| ? ? Hb Hy'']; subst.
  assert (Hrest : 0 <= rtrapz (b :: t) d).
  { apply rtrapz_nonneg; [exact Hy' | lra]. }
  inversion He as [? ? Hpa | ? ? He']; subst.
  - nra.
  - destruct t as [| c t].
    + inversion He' as [? ? Hpb | ? ? Hnil]; subst; [| inversion Hnil].
      nra.
    + assert (IH' : 0 < rtrapz (b :: c :: t) d).
      { apply IH; [simpl; lia | exact Hy' | exact He' | exact Hd]. }
      nra.
Qed.

(** A zero trapezoidal sum of non-negative samples, on two samples or
    more with a positive spacing, has only zero samples. *)
Lemma rtrapz_zero_all_zero (y : list R) (d : R) :
  (2 <= length y)%nat ->
  Forall (fun x => 0 <= x) y -> 0 < d -> rtrapz y d = 0 ->
  Forall (fun x => x = 0) y.
Proof.
  intros Hlen Hy Hd HZ.
  rewrite Forall_forall. intros x Hx.
  rewrite Forall_forall in Hy.
  destruct (Rle_lt_or_eq_dec 0 x (Hy x Hx)) as [Hpos | Heq]; [| congruence].
  exfalso.
  assert (0 < rtrapz y d); [| lra].
  apply rtrapz_pos; try assumption.
  - rewrite Forall_forall. exact Hy.
  - rewrite Exists_exists. exists x. auto.
Qed.

End Posterior.

(** ** Error behaviour of the normalizer and the evaluators *)

Section ErrorBehaviour.
Import NP RealSide Notebook.

Lemma fdiv_zero_zero : fdiv (Fin 0) (Fin 0) = NaN.
Proof. simpl. rewrite sgn_zero. reflexivity. Qed.

Lemma fdiv_NaN_r (x : npfloat) : fdiv x NaN = NaN.
Proof. destruct x; reflexivity. Qed.

(** C3, as the claim states it, fails: on an all-zero likelihood the
    normalizing constant is zero, and [post_pdf] raises nothing; it
    returns the vector of NaN that the divisions 0/0 give. *)
Lemma post_pdf_zero_constant_returns :
  numer [Fin 1; Fin 1] [Fin 0; Fin 0] = Ok (fins [1 * 0; 1 * 0])
  /\ denom (fins [1 * 0; 1 * 0]) (Fin 1) = Fin 0
  /\ post_pdf [Fin 1; Fin 1] [Fin 0; Fin 0] (Fin 1) = Ok [NaN; NaN]
  /\ forall e, post_pdf [Fin 1; Fin 1] [Fin 0; Fin 0] (Fin 1) <> Raise e.
Proof.
  assert (Hd : denom (fins [1 * 0; 1 * 0]) (Fin 1) = Fin 0).
  { unfold denom. rewrite trapz_fins. f_equal. unfold rtrapz. simpl. lra. }
  assert (Hp : post_pdf [Fin 1; Fin 1] [Fin 0; Fin 0] (Fin 1) = Ok [NaN; NaN]).
  { unfold post_pdf.
    change (numer [Fin 1; Fin 1] [Fin 0; Fin 0])
      with (@Ok (list npfloat) (fins [1 * 0; 1 * 0])).
    cbn [bind]. rewrite Hd. cbn [fins map].
    replace (1 * 0) with 0 by lra. rewrite fdiv_zero_zero. reflexivity. }
  split; [reflexivity |]. split; [exact Hd |]. split; [exact Hp |].
  intros e. rewrite Hp. discriminate.
Qed.


(** C5.  [cauchy_like] takes a scalar to a scalar and a vector to a
    vector of the same length, and [norm_like] takes a vector to a vector
    of the same length; but [norm_like] on a scalar raises [TypeError],
    its list comprehension iterating over a 0-d array, against its own
    docstring ("scalar or vector"). *)
Theorem likelihood_arity (data : list npfloat) :
  (forall x0 scale, exists v,
      cauchy_like data (Scalar x0) scale = Ok (Scalar v))
  /\ (forall xs scale, exists vs,
         cauchy_like data (Vector xs) scale = Ok (Vector vs)
         /\ length vs = length xs)
  /\ (forall mus sig, exists vs,
         norm_like data (Vector mus) sig = Ok (Vector vs)
         /\ length vs = length mus)
  /\ (forall mu sig, norm_like data (Scalar mu) sig = Raise TypeError).
Proof.
  repeat split.
  - intros x0 scale. eexists. reflexivity.
  - intros xs scale. eexists. split; [reflexivity | apply length_map].
  - intros mus sig. eexists. split; [reflexivity |].
    rewrite !length_map. reflexivity.
Qed.

End ErrorBehaviour.

(** ** Density vectors *)

Section DensityVectors.
Import NP RealSide Notebook.

Lemma positive_density (N : nat) (v : list npfloat) :
  positive_vector N v -> density_vector N v.
Proof.
  intros (rv & -> & Hlen & Hpos). exists rv. repeat split; try assumption.
  eapply Forall_impl; [exact Hpos |]. intros x Hx. simpl in Hx. lra.
Qed.

Lemma gamma1_pdf_fin (s v : R) :
  0 < s -> gamma1_pdf (Fin s) (Fin v) = Fin (gamma1_l s v).
Proof.
  intros Hs. unfold gamma1_pdf, gamma1_l. rewrite (sgn_pos s Hs).
  destruct (sgn v); reflexivity.
Qed.


Lemma gamma1_l_pos (s v : R) : 0 < s -> 0 <= v -> 0 < gamma1_l s v.
Proof.
  intros Hs Hv. unfold gamma1_l.
  assert (0 < exp (- (v / s)) / s).
  { apply Rdiv_lt_0_compat; [apply exp_pos | exact Hs]. }
  destruct (sgn v) eqn:E; try lra.
  unfold sgn in E.
  destruct (total_order_T v 0) as [[Hlt | Heq] | Hgt]; try discriminate; lra.
Qed.

Lemma rmul2_Forall2 (P Q S : R -> Prop) (a b : list R) :
  (forall x y, P x -> Q y -> S (x * y)) ->
  Forall P a -> Forall Q b -> Forall S (rmul2 a b).
Proof.
  intros HPQ Ha. revert b. unfold rmul2.
  induction Ha as [| x a Hx _ IH]; intros b Hb; [constructor |].
  destruct Hb as [| y b Hy Hb]; [constructor |].
  simpl. constructor; [apply HPQ; assumption | apply IH, Hb].
Qed.

Lemma rmul2_Exists_pos (a b : list R) :
  length a = length b ->
  Forall (fun x => 0 < x) a -> Exists (fun y => 0 < y) b ->
  Exists (fun z => 0 < z) (rmul2 a b).
Proof.
  intros Hlen Ha. revert b Hlen. unfold rmul2.
  induction Ha as [| x a Hx _ IH]; intros [| y b] Hlen He;
    try discriminate; [inversion He |].
  simpl. inversion He as [? ? Hy | ? ? Hb]; subst.
  - apply Exists_cons_hd. simpl. nra.
  - apply Exists_cons_tl. apply IH; [simpl in Hlen; lia | exact Hb].
Qed.

Lemma Exists_fins_pos (rv : list R) :
  Exists (fun x => exists r, x = Fin r /\ 0 < r) (fins rv) ->
  Exists (fun r => 0 < r) rv.
Proof.
  induction rv as [| r rv IH]; simpl; intros H; inversion H; subst.
  - destruct H1 as (r' & Hr & Hpos). injection Hr as ->.
    apply Exists_cons_hd. exact Hpos.
  - apply Exists_cons_tl. apply IH. assumption.
Qed.

(** The posterior of a positive prior and a non-negative likelihood with
    one positive sample. *)
Lemma posterior_density (prior likelihood : list R) (d : R) :
  length prior = length likelihood ->
  (2 <= length prior)%nat ->
  Forall (fun x => 0 < x) prior ->
  Forall (fun x => 0 <= x) likelihood ->
  Exists (fun x => 0 < x) likelihood ->
  0 < d ->
  exists (post : list R) (Z : R),
    Z = rtrapz (rmul2 prior likelihood) d /\ 0 < Z
    /\ numer (fins prior) (fins likelihood) = Ok (fins (rmul2 prior likelihood))
    /\ post_pdf (fins prior) (fins likelihood) (Fin d) = Ok (fins post)
    /\ length post = length prior
    /\ Forall (fun x => 0 <= x) post.
Proof.
  intros Hlen HN Hp Hl He Hd.
  assert (Hnn : Forall (fun x => 0 <= x) (rmul2 prior likelihood)).
  { apply (rmul2_Forall2 (fun x => 0 < x) (fun x => 0 <= x)); try assumption.
    intros x y Hx Hy. nra. }
  assert (HZ : 0 < rtrapz (rmul2 prior likelihood) d).
  { apply rtrapz_pos; try assumption.
    - rewrite length_rmul2 by exact Hlen. exact HN.
    - apply rmul2_Exists_pos; assumption. }
  eexists _, _. split; [reflexivity |]. split; [exact HZ |].
  split; [apply numer_fins, Hlen |].
  split; [apply post_pdf_fins; [exact Hlen | lra] |].
  split; [rewrite length_map; apply length_rmul2, Hlen |].
  rewrite Forall_map. eapply Forall_impl; [exact Hnn |].
  intros x Hx. simpl in *.
  apply Rmult_le_pos; [exact Hx | left; apply Rinv_0_lt_compat, HZ].
Qed.

Lemma spacing_fins (xs : list R) :
  (2 <= length xs)%nat -> strictly_increasing xs ->
  exists d, spacing (fins xs) = Ok (Fin d) /\ 0 < d.
Proof.
  destruct xs as [| x0 [| x1 xs]]; simpl; intros Hlen Hinc; try lia.
  exists (x1 + - x0). split; [reflexivity |].
  specialize (Hinc 0%nat 1%nat). simpl in Hinc.
  assert (x0 < x1) by (apply Hinc; lia). lra.
Qed.

End DensityVectors.

Section DensityClaims.
Import NP RealSide Notebook.

Lemma map_const_Forall {A : Type} (P : R -> Prop) (c : R) (l : list A) :
  P c -> Forall P (map (fun _ => c) l).
Proof. intros Hc. rewrite Forall_map. apply Forall_forall. auto. Qed.

Lemma flat_prior_positive (xs : list R) (pl pu : R) :
  pl < pu ->
  positive_vector (length xs) (prior_pdf (fins xs) (Fin pl) (Fin pu)).
Proof.
  intros H. exists (map (fun _ => 1 / (pu + - pl)) xs).
  split; [apply prior_pdf_fins; lra |].
  split; [apply length_map |].
  apply map_const_Forall. apply Rdiv_lt_0_compat; lra.
Qed.

Lemma cauchy_like_positive (data xs : list R) (scale : R) :
  scale <> 0 ->
  exists vs,
    cauchy_like (fins data) (Vector (fins xs)) (Fin scale) = Ok (Vector (fins vs))
    /\ length vs = length xs
    /\ Forall (fun v => 0 < v <= 1) vs.
Proof.
  intros Hs. exists (map (cauchy_l data scale) xs).
  split; [apply cauchy_like_fins, Hs |]. split; [apply length_map |].
  rewrite Forall_map. apply Forall_forall. intros x _.
  apply cauchy_l_range, Hs.
Qed.

End DensityClaims.

(** ** The posterior cells *)

Section CellRuns.
Import NP RealSide Notebook Cells.

Lemma bayes_fins (name : string) (prior likelihood : list R) (d : R)
    (ns : gmap string value) :
  length prior = length likelihood ->
  rtrapz (rmul2 prior likelihood) d <> 0 ->
  bayes name (fins prior) (fins likelihood) (Fin d) ns =
  Ok (<[name := VArray (fins (rpost prior likelihood d))]>
      (<["denom" := VFloat (Fin (rtrapz (rmul2 prior likelihood) d))]>
      (<["numer" := VArray (fins (rmul2 prior likelihood))]> ns))).
Proof.
  intros Hlen HZ. unfold bayes.
  rewrite numer_fins by exact Hlen. cbn [bind].
  rewrite post_pdf_fins by assumption. cbn [bind].
  unfold denom. rewrite trapz_fins. reflexivity.
Qed.

Lemma rv200_length : length rv200 = 200%nat.
Proof. unfold rv200. rewrite length_map, length_seq. reflexivity. Qed.

Lemma rv200_nonneg : Forall (fun r => 0 <= r) rv200.
Proof.
  unfold rv200. rewrite Forall_map. apply Forall_forall. intros i _.
  simpl. pose proof (pos_INR i). nra.
Qed.

Lemma rv200_head : exists t, rv200 = 0 * (20 / 199) :: 1 * (20 / 199)
                                      :: (1 + 1) * (20 / 199) :: t.
Proof.
  unfold rv200. change (seq 0 200) with (0%nat :: 1%nat :: 2%nat :: seq 3 197).
  eexists. reflexivity.
Qed.

Lemma poisson_like_200_exists_pos (n : nat) (T : R) :
  0 < T -> Exists (fun x => 0 < x) (map (poisson_l n T) rv200).
Proof.
  intros HT. destruct rv200_head as [t ->].
  cbn [map]. apply Exists_cons_tl, Exists_cons_hd.
  apply poisson_l_pos. lra.
Qed.

Lemma poisson_like_200_nonneg (n : nat) (T : R) :
  0 <= T -> Forall (fun x => 0 <= x) (map (poisson_l n T) rv200).
Proof.
  intros HT. rewrite Forall_map.
  eapply Forall_impl; [exact rv200_nonneg |].
  intros r Hr. simpl in Hr. apply poisson_l_nonneg. nra.
Qed.

Lemma gamma_prior_200_pos :
  Forall (fun x => 0 < x) (map (gamma1_l 10) rv200).
Proof.
  rewrite Forall_map. eapply Forall_impl; [exact rv200_nonneg |].
  intros r Hr. simpl in Hr. apply gamma1_l_pos; lra.
Qed.

(** The normalizing constant on the rate grid, for a positive prior and
    a Poisson likelihood. *)
Lemma Z200_pos (prior : list R) (n : nat) (T : R) :
  length prior = 200%nat -> Forall (fun x => 0 < x) prior -> 0 < T ->
  0 < rtrapz (rmul2 prior (map (poisson_l n T) rv200)) (20 / 199).
Proof.
  intros Hlen Hp HT.
  destruct (posterior_density prior (map (poisson_l n T) rv200) (20 / 199))
    as (post & Z & HZ & HZpos & _); try assumption.
  - lia.
  - apply poisson_like_200_nonneg. lra.
  - apply poisson_like_200_exists_pos, HT.
  - lra.
  - rewrite <- HZ. exact HZpos.
Qed.

End CellRuns.

Section CellSpecs.
Import NP RealSide Notebook Cells.

Lemma gamma_prior_fins (s : R) (rv : list R) :
  0 < s ->
  map (gamma1_pdf (Fin s)) (fins rv) = fins (map (gamma1_l s) rv).
Proof.
  intros Hs. unfold fins. rewrite !map_map. apply map_ext. intros v.
  apply gamma1_pdf_fin, Hs.
Qed.

Lemma linspace_200 : linspace (Fin 0) (Fin 20) 200 = fins rv200.
Proof. exact rvals_200. Qed.

(** What the 1st-case cell leaves in the namespace, whatever it finds. *)
Lemma cell_case1_spec (ns : gmap string value) :
  exists ns',
    cell_case1 ns = Ok ns'
    /\ ns' !! "post_pdf" =
       Some (VArray (fins (rpost (map (fun _ => 1 / (100000 + - 0)) rv200)
                                 (map (poisson_l 16 2) rv200) (20 / 199))))
    /\ ns' !! "rvals" = Some (VArray (fins rv200))
    /\ ns' !! "like" = Some (VArray (fins (map (poisson_l 16 2) rv200)))
    /\ ns' !! "dr" = Some (VFloat (Fin (20 / 199)))
    /\ ns' !! "prior_u" = Some (VFloat (Fin 100000))
    /\ ns' !! "prior_l" = Some (VFloat (Fin 0)).
Proof.
  unfold cell_case1. rewrite spacing_200. cbn [bind].
  rewrite linspace_200, prior_pdf_fins by lra. rewrite like_fins.
  rewrite bayes_fins.
  - eexists. split; [reflexivity |].
    repeat split;
      repeat (first [ rewrite lookup_insert_eq; reflexivity
                    | rewrite lookup_insert_ne by discriminate ]).
  - rewrite !length_map. reflexivity.
  - apply Rgt_not_eq, Z200_pos; [apply length_map | | lra].
    apply map_const_Forall. apply Rdiv_lt_0_compat; lra.
Qed.

(** The 2nd-case cell on a namespace that binds a finite grid, a finite
    likelihood and a finite spacing. *)
Lemma cell_case2_spec (ns : gmap string value) (rv lk : list R) (d : R) :
  ns !! "rvals" = Some (VArray (fins rv)) ->
  ns !! "like" = Some (VArray (fins lk)) ->
  ns !! "dr" = Some (VFloat (Fin d)) ->
  length rv = length lk ->
  rtrapz (rmul2 (map (gamma1_l 10) rv) lk) d <> 0 ->
  exists ns',
    cell_case2 ns = Ok ns'
    /\ ns' !! "post_pdf2" =
       Some (VArray (fins (rpost (map (gamma1_l 10) rv) lk d)))
    /\ (forall k : string,
           k <> "scale" -> k <> "prior" -> k <> "numer" -> k <> "denom" ->
           k <> "post_pdf2" -> ns' !! k = ns !! k).
Proof.
  intros Hrv Hlk Hd Hlen HZ. unfold cell_case2, get_array, get_float.
  rewrite !lookup_insert_ne by discriminate. rewrite Hrv, Hlk, Hd.
  cbn [bind]. cbv zeta. rewrite gamma_prior_fins by lra.
  rewrite numer_fins by (rewrite length_map; exact Hlen). cbn [bind].
  rewrite bayes_fins; [| rewrite length_map; exact Hlen | exact HZ].
  eexists. split; [reflexivity |]. split.
  - rewrite lookup_insert_eq. reflexivity.
  - intros k H1 H2 H3 H4 H5.
    rewrite !lookup_insert_ne by congruence. reflexivity.
Qed.

(** The 3rd-case cell likewise. *)
Lemma cell_case3_spec (ns : gmap string value) (rv : list R) (pl pu d : R) :
  ns !! "rvals" = Some (VArray (fins rv)) ->
  ns !! "prior_u" = Some (VFloat (Fin pu)) ->
  ns !! "prior_l" = Some (VFloat (Fin pl)) ->
  ns !! "dr" = Some (VFloat (Fin d)) ->
  pl <> pu ->
  rtrapz (rmul2 (map (fun _ => 1 / (pu + - pl)) rv)
                (map (poisson_l 80 10) rv)) d <> 0 ->
  exists ns',
    cell_case3 ns = Ok ns'
    /\ ns' !! "post_pdf3" =
       Some (VArray (fins (rpost (map (fun _ => 1 / (pu + - pl)) rv)
                                 (map (poisson_l 80 10) rv) d)))
    /\ ns' !! "like" = Some (VArray (fins (map (poisson_l 80 10) rv)))
    /\ (forall k : string,
           k <> "T" -> k <> "n" -> k <> "rtvals" -> k <> "prior_pdf" ->
           k <> "like" -> k <> "numer" -> k <> "denom" ->
           k <> "post_pdf3" -> ns' !! k = ns !! k).
Proof.
  intros Hrv Hpu Hpl Hd Hne HZ. unfold cell_case3, get_array, get_float.
  rewrite !lookup_insert_ne by discriminate. rewrite Hrv. cbn [bind].
  rewrite !lookup_insert_ne by discriminate. rewrite Hpu, Hpl. cbn [bind].
  rewrite !lookup_insert_ne by discriminate. rewrite Hd. cbn [bind].
  rewrite prior_pdf_fins by exact Hne. rewrite like_fins.
  rewrite bayes_fins; [| rewrite !length_map; reflexivity | exact HZ].
  eexists. split; [reflexivity |]. split; [| split].
  - rewrite lookup_insert_eq. reflexivity.
  - rewrite !lookup_insert_ne by discriminate.
    rewrite lookup_insert_eq. reflexivity.
  - intros k H1 H2 H3 H4 H5 H6 H7 H8.
    rewrite !lookup_insert_ne by congruence. reflexivity.
Qed.

End CellSpecs.

Section StaleLikelihood.
Import NP RealSide Notebook Cells.

Lemma rmul2_map {A : Type} (f g : A -> R) (l : list A) :
  rmul2 (map f l) (map g l) = map (fun x => f x * g x) l.
Proof.
  unfold rmul2. induction l as [| x l IH]; [reflexivity |].
  simpl. f_equal. exact IH.
Qed.

Lemma fins_inj (a b : list R) : fins a = fins b -> a = b.
Proof.
  revert b. induction a as [| x a IH]; intros [| y b] H;
    try discriminate; [reflexivity |].
  simpl in H. injection H as Hx Hab. f_equal; auto.
Qed.

(** Between two rates [h] and [2h] the likelihood of 80 counts in 10
    seconds grows by a larger factor than that of 16 counts in 2. *)
Lemma poisson_ratio_gap (h : R) :
  0 < h -> 8 * h <= 1 ->
  poisson_l 16 2 (2 * h) * poisson_l 80 10 h
  < poisson_l 16 2 h * poisson_l 80 10 (2 * h).
Proof.
  intros Hh H8. unfold poisson_l.
  replace (2 * h * 2) with (2 * (h * 2)) by lra.
  replace (2 * h * 10) with (2 * (h * 10)) by lra.
  rewrite !Rpow_mult_distr.
  set (u := h ^ 16 * 2 ^ 16). set (v := h ^ 80 * 10 ^ 80).
  assert (Hu : 0 < u) by (apply Rmult_lt_0_compat; apply pow_lt; lra).
  assert (Hv : 0 < v) by (apply Rmult_lt_0_compat; apply pow_lt; lra).
  assert (E1 : exp (- (2 * (h * 2))) * exp (- (h * 10)) = exp (- (14 * h))).
  { rewrite <- exp_plus. f_equal. lra. }
  assert (E2 : exp (- (h * 2)) * exp (- (2 * (h * 10)))
               = exp (- (14 * h)) * exp (- (8 * h))).
  { rewrite <- !exp_plus. f_equal. lra. }
  assert (H64 : 2 ^ 80 = 2 ^ 16 * 2 ^ 64) by (rewrite <- pow_add; reflexivity).
  assert (Hp16 : 0 < 2 ^ 16) by (apply pow_lt; lra).
  assert (Hbig : 3 < 2 ^ 64).
  { change 64%nat with (2 + 62)%nat. rewrite pow_add.
    assert (1 <= 2 ^ 62) by (apply pow_R1_Rle; lra).
    simpl (2 ^ 2). lra. }
  assert (He : 1 < 2 ^ 64 * exp (- (8 * h))).
  { assert (Hle : exp (8 * h) <= 3).
    { apply Rle_trans with (exp 1); [apply exp_le_mono, H8 | apply exp_le_3]. }
    pose proof (exp_pos (- (8 * h))) as Hpos.
    assert (Hinv : exp (8 * h) * exp (- (8 * h)) = 1).
    { rewrite <- exp_plus. replace (8 * h + - (8 * h)) with 0 by lra.
      apply exp_0. }
    pose proof (exp_pos (8 * h)) as Hpos'.
    nra. }
  pose proof (exp_pos (- (14 * h))) as H14.
  replace (2 ^ 16 * u * exp (- (2 * (h * 2))) * (v * exp (- (h * 10))))
    with (2 ^ 16 * u * v * (exp (- (2 * (h * 2))) * exp (- (h * 10))))
    by ring.
  replace (u * exp (- (h * 2)) * (2 ^ 80 * v * exp (- (2 * (h * 10)))))
    with (2 ^ 16 * u * v * (2 ^ 64 * (exp (- (h * 2)) * exp (- (2 * (h * 10))))))
    by (rewrite H64; ring).
  rewrite E1, E2.
  apply Rmult_lt_compat_l.
  - apply Rmult_lt_0_compat; [apply Rmult_lt_0_compat |]; assumption.
  - nra.
Qed.

Lemma In_rv200_1_2 : In (20 / 199) rv200 /\ In (2 * (20 / 199)) rv200.
Proof.
  destruct rv200_head as [t ->]. split.
  - right. left. lra.
  - right. right. left. lra.
Qed.

(** The posteriors of the exponential prior with the two likelihoods
    differ. *)
Lemma stale_like_changes_posterior :
  rpost (map (gamma1_l 10) rv200) (map (poisson_l 16 2) rv200) (20 / 199)
  <> rpost (map (gamma1_l 10) rv200) (map (poisson_l 80 10) rv200) (20 / 199).
Proof.
  unfold rpost. rewrite !rmul2_map.
  set (Z1 := rtrapz _ _). set (Z2 := rtrapz _ _).
  assert (HZ1 : 0 < Z1).
  { unfold Z1. rewrite <- rmul2_map.
    apply Z200_pos; [apply length_map | apply gamma_prior_200_pos | lra]. }
  assert (HZ2 : 0 < Z2).
  { unfold Z2. rewrite <- rmul2_map.
    apply Z200_pos; [apply length_map | apply gamma_prior_200_pos | lra]. }
  rewrite !map_map. intros Heq.
  pose proof (ext_in_map Heq) as Hpt. cbv beta in Hpt.
  destruct In_rv200_1_2 as [Hi1 Hi2].
  pose proof (Hpt _ Hi1) as E1. pose proof (Hpt _ Hi2) as E2.
  set (h := 20 / 199) in *.
  assert (Hg1 : 0 < gamma1_l 10 h) by (apply gamma1_l_pos; unfold h; lra).
  assert (Hg2 : 0 < gamma1_l 10 (2 * h)) by (apply gamma1_l_pos; unfold h; lra).
  pose proof (poisson_ratio_gap h) as Hgap.
  assert (Hh : 0 < h) by (unfold h; lra).
  assert (H8 : 8 * h <= 1) by (unfold h; lra).
  specialize (Hgap Hh H8).
  set (a := poisson_l 16 2 h) in *. set (b := poisson_l 80 10 h) in *.
  set (c := poisson_l 16 2 (2 * h)) in *.
  set (e := poisson_l 80 10 (2 * h)) in *.
  set (g1 := gamma1_l 10 h) in *. set (g2 := gamma1_l 10 (2 * h)) in *.
  assert (F1 : a * Z2 = b * Z1).
  { apply (Rmult_eq_reg_l g1); [| lra].
    apply (f_equal (fun x => x * (Z1 * Z2))) in E1.
    replace (g1 * a / Z1 * (Z1 * Z2)) with (g1 * (a * Z2)) in E1
      by (field; lra).
    replace (g1 * b / Z2 * (Z1 * Z2)) with (g1 * (b * Z1)) in E1
      by (field; lra).
    exact E1. }
  assert (F2 : c * Z2 = e * Z1).
  { apply (Rmult_eq_reg_l g2); [| lra].
    apply (f_equal (fun x => x * (Z1 * Z2))) in E2.
    replace (g2 * c / Z1 * (Z1 * Z2)) with (g2 * (c * Z2)) in E2
      by (field; lra).
    replace (g2 * e / Z2 * (Z1 * Z2)) with (g2 * (e * Z1)) in E2
      by (field; lra).
    exact E2. }
  assert (F3 : (c * b) * (Z1 * Z2) = (a * e) * (Z1 * Z2)).
  { replace (c * b * (Z1 * Z2)) with ((c * Z2) * (b * Z1)) by ring.
    replace (a * e * (Z1 * Z2)) with ((a * Z2) * (e * Z1)) by ring.
    rewrite F1, F2. ring. }
  apply Rmult_eq_reg_r in F3; [lra |].
  apply Rgt_not_eq. apply Rmult_lt_0_compat; assumption.
Qed.

End StaleLikelihood.

Section Purity.
Import NP RealSide Notebook Cells.

(** The likelihood is an input of the 2nd-case cell: the cell takes it
    from the name [like] of the namespace.  Run after the 1st case it
    stores one posterior in [post_pdf2]; run again once the 3rd case has
    rebound [like], it stores another. *)
Lemma rerun_case2_gives_other_posterior :
  exists (ns3 ns4 : gmap string value) (p p' : list npfloat),
    run [cell_case1; cell_case2; cell_case3] ∅ = Ok ns3
    /\ ns3 !! "post_pdf2" = Some (VArray p)
    /\ cell_case2 ns3 = Ok ns4
    /\ ns4 !! "post_pdf2" = Some (VArray p')
    /\ p <> p'.
Proof.
  destruct (cell_case1_spec ∅) as (ns1 & H1 & _ & Hrv1 & Hlk1 & Hd1 & Hu1 & Hl1).
  assert (Hg : Forall (fun x => 0 < x) (map (gamma1_l 10) rv200))
    by exact gamma_prior_200_pos.
  destruct (cell_case2_spec ns1 rv200 (map (poisson_l 16 2) rv200) (20 / 199))
    as (ns2 & H2 & Hp2 & Hfr2); try assumption.
  { rewrite length_map. reflexivity. }
  { apply Rgt_not_eq, Z200_pos; [apply length_map | exact Hg | lra]. }
  destruct (cell_case3_spec ns2 rv200 0 100000 (20 / 199))
    as (ns3 & H3 & _ & Hlk3 & Hfr3).
  { rewrite Hfr2 by discriminate. exact Hrv1. }
  { rewrite Hfr2 by discriminate. exact Hu1. }
  { rewrite Hfr2 by discriminate. exact Hl1. }
  { rewrite Hfr2 by discriminate. exact Hd1. }
  { lra. }
  { apply Rgt_not_eq, Z200_pos; [apply length_map | | lra].
    apply map_const_Forall. apply Rdiv_lt_0_compat; lra. }
  destruct (cell_case2_spec ns3 rv200 (map (poisson_l 80 10) rv200) (20 / 199))
    as (ns4 & H4 & Hp4 & _).
  { rewrite Hfr3, Hfr2 by discriminate. exact Hrv1. }
  { exact Hlk3. }
  { rewrite Hfr3, Hfr2 by discriminate. exact Hd1. }
  { rewrite length_map. reflexivity. }
  { apply Rgt_not_eq, Z200_pos; [apply length_map | exact Hg | lra]. }
  exists ns3, ns4. eexists _, _.
  split; [cbn [run]; rewrite H1; cbn [bind]; rewrite H2; cbn [bind];
          rewrite H3; reflexivity |].
  split; [rewrite Hfr3 by discriminate; exact Hp2 |].
  split; [exact H4 |]. split; [exact Hp4 |].
  intros Heq. apply fins_inj in Heq.
  exact (stale_like_changes_posterior Heq).
Qed.

Lemma posterior_of_bayes (name : string) (prior likelihood : list npfloat)
    (dr : npfloat) (ns : gmap string value) :
  posterior_of name (bayes name prior likelihood dr ns) =
  bind (post_pdf prior likelihood dr) (fun post => Ok (Some (VArray post))).
Proof.
  unfold posterior_of, bayes, post_pdf.
  destruct (numer prior likelihood) as [nm | e]; cbn [bind]; [| reflexivity].
  rewrite lookup_insert_eq. reflexivity.
Qed.

Ltac strip_known k :=
  repeat match goal with
         | H : ?i <> k |- _ => rewrite !(lookup_insert_ne _ i k) by exact H
         end.

Ltac same_inserts :=
  f_equal; apply map_eq;
  let k := fresh "k" in
  intros k;
  repeat (strip_known k;
          match goal with
          | |- context [<[?i := _]> _ !! k] =>
              destruct (decide (i = k)) as [<- | ?];
              [ by rewrite !lookup_insert_eq | ]
          end);
  strip_known k; reflexivity.

Lemma cell_case1_idem (ns ns' : gmap string value) :
  cell_case1 ns = Ok ns' -> cell_case1 ns' = Ok ns'.
Proof.
  unfold cell_case1. cbv zeta.
  set (rvals := linspace _ _ _). clearbody rvals.
  set (lk := like _ _). clearbody lk.
  set (pp := prior_pdf _ _ _). clearbody pp.
  set (rtv := rtvals _ _). clearbody rtv.
  destruct (spacing rvals) as [dr | e]; cbn [bind]; [| discriminate].
  unfold bayes. destruct (numer _ _) as [nm | e] eqn:Hnm; cbn [bind];
    [| discriminate].
  destruct (post_pdf _ _ _) as [post | e] eqn:Hpost; cbn [bind];
    [| discriminate].
  intros H. injection H as <-. same_inserts.
Qed.

Lemma cell_case2_idem (ns ns' : gmap string value) :
  cell_case2 ns = Ok ns' -> cell_case2 ns' = Ok ns'.
Proof.
  unfold cell_case2, get_array, get_float.
  rewrite !lookup_insert_ne by discriminate.
  destruct (ns !! "rvals") as [[| | rv |] |] eqn:Hrv; cbn [bind];
    try discriminate.
  destruct (ns !! "like") as [[| | lk |] |] eqn:Hlk; cbn [bind];
    try discriminate.
  cbv zeta. destruct (numer _ _) as [nm | e] eqn:Hnm; cbn [bind];
    [| discriminate].
  destruct (ns !! "dr") as [[dr | | |] |] eqn:Hdr; cbn [bind];
    try discriminate.
  unfold bayes. rewrite Hnm. cbn [bind].
  destruct (post_pdf _ _ _) as [post | e] eqn:Hpost; cbn [bind];
    [| discriminate].
  intros H. injection H as <-.
  rewrite !lookup_insert_ne by discriminate. rewrite Hrv, Hlk, Hdr.
  cbn [bind]. rewrite Hnm. cbn [bind]. rewrite Hpost. cbn [bind].
  same_inserts.
Qed.

Lemma cell_case3_idem (ns ns' : gmap string value) :
  cell_case3 ns = Ok ns' -> cell_case3 ns' = Ok ns'.
Proof.
  unfold cell_case3, get_array, get_float.
  rewrite !lookup_insert_ne by discriminate.
  destruct (ns !! "rvals") as [[| | rv |] |] eqn:Hrv; cbn [bind];
    try discriminate.
  rewrite !lookup_insert_ne by discriminate.
  destruct (ns !! "prior_u") as [[pu | | |] |] eqn:Hpu; cbn [bind];
    try discriminate.
  destruct (ns !! "prior_l") as [[pl | | |] |] eqn:Hpl; cbn [bind];
    try discriminate.
  rewrite !lookup_insert_ne by discriminate.
  destruct (ns !! "dr") as [[dr | | |] |] eqn:Hdr; cbn [bind];
    try discriminate.
  unfold bayes. destruct (numer _ _) as [nm | e] eqn:Hnm; cbn [bind];
    [| discriminate].
  destruct (post_pdf _ _ _) as [post | e] eqn:Hpost; cbn [bind];
    [| discriminate].
  intros H. injection H as <-.
  rewrite !lookup_insert_ne by discriminate. rewrite Hrv. cbn [bind].
  rewrite !lookup_insert_ne by discriminate. rewrite Hpu, Hpl. cbn [bind].
  rewrite !lookup_insert_ne by discriminate. rewrite Hdr. cbn [bind].
  rewrite Hnm. cbn [bind]. rewrite Hpost. cbn [bind]. same_inserts.
Qed.

Lemma cell_case4_idem (ns ns' : gmap string value) :
  cell_case4 ns = Ok ns' -> cell_case4 ns' = Ok ns'.
Proof.
  unfold cell_case4, get_array, get_float, get_gamma1.
  destruct (ns !! "prior") as [[| | | sc] |] eqn:Hpr; cbn [bind];
    try discriminate.
  destruct (ns !! "rvals") as [[| | rv |] |] eqn:Hrv; cbn [bind];
    try discriminate.
  destruct (ns !! "like") as [[| | lk |] |] eqn:Hlk; cbn [bind];
    try discriminate.
  cbv zeta. destruct (numer _ _) as [nm | e] eqn:Hnm; cbn [bind];
    [| discriminate].
  destruct (ns !! "dr") as [[dr | | |] |] eqn:Hdr; cbn [bind];
    try discriminate.
  unfold bayes. rewrite Hnm. cbn [bind].
  destruct (post_pdf _ _ _) as [post | e] eqn:Hpost; cbn [bind];
    [| discriminate].
  intros H. injection H as <-.
  rewrite !lookup_insert_ne by discriminate. rewrite Hpr, Hrv, Hlk, Hdr.
  cbn [bind]. rewrite Hnm. cbn [bind]. rewrite Hpost. cbn [bind].
  same_inserts.
Qed.

Lemma cell_case1_reads (ns1 ns2 : gmap string value) :
  posterior_of "post_pdf" (cell_case1 ns1)
  = posterior_of "post_pdf" (cell_case1 ns2).
Proof.
  unfold cell_case1. cbv zeta.
  set (rvals := linspace _ _ _). clearbody rvals.
  set (lk := like _ _). clearbody lk.
  set (pp := prior_pdf _ _ _). clearbody pp.
  set (rtv := rtvals _ _). clearbody rtv.
  destruct (spacing rvals) as [dr | e]; cbn [bind]; [| reflexivity].
  rewrite !posterior_of_bayes. reflexivity.
Qed.

Lemma cell_case2_reads (ns1 ns2 : gmap string value) :
  ns1 !! "rvals" = ns2 !! "rvals" ->
  ns1 !! "like" = ns2 !! "like" ->
  ns1 !! "dr" = ns2 !! "dr" ->
  posterior_of "post_pdf2" (cell_case2 ns1)
  = posterior_of "post_pdf2" (cell_case2 ns2).
Proof.
  intros Hrv Hlk Hdr. unfold cell_case2, get_array, get_float.
  rewrite !lookup_insert_ne by discriminate. rewrite Hrv, Hlk, Hdr.
  destruct (ns2 !! "rvals") as [[| | rv |] |]; cbn [bind]; try reflexivity.
  destruct (ns2 !! "like") as [[| | lk |] |]; cbn [bind]; try reflexivity.
  cbv zeta. destruct (numer _ _) as [nm | e]; cbn [bind]; try reflexivity.
  destruct (ns2 !! "dr") as [[dr | | |] |]; cbn [bind]; try reflexivity.
  rewrite !posterior_of_bayes. reflexivity.
Qed.

Lemma cell_case3_reads (ns1 ns2 : gmap string value) :
  ns1 !! "rvals" = ns2 !! "rvals" ->
  ns1 !! "prior_u" = ns2 !! "prior_u" ->
  ns1 !! "prior_l" = ns2 !! "prior_l" ->
  ns1 !! "dr" = ns2 !! "dr" ->
  posterior_of "post_pdf3" (cell_case3 ns1)
  = posterior_of "post_pdf3" (cell_case3 ns2).
Proof.
  intros Hrv Hpu Hpl Hdr. unfold cell_case3, get_array, get_float.
  rewrite !lookup_insert_ne by discriminate. rewrite Hrv.
  destruct (ns2 !! "rvals") as [[| | rv |] |]; cbn [bind]; try reflexivity.
  rewrite !lookup_insert_ne by discriminate. rewrite Hpu, Hpl.
  destruct (ns2 !! "prior_u") as [[pu | | |] |]; cbn [bind]; try reflexivity.
  destruct (ns2 !! "prior_l") as [[pl | | |] |]; cbn [bind]; try reflexivity.
  rewrite !lookup_insert_ne by discriminate. rewrite Hdr.
  destruct (ns2 !! "dr") as [[dr | | |] |]; cbn [bind]; try reflexivity.
  rewrite !posterior_of_bayes. reflexivity.
Qed.

Lemma cell_case4_reads (ns1 ns2 : gmap string value) :
  ns1 !! "prior" = ns2 !! "prior" ->
  ns1 !! "rvals" = ns2 !! "rvals" ->
  ns1 !! "like" = ns2 !! "like" ->
  ns1 !! "dr" = ns2 !! "dr" ->
  posterior_of "post_pdf4" (cell_case4 ns1)
  = posterior_of "post_pdf4" (cell_case4 ns2).
Proof.
  intros Hpr Hrv Hlk Hdr.
  unfold cell_case4, get_array, get_float, get_gamma1.
  rewrite Hpr, Hrv, Hlk, Hdr.
  destruct (ns2 !! "prior") as [[| | | sc] |]; cbn [bind]; try reflexivity.
  destruct (ns2 !! "rvals") as [[| | rv |] |]; cbn [bind]; try reflexivity.
  destruct (ns2 !! "like") as [[| | lk |] |]; cbn [bind]; try reflexivity.
  cbv zeta. destruct (numer _ _) as [nm | e]; cbn [bind]; try reflexivity.
  destruct (ns2 !! "dr") as [[dr | | |] |]; cbn [bind]; try reflexivity.
  rewrite !posterior_of_bayes. reflexivity.
Qed.

End Purity.

(** ** Bounds of the exponential by repeated squaring *)

Section ExpBounds.
Import Certify.

Lemma div_le_l (a b c : R) : 0 < c -> a <= b * c -> a / c <= b.
Proof.
  intros Hc H. apply (Rmult_le_reg_r c); [exact Hc |].
  unfold Rdiv. rewrite Rmult_assoc, Rinv_l, Rmult_1_r; lra.
Qed.

Lemma le_div_r (a b c : R) : 0 < c -> a * c <= b -> a <= b / c.
Proof.
  intros Hc H. apply (Rmult_le_reg_r c); [exact Hc |].
  unfold Rdiv. rewrite Rmult_assoc, Rinv_l, Rmult_1_r; lra.
Qed.

Lemma floor_div_le (n D : Z) :
  (0 < D)%Z -> IZR (n / D) * IZR D <= IZR n.
Proof.
  intros HD. rewrite <- mult_IZR. apply IZR_le.
  pose proof (Z.mul_div_le n D HD). lia.
Qed.

Lemma ceil_div_ge (n D : Z) :
  (0 < D)%Z -> IZR n <= IZR ((n + D - 1) / D) * IZR D.
Proof.
  intros HD. rewrite <- mult_IZR. apply IZR_le.
  pose proof (Z.mul_succ_div_gt (n + D - 1) D HD). lia.
Qed.

Lemma sq_step (D a b : Z) (x : R) :
  (0 < D)%Z -> (0 <= a)%Z ->
  IZR a / IZR D <= x <= IZR b / IZR D ->
  (0 <= sq_down D a)%Z
  /\ IZR (sq_down D a) / IZR D <= x * x <= IZR (sq_up D b) / IZR D.
Proof.
  intros HD Ha [Hlo Hhi].
  assert (HDr : 0 < IZR D) by (apply IZR_lt; exact HD).
  assert (Har : 0 <= IZR a) by (apply IZR_le; exact Ha).
  assert (Hx0 : 0 <= IZR a / IZR D).
  { apply Rmult_le_pos; [exact Har | left; apply Rinv_0_lt_compat, HDr]. }
  split; [apply Z.div_pos; nia |].
  pose proof (floor_div_le (a * a) D HD) as Hf.
  pose proof (ceil_div_ge (b * b) D HD) as Hc.
  rewrite mult_IZR in Hf, Hc. fold (sq_down D a) in Hf. fold (sq_up D b) in Hc.
  split.
  - apply Rle_trans with ((IZR a / IZR D) * (IZR a / IZR D)).
    + apply div_le_l; [exact HDr |].
      replace (IZR a / IZR D * (IZR a / IZR D) * IZR D)
        with (IZR a * IZR a / IZR D) by (field; lra).
      apply le_div_r; assumption.
    + apply Rmult_le_compat; lra.
  - apply Rle_trans with ((IZR b / IZR D) * (IZR b / IZR D)).
    + apply Rmult_le_compat; lra.
    + apply le_div_r; [exact HDr |].
      replace (IZR b / IZR D * (IZR b / IZR D) * IZR D)
        with (IZR b * IZR b / IZR D) by (field; lra).
      apply div_le_l; assumption.
Qed.

Lemma chain_ok (k : nat) (D : Z) :
  (0 < D)%Z ->
  forall (a b : Z) (x : R),
    (0 <= a)%Z ->
    IZR a / IZR D <= x <= IZR b / IZR D ->
    (0 <= fst (chain k D a b))%Z
    /\ IZR (fst (chain k D a b)) / IZR D <= x ^ (2 ^ k)
       <= IZR (snd (chain k D a b)) / IZR D.
Proof.
  intros HD. induction k as [| k IH]; intros a b x Ha Hx.
  - simpl. rewrite Rmult_1_r. auto.
  - destruct (sq_step D a b x HD Ha Hx) as [Ha' Hx'].
    specialize (IH _ _ _ Ha' Hx').
    replace (x ^ (2 ^ S k)) with ((x * x) ^ (2 ^ k)).
    + exact IH.
    + rewrite Nat.pow_succ_r'. symmetry. apply pow_sqr.
Qed.

Lemma exp_neg_bounds_ok (tn td : Z) (k : nat) (D : Z) :
  (0 < D)%Z -> (0 < td)%Z -> (0 < tn)%Z ->
  (tn <= td * 2 ^ Z.of_nat k)%Z ->
  (0 <= fst (exp_neg_bounds tn td k D))%Z
  /\ IZR (fst (exp_neg_bounds tn td k D)) / IZR D
     <= exp (- (IZR tn / IZR td))
     <= IZR (snd (exp_neg_bounds tn td k D)) / IZR D.
Proof.
  intros HD Htd Htn Hle. unfold exp_neg_bounds.
  set (den := (td * 2 ^ Z.of_nat k)%Z) in *.
  assert (Hden : (0 < den)%Z) by lia.
  assert (HDr : 0 < IZR D) by (apply IZR_lt; exact HD).
  assert (Hdr : 0 < IZR den) by (apply IZR_lt; exact Hden).
  assert (Htr : 0 < IZR tn) by (apply IZR_lt; exact Htn).
  set (delta := IZR tn / IZR den).
  assert (Hdelta : 0 < delta) by (apply Rdiv_lt_0_compat; assumption).
  assert (Hpow : exp (- delta) ^ (2 ^ k) = exp (- (IZR tn / IZR td))).
  { rewrite exp_pow_nat. f_equal. rewrite pow_INR.
    unfold delta, den. rewrite mult_IZR, <- pow_IZR.
    replace (INR 2) with 2 by (simpl; lra).
    assert (HP : 0 < 2 ^ k) by (apply pow_lt; lra).
    assert (0 < IZR td) by (apply IZR_lt; exact Htd).
    set (P := 2 ^ k) in *. field. split; lra. }
  rewrite <- Hpow. apply chain_ok; [exact HD | |].
  - apply Z.div_pos; [| exact Hden].
    apply Z.mul_nonneg_nonneg; lia.
  - split.
    + apply Rle_trans with (1 + - delta); [| apply exp_ineq1_le].
      pose proof (floor_div_le (D * (den - tn)) den Hden) as Hf.
      rewrite mult_IZR, minus_IZR in Hf.
      apply div_le_l; [exact HDr |].
      replace ((1 + - delta) * IZR D)
        with (IZR D * (IZR den - IZR tn) / IZR den)
        by (unfold delta; field; lra).
      apply le_div_r; assumption.
    + apply Rle_trans with (/ (1 + delta)).
      * rewrite exp_Ropp. apply Rinv_le_contravar; [lra |].
        apply exp_ineq1_le.
      * pose proof (ceil_div_ge (D * den) (den + tn) ltac:(lia)) as Hc.
        rewrite mult_IZR, !plus_IZR in Hc.
        assert (Hs : 0 < IZR den + IZR tn) by lra.
        apply le_div_r; [exact HDr |].
        replace (/ (1 + delta) * IZR D)
          with (IZR D * IZR den / (IZR den + IZR tn))
          by (unfold delta; field; lra).
        apply div_le_l; assumption.
Qed.

Lemma coarsen_ok (D D2 : Z) (ab : Z * Z) (x : R) :
  (0 < D)%Z -> (0 < D2)%Z -> (0 <= fst ab)%Z ->
  IZR (fst ab) / IZR D <= x <= IZR (snd ab) / IZR D ->
  (0 <= fst (coarsen D D2 ab))%Z
  /\ IZR (fst (coarsen D D2 ab)) / IZR D2 <= x
     <= IZR (snd (coarsen D D2 ab)) / IZR D2.
Proof.
  intros HD HD2 Ha [Hlo Hhi]. unfold coarsen. cbn [fst snd].
  assert (HDr : 0 < IZR D) by (apply IZR_lt; exact HD).
  assert (HD2r : 0 < IZR D2) by (apply IZR_lt; exact HD2).
  pose proof (floor_div_le (fst ab * D2) D HD) as Hf.
  pose proof (ceil_div_ge (snd ab * D2) D HD) as Hc.
  rewrite mult_IZR in Hf, Hc.
  split; [apply Z.div_pos; nia |]. split.
  - apply Rle_trans with (IZR (fst ab) / IZR D); [| exact Hlo].
    apply div_le_l; [exact HD2r |].
    replace (IZR (fst ab) / IZR D * IZR D2)
      with (IZR (fst ab) * IZR D2 / IZR D) by (field; lra).
    apply le_div_r; assumption.
  - apply Rle_trans with (IZR (snd ab) / IZR D); [exact Hhi |].
    apply le_div_r; [exact HD2r |].
    replace (IZR (snd ab) / IZR D * IZR D2)
      with (IZR (snd ab) * IZR D2 / IZR D) by (field; lra).
    apply div_le_l; assumption.
Qed.

Lemma q_bounds_ok :
  (0 <= fst q_bounds)%Z
  /\ IZR (fst q_bounds) / 2 ^ 20 <= exp (- (40 / 199))
     <= IZR (snd q_bounds) / 2 ^ 20.
Proof.
  unfold q_bounds.
  destruct (exp_neg_bounds_ok 40 199 20 (2 ^ 48)) as [H0 Hb];
    try reflexivity; [discriminate |].
  replace (2 ^ 20) with (IZR (2 ^ 20)) by (rewrite pow_IZR; reflexivity).
  apply coarsen_ok; try reflexivity; assumption.
Qed.

End ExpBounds.

(** ** Term-wise bounds of the likelihood on the grid *)

Section TermBounds.
Import Certify SpreadReal RealSide.

Lemma IZR_pow2 (s : nat) : IZR (2 ^ Z.of_nat s) = 2 ^ s.
Proof. rewrite <- pow_IZR. reflexivity. Qed.

Lemma shiftr_lo (n : Z) (s : nat) :
  IZR (Z.shiftr n (Z.of_nat s)) * 2 ^ s <= IZR n.
Proof.
  rewrite Z.shiftr_div_pow2 by lia. rewrite <- IZR_pow2.
  apply floor_div_le. apply Z.pow_pos_nonneg; lia.
Qed.

Lemma shiftr_hi (n : Z) (s : nat) :
  IZR n <= IZR (Z.shiftr n (Z.of_nat s) + 1) * 2 ^ s.
Proof.
  rewrite Z.shiftr_div_pow2 by lia. rewrite <- IZR_pow2.
  assert (HD : (0 < 2 ^ Z.of_nat s)%Z) by (apply Z.pow_pos_nonneg; lia).
  rewrite <- mult_IZR. apply IZR_le.
  pose proof (Z.mul_succ_div_gt n _ HD). lia.
Qed.

Lemma shiftr_nonneg (n : Z) (s : nat) :
  (0 <= n)%Z -> (0 <= Z.shiftr n (Z.of_nat s))%Z.
Proof. intros H. apply Z.shiftr_nonneg. exact H. Qed.

Lemma tbounds_ok (a b : Z) (q : R) :
  (0 <= a)%Z -> 0 <= q ->
  IZR a / 2 ^ 20 <= q <= IZR b / 2 ^ 20 ->
  forall (n i : nat) (plo phi : Z),
    (0 <= plo)%Z ->
    IZR plo / 2 ^ 100 <= q ^ i <= IZR phi / 2 ^ 100 ->
    Forall2 (brackets q) (tbounds n (Z.of_nat i) a b plo phi) (seq i n).
Proof.
  intros Ha Hq [Hqa Hqb]. induction n as [| n IH]; intros i plo phi Hp [Hlo Hhi].
  - constructor.
  - cbn [tbounds seq].
    assert (H20 : 0 < 2 ^ 20) by (apply pow_lt; lra).
    assert (H50 : 0 < 2 ^ 50) by (apply pow_lt; lra).
    assert (H100 : 0 < 2 ^ 100) by (apply pow_lt; lra).
    assert (H150 : 2 ^ 150 = 2 ^ 50 * 2 ^ 100).
    { rewrite <- pow_add. reflexivity. }
    assert (Hplo : 0 <= IZR plo) by (apply IZR_le; exact Hp).
    assert (Har : 0 <= IZR a) by (apply IZR_le; exact Ha).
    assert (Hqi : 0 <= q ^ i) by (apply pow_le; exact Hq).
    assert (Hphi : 0 <= IZR phi).
    { apply Rmult_le_reg_r with (/ 2 ^ 100);
        [apply Rinv_0_lt_compat, H100 |].
      rewrite Rmult_0_l. unfold Rdiv in Hhi. lra. }
    set (c := (Z.of_nat i ^ 16)%Z).
    assert (Hc : IZR c = INR i ^ 16).
    { unfold c. rewrite INR_IZR_INZ.
      change 16%Z with (Z.of_nat 16). rewrite <- pow_IZR. reflexivity. }
    assert (Hc0 : 0 <= IZR c) by (rewrite Hc; apply pow_le, pos_INR).
    assert (Hcz : (0 <= c)%Z) by (apply le_IZR; exact Hc0).
    constructor.
    + split; [reflexivity |]. cbn [fst snd].
      split; [change 150%Z with (Z.of_nat 150); apply shiftr_nonneg; nia |].
      split.
      * pose proof (shiftr_lo (c * plo) 150) as Hs.
        change (Z.of_nat 150) with 150%Z in Hs.
        rewrite mult_IZR, H150 in Hs.
        apply Rle_trans with (IZR c * (IZR plo / 2 ^ 100)).
        -- apply Rmult_le_reg_r with (2 ^ 100); [exact H100 |].
           replace (IZR c * (IZR plo / 2 ^ 100) * 2 ^ 100)
             with (IZR c * IZR plo) by (field; lra).
           lra.
        -- rewrite Hc. apply Rmult_le_compat_l; [rewrite <- Hc; exact Hc0 |].
           exact Hlo.
      * pose proof (shiftr_hi (c * phi) 150) as Hs.
        change (Z.of_nat 150) with 150%Z in Hs.
        rewrite mult_IZR, H150 in Hs.
        apply Rle_trans with (IZR c * (IZR phi / 2 ^ 100)).
        -- rewrite Hc. apply Rmult_le_compat_l; [rewrite <- Hc; exact Hc0 |].
           exact Hhi.
        -- apply Rmult_le_reg_r with (2 ^ 100); [exact H100 |].
           replace (IZR c * (IZR phi / 2 ^ 100) * 2 ^ 100)
             with (IZR c * IZR phi) by (field; lra).
           lra.
    + replace (Z.of_nat i + 1)%Z with (Z.of_nat (S i)) by lia.
      apply IH.
      * change 20%Z with (Z.of_nat 20). apply shiftr_nonneg. nia.
      * change (q ^ S i) with (q * q ^ i). split.
        -- pose proof (shiftr_lo (plo * a) 20) as Hs.
           change (Z.of_nat 20) with 20%Z in Hs. rewrite mult_IZR in Hs.
           apply Rle_trans with ((IZR a / 2 ^ 20) * (IZR plo / 2 ^ 100)).
           ++ apply div_le_l; [exact H100 |].
              apply Rmult_le_reg_r with (2 ^ 20); [exact H20 |].
              replace (IZR a / 2 ^ 20 * (IZR plo / 2 ^ 100) * 2 ^ 100 * 2 ^ 20)
                with (IZR plo * IZR a) by (field; lra).
              exact Hs.
           ++ apply Rmult_le_compat; lra.
        -- pose proof (shiftr_hi (phi * b) 20) as Hs.
           change (Z.of_nat 20) with 20%Z in Hs. rewrite mult_IZR in Hs.
           apply Rle_trans with ((IZR b / 2 ^ 20) * (IZR phi / 2 ^ 100)).
           ++ apply Rmult_le_compat; lra.
           ++ apply le_div_r; [exact H100 |].
              apply Rmult_le_reg_r with (2 ^ 20); [exact H20 |].
              replace (IZR b / 2 ^ 20 * (IZR phi / 2 ^ 100) * 2 ^ 100 * 2 ^ 20)
                with (IZR phi * IZR b) by (field; lra).
              exact Hs.
Qed.

Lemma tb200_ok : Forall2 (brackets (exp (- (40 / 199)))) tb200 (seq 0 200).
Proof.
  destruct q_bounds_ok as [Ha Hq].
  unfold tb200. change 0%Z with (Z.of_nat 0) at 1.
  apply tbounds_ok; try assumption.
  - left. apply exp_pos.
  - replace (IZR (2 ^ 100)) with (2 ^ 100)
      by (rewrite pow_IZR; reflexivity).
    simpl (_ ^ 0). assert (0 < 2 ^ 100) by (apply pow_lt; lra).
    unfold Rdiv. rewrite Rinv_r by lra. lra.
Qed.

End TermBounds.

(** ** Bounds of the trapezoidal moments *)

Section MomentBounds.
Import Certify SpreadReal RealSide.

Lemma rtrapz_mono (y y' : list R) (d : R) :
  0 <= d -> Forall2 Rle y y' -> rtrapz y d <= rtrapz y' d.
Proof.
  intros Hd H. induction H as [| a a' t t' Ha Ht IH].
  - lra.
  - destruct Ht as [| b b' t t' Hb Ht].
    + unfold rtrapz. simpl. lra.
    + rewrite !rtrapz_cons2.
      assert (d * (b + a) / 2 <= d * (b' + a') / 2) by nra.
      lra.
Qed.

Lemma rtrapz_IZR (l : list Z) (d u : R) :
  rtrapz (map (fun z => IZR z * u) l) d = d / 2 * u * IZR (ztrapz l).
Proof.
  induction l as [| a [| b t] IH].
  - unfold rtrapz. simpl. lra.
  - unfold rtrapz. simpl. lra.
  - change (map (fun z => IZR z * u) (a :: b :: t))
      with (IZR a * u :: IZR b * u :: map (fun z => IZR z * u) t).
    rewrite rtrapz_cons2.
    change (IZR b * u :: map (fun z => IZR z * u) t)
      with (map (fun z => IZR z * u) (b :: t)).
    rewrite IH.
    change (ztrapz (a :: b :: t)) with ((b + a) + ztrapz (b :: t))%Z.
    rewrite !plus_IZR. lra.
Qed.

Lemma Forall2_map_map {A B C D : Type} (P : A -> B -> Prop)
    (Q : C -> D -> Prop) (f : A -> C) (g : B -> D) (l : list A) (l' : list B) :
  (forall a b, P a b -> Q (f a) (g b)) ->
  Forall2 P l l' -> Forall2 Q (map f l) (map g l').
Proof.
  intros H HF. induction HF; simpl; constructor; auto.
Qed.

Lemma pow_le_mono (x y : R) (n : nat) : 0 <= x <= y -> x ^ n <= y ^ n.
Proof. intros H. apply pow_incr. exact H. Qed.

Lemma Forall2_swap {A B : Type} (P : A -> B -> Prop) (l : list A)
    (l' : list B) :
  Forall2 P l l' -> Forall2 (fun b a => P a b) l' l.
Proof. intros H. induction H; constructor; auto. Qed.

(** The moments of [tau^pw] lie between the integer moments of the
    bounds. *)
Lemma moment_bounds (k pw : nat) :
  20 / 199 / 2 * (2 ^ 50) ^ pw * IZR (moment tb200 k false pw)
  <= tmoment k (fun j => tau j ^ pw)
  <= 20 / 199 / 2 * (2 ^ 50) ^ pw * IZR (moment tb200 k true pw).
Proof.
  unfold tmoment, moment. rewrite <- !rtrapz_IZR.
  pose proof tb200_ok as Htb.
  assert (H50 : 0 < 2 ^ 50) by (apply pow_lt; lra).
  split; (apply rtrapz_mono; [lra |]); rewrite map_map.
  - eapply Forall2_map_map; [| exact Htb].
    intros [i [lo hi]] j (Hi & Hlo0 & Hlo & Hhi); cbn [fst snd] in *.
    subst i. rewrite mult_IZR, <- !pow_IZR, <- INR_IZR_INZ.
    rewrite Rmult_assoc, <- Rpow_mult_distr.
    apply Rmult_le_compat_l; [apply pow_le, pos_INR |].
    apply pow_le_mono. fold (tau j) in Hlo. split; [| exact Hlo].
    apply Rmult_le_pos; [apply IZR_le; exact Hlo0 | lra].
  - eapply Forall2_map_map; [| exact (Forall2_swap _ _ _ Htb)].
    intros j [i [lo hi]] (Hi & Hlo0 & Hlo & Hhi); cbn [fst snd] in *.
    subst i. rewrite mult_IZR, <- !pow_IZR, <- INR_IZR_INZ.
    rewrite Rmult_assoc, <- Rpow_mult_distr.
    apply Rmult_le_compat_l; [apply pow_le, pos_INR |].
    apply pow_le_mono. fold (tau j) in Hlo, Hhi. split; [| exact Hhi].
    apply Rle_trans with (IZR lo * 2 ^ 50); [| exact Hlo].
    apply Rmult_le_pos; [apply IZR_le; exact Hlo0 | lra].
Qed.

End MomentBounds.

(** ** The spread of a flat-prior posterior on the rate grid *)

Section Spread.
Import Certify SpreadReal RealSide.

Lemma rsum_lin3 {A : Type} (f1 f2 f3 : A -> R) (a b c : R) (l : list A) :
  rsum (map (fun x => a * f1 x + b * f2 x + c * f3 x) l)
  = a * rsum (map f1 l) + b * rsum (map f2 l) + c * rsum (map f3 l).
Proof.
  unfold rsum. induction l as [| x l IH]; simpl; [lra |].
  rewrite IH. lra.
Qed.

Lemma rtrapz_lin3 {A : Type} (f1 f2 f3 : A -> R) (a b c d : R) (l : list A) :
  rtrapz (map (fun x => a * f1 x + b * f2 x + c * f3 x) l) d
  = a * rtrapz (map f1 l) d + b * rtrapz (map f2 l) d
    + c * rtrapz (map f3 l) d.
Proof.
  unfold rtrapz. rewrite !pairs_map, !map_map. cbn [fst snd].
  rewrite <- rsum_lin3. f_equal. apply map_ext. intros [y x].
  cbn [fst snd]. lra.
Qed.

Lemma rtrapz_mult {A : Type} (f : A -> R) (c d : R) (l : list A) :
  rtrapz (map (fun x => c * f x) l) d = c * rtrapz (map f l) d.
Proof.
  rewrite (map_ext _ (fun x => c * f x + 0 * f x + 0 * f x))
    by (intros x; lra).
  rewrite rtrapz_lin3. lra.
Qed.

(** A constant prior cancels in the posterior. *)
Lemma flat_posterior (l : R -> R) (c0 d : R) (rv : list R) :
  c0 <> 0 -> rtrapz (map l rv) d <> 0 ->
  rpost (map (fun _ => c0) rv) (map l rv) d
  = map (fun r => l r / rtrapz (map l rv) d) rv.
Proof.
  intros Hc HZ. unfold rpost. rewrite rmul2_map, rtrapz_mult, map_map.
  apply map_ext. intros r. field. split; assumption.
Qed.

Lemma tmoment_0 (g : nat -> R) :
  tmoment 0 g = rtrapz (map g (seq 0 200)) (20 / 199).
Proof.
  unfold tmoment. f_equal. apply map_ext. intros j. simpl. lra.
Qed.

(** The posterior of weights proportional to [g] on the grid. *)
Lemma grid_posterior (l : R -> R) (g : nat -> R) (C c0 : R) :
  (forall j : nat, l (INR j * (20 / 199)) = C * g j) ->
  C <> 0 -> c0 <> 0 -> tmoment 0 g <> 0 ->
  rpost (map (fun _ => c0) rv200) (map l rv200) (20 / 199)
  = map (fun j => g j / tmoment 0 g) (seq 0 200).
Proof.
  intros Hl HC Hc HG.
  assert (HZ : rtrapz (map l rv200) (20 / 199) = C * tmoment 0 g).
  { rewrite tmoment_0, <- rtrapz_mult. unfold rv200. rewrite map_map.
    f_equal. apply map_ext. intros j. apply Hl. }
  rewrite flat_posterior; [| exact Hc | rewrite HZ; nra].
  rewrite HZ. unfold rv200. rewrite map_map. apply map_ext. intros j.
  rewrite Hl. field. split; assumption.
Qed.

(** Mean and variance of that posterior from the three moments. *)
Lemma grid_spread (g : nat -> R) :
  tmoment 0 g <> 0 ->
  rvar rv200 (map (fun j => g j / tmoment 0 g) (seq 0 200)) (20 / 199)
  = (20 / 199) ^ 2
    * (tmoment 2 g / tmoment 0 g - (tmoment 1 g / tmoment 0 g) ^ 2).
Proof.
  intros HG. set (G0 := tmoment 0 g) in *. set (h := 20 / 199).
  assert (Hm : rmean rv200 (map (fun j => g j / G0) (seq 0 200)) h
               = h * tmoment 1 g / G0).
  { unfold rmean, rv200. fold h. rewrite rmul2_map.
    replace (h * tmoment 1 g / G0) with (h / G0 * tmoment 1 g)
      by (field; exact HG).
    unfold tmoment. fold h. rewrite <- rtrapz_mult. f_equal.
    apply map_ext. intros j. simpl. field. exact HG. }
  unfold rvar. rewrite Hm. set (m := h * tmoment 1 g / G0).
  unfold rv200. fold h. rewrite map_map, rmul2_map.
  rewrite (map_ext _ (fun j => h ^ 2 / G0 * (INR j ^ 2 * g j)
                               + (- (2 * m * h) / G0) * (INR j ^ 1 * g j)
                               + m ^ 2 / G0 * (INR j ^ 0 * g j))).
  2: { intros j. simpl. field. exact HG. }
  rewrite rtrapz_lin3. fold h.
  change (rtrapz (map (fun j => INR j ^ 2 * g j) (seq 0 200)) h)
    with (tmoment 2 g).
  change (rtrapz (map (fun j => INR j ^ 1 * g j) (seq 0 200)) h)
    with (tmoment 1 g).
  change (rtrapz (map (fun j => INR j ^ 0 * g j) (seq 0 200)) h)
    with (tmoment 0 g).
  fold G0. unfold m. simpl. field. exact HG.
Qed.

Lemma poisson_16_2_tau (j : nat) :
  poisson_l 16 2 (INR j * (20 / 199)) = (20 / 199 * 2) ^ 16 * tau j ^ 1.
Proof.
  unfold poisson_l, tau.
  replace (INR j * (20 / 199) * 2) with ((20 / 199 * 2) * INR j) by lra.
  rewrite Rpow_mult_distr, exp_pow_nat, pow_1.
  rewrite Rmult_assoc. do 3 f_equal. lra.
Qed.

Lemma poisson_80_10_tau (j : nat) :
  poisson_l 80 10 (INR j * (20 / 199)) = (20 / 199 * 10) ^ 80 * tau j ^ 5.
Proof.
  unfold poisson_l, tau.
  assert (E1 : exp (- (INR j * (20 / 199) * 10))
               = (exp (- (40 / 199)) ^ j) ^ 5).
  { rewrite <- pow_mult, exp_pow_nat. f_equal. rewrite mult_INR.
    replace (INR 5) with 5 by (simpl; lra). lra. }
  assert (E2 : (INR j * (20 / 199) * 10) ^ 80
               = (20 / 199 * 10) ^ 80 * (INR j ^ 16) ^ 5).
  { rewrite <- pow_mult. change (16 * 5)%nat with 80%nat.
    rewrite <- Rpow_mult_distr. f_equal. lra. }
  rewrite E1, E2, (Rpow_mult_distr (INR j ^ 16)), Rmult_assoc. reflexivity.
Qed.

End Spread.

(** ** The two Poisson posteriors compared *)

Section Narrower.
Import NP Notebook Cells Summary Certify SpreadReal RealSide.

Lemma frac_le (x x' y y' : R) :
  0 <= x <= x' -> 0 < y' <= y -> x / y <= x' / y'.
Proof.
  intros [Hx Hxx] [Hy Hyy].
  apply Rle_trans with (x / y').
  - unfold Rdiv. apply Rmult_le_compat_l; [exact Hx |].
    apply Rinv_le_contravar; assumption.
  - unfold Rdiv. apply Rmult_le_compat_r; [| exact Hxx].
    left. apply Rinv_0_lt_compat, Hy.
Qed.

Lemma sqr_le (x y : R) : 0 <= x <= y -> x ^ 2 <= y ^ 2.
Proof. intros H. apply pow_incr. exact H. Qed.

(** From bounds of the six moments, with common positive factors [ka]
    and [kb], the comparison of the two variances reduces to one
    inequality between the bounds. *)
Lemma spread_compare
    (A0 A1 A2 B0 B1 B2 ka kb a0lo a0hi a1hi a2lo b0lo b0hi b1lo b2hi : R) :
  0 < ka -> 0 < kb ->
  ka * a0lo <= A0 <= ka * a0hi -> 0 <= A1 <= ka * a1hi -> ka * a2lo <= A2 ->
  kb * b0lo <= B0 <= kb * b0hi -> kb * b1lo <= B1 -> 0 <= B2 <= kb * b2hi ->
  0 < a0lo -> 0 < b0lo -> 0 <= a2lo -> 0 <= b1lo ->
  b2hi * (a0lo * a0lo) * a0hi * (b0hi * b0hi)
  + (a1hi * a1hi) * b0lo * a0hi * (b0hi * b0hi)
  < a2lo * b0lo * (a0lo * a0lo) * (b0hi * b0hi)
    + (b1lo * b1lo) * b0lo * (a0lo * a0lo) * a0hi ->
  B2 / B0 - (B1 / B0) ^ 2 < A2 / A0 - (A1 / A0) ^ 2.
Proof.
  intros Hka Hkb [HA0l HA0h] [HA1n HA1h] HA2 [HB0l HB0h] HB1 [HB2n HB2h]
    Ha0 Hb0 Ha2 Hb1 Hchk.
  assert (Pa0lo : 0 < ka * a0lo) by (apply Rmult_lt_0_compat; assumption).
  assert (Pb0lo : 0 < kb * b0lo) by (apply Rmult_lt_0_compat; assumption).
  assert (Pa2lo : 0 <= ka * a2lo) by (apply Rmult_le_pos; lra).
  assert (Pb1lo : 0 <= kb * b1lo) by (apply Rmult_le_pos; lra).
  assert (Pa0hi : 0 < a0hi).
  { apply Rmult_lt_reg_l with ka; [exact Hka |]. lra. }
  assert (Pb0hi : 0 < b0hi).
  { apply Rmult_lt_reg_l with kb; [exact Hkb |]. lra. }
  assert (E1 : B2 / B0 <= b2hi / b0lo).
  { replace (b2hi / b0lo) with (kb * b2hi / (kb * b0lo)) by (field; lra).
    apply frac_le; lra. }
  assert (E2 : b1lo / b0hi <= B1 / B0).
  { replace (b1lo / b0hi) with (kb * b1lo / (kb * b0hi)) by (field; lra).
    apply frac_le; lra. }
  assert (E2' : 0 <= b1lo / b0hi).
  { apply Rmult_le_pos; [exact Hb1 | left; apply Rinv_0_lt_compat, Pb0hi]. }
  assert (E3 : a2lo / a0hi <= A2 / A0).
  { replace (a2lo / a0hi) with (ka * a2lo / (ka * a0hi)) by (field; lra).
    apply frac_le; lra. }
  assert (E4 : A1 / A0 <= a1hi / a0lo).
  { replace (a1hi / a0lo) with (ka * a1hi / (ka * a0lo)) by (field; lra).
    apply frac_le; lra. }
  assert (E4' : 0 <= A1 / A0).
  { apply Rmult_le_pos; [lra | left; apply Rinv_0_lt_compat; lra]. }
  pose proof (sqr_le _ _ (conj E2' E2)) as S2.
  pose proof (sqr_le _ _ (conj E4' E4)) as S4.
  assert (Hmid : b2hi / b0lo + (a1hi / a0lo) ^ 2
                 < a2lo / a0hi + (b1lo / b0hi) ^ 2).
  { set (P := b0lo * (a0lo * a0lo) * a0hi * (b0hi * b0hi)).
    assert (HP : 0 < P).
    { unfold P. repeat apply Rmult_lt_0_compat; assumption. }
    apply Rmult_lt_reg_r with P; [exact HP |].
    replace ((b2hi / b0lo + (a1hi / a0lo) ^ 2) * P)
      with (b2hi * (a0lo * a0lo) * a0hi * (b0hi * b0hi)
            + (a1hi * a1hi) * b0lo * a0hi * (b0hi * b0hi))
      by (unfold P; field; lra).
    replace ((a2lo / a0hi + (b1lo / b0hi) ^ 2) * P)
      with (a2lo * b0lo * (a0lo * a0lo) * (b0hi * b0hi)
            + (b1lo * b1lo) * b0lo * (a0lo * a0lo) * a0hi)
      by (unfold P; field; lra).
    exact Hchk. }
  lra.
Qed.

Lemma tau_pow_nonneg (pw j : nat) : 0 <= tau j ^ pw.
Proof.
  apply pow_le. unfold tau.
  apply Rmult_le_pos; [apply pow_le, pos_INR | apply pow_le; left; apply exp_pos].
Qed.

Lemma tmoment_nonneg (k pw : nat) : 0 <= tmoment k (fun j => tau j ^ pw).
Proof.
  unfold tmoment. apply rtrapz_nonneg; [| lra].
  rewrite Forall_map. apply Forall_forall. intros j _.
  apply Rmult_le_pos; [apply pow_le, pos_INR | apply tau_pow_nonneg].
Qed.

(** The eight integer moments that the comparison uses. *)
Lemma moment_values :
  (fun tb =>
     moment tb 0 false 1 = 26039014076
     /\ moment tb 0 true 1 = 26041582349
     /\ moment tb 1 true 1 = 2202433894894
     /\ moment tb 2 false 1 = 197198316509526
     /\ moment tb 0 false 5 = 52713393590206234527875833724012827241654246
     /\ moment tb 0 true 5 = 52738168787529228804856916491463287446837449
     /\ moment tb 1 false 5
        = 4248435067055629927926963678904373081005153660
     /\ moment tb 2 true 5
        = 346796683367603285685663527021594365004008070778)%Z tb200.
Proof. vm_compute. repeat split; reflexivity. Qed.

Lemma moment_lower_at (k pw : nat) (lo : Z) :
  moment tb200 k false pw = lo ->
  20 / 199 / 2 * (2 ^ 50) ^ pw * IZR lo <= tmoment k (fun j => tau j ^ pw).
Proof. intros <-. apply moment_bounds. Qed.

Lemma moment_upper_at (k pw : nat) (hi : Z) :
  moment tb200 k true pw = hi ->
  tmoment k (fun j => tau j ^ pw) <= 20 / 199 / 2 * (2 ^ 50) ^ pw * IZR hi.
Proof. intros <-. apply moment_bounds. Qed.

(** The comparison on the real moments. *)
Lemma narrower_moments :
  0 < tmoment 0 (fun j => tau j ^ 1)
  /\ 0 < tmoment 0 (fun j => tau j ^ 5)
  /\ tmoment 2 (fun j => tau j ^ 5) / tmoment 0 (fun j => tau j ^ 5)
     - (tmoment 1 (fun j => tau j ^ 5) / tmoment 0 (fun j => tau j ^ 5)) ^ 2
     < tmoment 2 (fun j => tau j ^ 1) / tmoment 0 (fun j => tau j ^ 1)
       - (tmoment 1 (fun j => tau j ^ 1) / tmoment 0 (fun j => tau j ^ 1)) ^ 2.
Proof.
  pose proof moment_values as Hv. cbv beta in Hv.
  destruct Hv as (Ea0lo & Ea0hi & Ea1hi & Ea2lo & Eb0lo & Eb0hi & Eb1lo & Eb2hi).
  pose proof (moment_lower_at 0 1 _ Ea0lo) as A0l.
  pose proof (moment_upper_at 0 1 _ Ea0hi) as A0h.
  pose proof (moment_upper_at 1 1 _ Ea1hi) as A1h.
  pose proof (moment_lower_at 2 1 _ Ea2lo) as A2l.
  pose proof (moment_lower_at 0 5 _ Eb0lo) as B0l.
  pose proof (moment_upper_at 0 5 _ Eb0hi) as B0h.
  pose proof (moment_lower_at 1 5 _ Eb1lo) as B1l.
  pose proof (moment_upper_at 2 5 _ Eb2hi) as B2h.
  clear Ea0lo Ea0hi Ea1hi Ea2lo Eb0lo Eb0hi Eb1lo Eb2hi.
  assert (H1 : 0 < IZR 26039014076) by (apply IZR_lt; reflexivity).
  assert (H2 : 0 < IZR 52713393590206234527875833724012827241654246)
    by (apply IZR_lt; reflexivity).
  assert (H3 : 0 <= IZR 197198316509526) by (apply IZR_le; discriminate).
  assert (H4 : 0 <= IZR 4248435067055629927926963678904373081005153660)
    by (apply IZR_le; discriminate).
  assert (H5 :
    IZR 346796683367603285685663527021594365004008070778
      * (IZR 26039014076 * IZR 26039014076) * IZR 26041582349
      * (IZR 52738168787529228804856916491463287446837449
         * IZR 52738168787529228804856916491463287446837449)
    + (IZR 2202433894894 * IZR 2202433894894)
      * IZR 52713393590206234527875833724012827241654246 * IZR 26041582349
      * (IZR 52738168787529228804856916491463287446837449
         * IZR 52738168787529228804856916491463287446837449)
    < IZR 197198316509526
      * IZR 52713393590206234527875833724012827241654246
      * (IZR 26039014076 * IZR 26039014076)
      * (IZR 52738168787529228804856916491463287446837449
         * IZR 52738168787529228804856916491463287446837449)
      + (IZR 4248435067055629927926963678904373081005153660
         * IZR 4248435067055629927926963678904373081005153660)
        * IZR 52713393590206234527875833724012827241654246
        * (IZR 26039014076 * IZR 26039014076) * IZR 26041582349).
  { rewrite <- !mult_IZR, <- !plus_IZR. apply IZR_lt. reflexivity. }
  assert (Hka : 0 < 20 / 199 / 2 * (2 ^ 50) ^ 1).
  { apply Rmult_lt_0_compat; [lra | apply pow_lt, pow_lt; lra]. }
  assert (Hkb : 0 < 20 / 199 / 2 * (2 ^ 50) ^ 5).
  { apply Rmult_lt_0_compat; [lra | apply pow_lt, pow_lt; lra]. }
  pose proof (tmoment_nonneg 1 1) as N1. pose proof (tmoment_nonneg 2 5) as N2.
  split; [eapply Rlt_le_trans; [| exact A0l]; apply Rmult_lt_0_compat;
          assumption |].
  split; [eapply Rlt_le_trans; [| exact B0l]; apply Rmult_lt_0_compat;
          assumption |].
  exact (spread_compare _ _ _ _ _ _ _ _ _ _ _ _ _ _ _ _ Hka Hkb
           (conj A0l A0h) (conj N1 A1h) A2l (conj B0l B0h) B1l (conj N2 B2h)
           H1 H2 H3 H4 H5).
Qed.

End Narrower.

Section NarrowerClaim.
Import NP Notebook Cells Summary Certify SpreadReal RealSide.

Lemma broadcast_fmul_fins (a b : list R) :
  length a = length b ->
  broadcast2 fmul (fins a) (fins b) = Ok (fins (rmul2 a b)).
Proof. exact (numer_fins a b). Qed.

Lemma grid_var_fins (rv pdf : list R) (d : R) :
  length rv = length pdf ->
  grid_var (fins rv) (fins pdf) (Fin d) = Ok (Fin (rvar rv pdf d)).
Proof.
  intros Hlen. unfold grid_var, grid_mean.
  rewrite (broadcast_fmul_fins rv pdf Hlen). cbn [bind]. rewrite trapz_fins.
  fold (rmean rv pdf d).
  assert (E : map (fun r => fpow (fsub r (Fin (rmean rv pdf d))) 2) (fins rv)
              = fins (map (fun r => (r + - rmean rv pdf d) ^ 2) rv)).
  { unfold fins. rewrite !map_map. reflexivity. }
  rewrite E.
  rewrite (broadcast_fmul_fins _ pdf) by (rewrite length_map; exact Hlen).
  cbn [bind]. rewrite trapz_fins. reflexivity.
Qed.

(** Variance of the flat-prior posterior whose likelihood is a multiple
    of [tau^pw] on the grid. *)
Lemma flat_posterior_var (l : R -> R) (pw : nat) (C c0 : R) :
  (forall j : nat, l (INR j * (20 / 199)) = C * tau j ^ pw) ->
  C <> 0 -> c0 <> 0 -> 0 < tmoment 0 (fun j => tau j ^ pw) ->
  let post := rpost (map (fun _ => c0) rv200) (map l rv200) (20 / 199) in
  length post = 200%nat
  /\ rvar rv200 post (20 / 199)
     = (20 / 199) ^ 2
       * (tmoment 2 (fun j => tau j ^ pw) / tmoment 0 (fun j => tau j ^ pw)
          - (tmoment 1 (fun j => tau j ^ pw)
             / tmoment 0 (fun j => tau j ^ pw)) ^ 2).
Proof.
  intros Hl HC Hc HG post. unfold post.
  rewrite (grid_posterior l (fun j => tau j ^ pw) C c0 Hl HC Hc)
    by (apply Rgt_not_eq; exact HG).
  split; [rewrite length_map, length_seq; reflexivity |].
  apply grid_spread. apply Rgt_not_eq. exact HG.
Qed.

(** C7.  After the notebook's Poisson cells, with the flat prior on
    [0, 1e5] and the 200-point grid on [0, 20], the posterior for
    [(n, T) = (80, 10)] in [post_pdf3] has a strictly smaller variance
    than the posterior for [(n, T) = (16, 2)] in [post_pdf]; the variance
    is the trapezoidal sum of [(r - mean)^2 * pdf] on the same grid.
    Both data sets have the same rate [n/T]. *)
Theorem posterior_80_10_narrower :
  exists (ns : gmap string value) (rvals p1 p3 : list npfloat)
         (dr : npfloat) (v1 v3 : R),
    run [cell_case1; cell_case2; cell_case3] ∅ = Ok ns
    /\ ns !! "rvals" = Some (VArray rvals)
    /\ ns !! "dr" = Some (VFloat dr)
    /\ ns !! "post_pdf" = Some (VArray p1)
    /\ ns !! "post_pdf3" = Some (VArray p3)
    /\ grid_var rvals p1 dr = Ok (Fin v1)
    /\ grid_var rvals p3 dr = Ok (Fin v3)
    /\ v3 < v1
    /\ 16 / 2 = 80 / 10.
Proof.
  destruct (cell_case1_spec ∅)
    as (ns1 & H1 & Hp1 & Hrv1 & Hlk1 & Hd1 & Hu1 & Hl1).
  destruct (cell_case2_spec ns1 rv200 (map (poisson_l 16 2) rv200) (20 / 199))
    as (ns2 & H2 & _ & Hfr2); try assumption.
  { rewrite length_map. reflexivity. }
  { apply Rgt_not_eq, Z200_pos;
      [apply length_map | exact gamma_prior_200_pos | lra]. }
  destruct (cell_case3_spec ns2 rv200 0 100000 (20 / 199))
    as (ns3 & H3 & Hp3 & _ & Hfr3).
  { rewrite Hfr2 by discriminate. exact Hrv1. }
  { rewrite Hfr2 by discriminate. exact Hu1. }
  { rewrite Hfr2 by discriminate. exact Hl1. }
  { rewrite Hfr2 by discriminate. exact Hd1. }
  { lra. }
  { apply Rgt_not_eq, Z200_pos; [apply length_map | | lra].
    apply map_const_Forall. apply Rdiv_lt_0_compat; lra. }
  destruct narrower_moments as (HA0 & HB0 & Hcmp).
  assert (Hc0 : 1 / (100000 + - 0) <> 0).
  { apply Rgt_not_eq. apply Rdiv_lt_0_compat; lra. }
  destruct (flat_posterior_var (poisson_l 16 2) 1 ((20 / 199 * 2) ^ 16)
              (1 / (100000 + - 0)) poisson_16_2_tau) as [Hlen1 Hv1];
    [apply Rgt_not_eq, pow_lt; lra | exact Hc0 | exact HA0 |].
  destruct (flat_posterior_var (poisson_l 80 10) 5 ((20 / 199 * 10) ^ 80)
              (1 / (100000 + - 0)) poisson_80_10_tau) as [Hlen3 Hv3];
    [apply Rgt_not_eq, pow_lt; lra | exact Hc0 | exact HB0 |].
  eexists ns3, (fins rv200), _, _, (Fin (20 / 199)), _, _.
  split; [cbn [run]; rewrite H1; cbn [bind]; rewrite H2; cbn [bind];
          rewrite H3; reflexivity |].
  split; [rewrite Hfr3, Hfr2 by discriminate; exact Hrv1 |].
  split; [rewrite Hfr3, Hfr2 by discriminate; exact Hd1 |].
  split; [rewrite Hfr3, Hfr2 by discriminate; exact Hp1 |].
  split; [exact Hp3 |].
  split; [apply grid_var_fins; rewrite Hlen1; apply rv200_length |].
  split; [apply grid_var_fins; rewrite Hlen3; apply rv200_length |].
  split; [| lra].
  rewrite Hv1, Hv3. apply Rmult_lt_compat_l; [| exact Hcmp].
  apply pow_lt. lra.
Qed.

End NarrowerClaim.

(** ** Constant factors and sequential updates *)

Section PosteriorAlgebra.
Import NP RealSide Notebook Sample.

Lemma rmul2_scaled (a b : R) (p l : list R) :
  rmul2 (scaled a p) (scaled b l) = scaled (a * b) (rmul2 p l).
Proof.
  unfold rmul2, scaled. revert l.
  induction p as [| x p IH]; intros [| y l]; simpl; try reflexivity.
  rewrite IH. f_equal. ring.
Qed.

Lemma rtrapz_scaled (c d : R) (y : list R) :
  rtrapz (scaled c y) d = c * rtrapz y d.
Proof.
  unfold scaled.
  rewrite (rtrapz_mult (fun x => x) c d y). now rewrite map_id.
Qed.

Lemma rpost_scaled (a b d : R) (p l : list R) :
  a <> 0 -> b <> 0 -> rtrapz (rmul2 p l) d <> 0 ->
  rpost (scaled a p) (scaled b l) d = rpost p l d.
Proof.
  intros Ha Hb HZ. unfold rpost.
  rewrite rmul2_scaled, rtrapz_scaled. unfold scaled.
  rewrite map_map. apply map_ext. intros x. field.
  repeat split; assumption.
Qed.

Lemma length_scaled (c : R) (l : list R) : length (scaled c l) = length l.
Proof. unfold scaled. apply length_map. Qed.

Lemma rmul2_const_l {A : Type} (c : R) (xs : list A) (lk : list R) :
  length xs = length lk ->
  rmul2 (map (fun _ => c) xs) lk = scaled c lk.
Proof.
  unfold rmul2, scaled. revert lk.
  induction xs as [| x xs IH]; intros [| y lk] H; simpl in *;
    try reflexivity; try discriminate.
  f_equal. apply IH. now injection H.
Qed.

Lemma rmul2_div_l (c : R) (a b : list R) :
  rmul2 (map (fun x => x / c) a) b = map (fun x => x / c) (rmul2 a b).
Proof.
  unfold rmul2. revert b.
  induction a as [| x a IH]; intros [| y b]; simpl; try reflexivity.
  rewrite IH. f_equal. unfold Rdiv. ring.
Qed.

Lemma rmul2_assoc (a b c : list R) :
  rmul2 (rmul2 a b) c = rmul2 a (rmul2 b c).
Proof.
  unfold rmul2. revert b c.
  induction a as [| x a IH]; intros [| y b] [| z c]; simpl; try reflexivity.
  rewrite IH. f_equal. ring.
Qed.

(** The flat-prior posterior on reals. *)
Lemma flat_prior_bounds_cancel_gen (xs lk : list R) (pl pu d : R) :
  length xs = length lk -> pl <> pu -> rtrapz lk d <> 0 ->
  post_pdf (prior_pdf (fins xs) (Fin pl) (Fin pu)) (fins lk) (Fin d)
  = Ok (fins (map (fun y => y / rtrapz lk d) lk)).
Proof.
  intros Hlen Hp HZ.
  assert (Hc : 1 / (pu + - pl) <> 0).
  { unfold Rdiv. rewrite Rmult_1_l. apply Rinv_neq_0_compat. lra. }
  rewrite (prior_pdf_fins xs pl pu Hp).
  rewrite post_pdf_fins.
  - do 2 f_equal. rewrite (rmul2_const_l _ xs lk Hlen).
    rewrite rtrapz_scaled. unfold scaled. rewrite map_map.
    apply map_ext. intros y. field. split; [exact HZ | lra].
  - now rewrite length_map.
  - rewrite (rmul2_const_l _ xs lk Hlen), rtrapz_scaled.
    apply Rmult_integral_contrapositive_currified; assumption.
Qed.

End PosteriorAlgebra.

(** ** Shapes, short inputs and the grid *)

Section ShapesAndGrid.
Import NP RealSide Notebook.

(** X4.  The only exception of the three posterior lines is the
    [ValueError] of [prior_pdf*like], raised exactly when the two lengths
    differ and neither is 1; otherwise the result has the common length,
    or the length of the other operand when one operand has length 1. *)
Theorem post_pdf_shapes (prior likelihood : list npfloat) (dr : npfloat) :
  (post_pdf prior likelihood dr = Raise ValueError <->
     length prior <> length likelihood
     /\ length prior <> 1%nat /\ length likelihood <> 1%nat)
  /\ (forall e, post_pdf prior likelihood dr = Raise e -> e = ValueError)
  /\ (forall post,
         post_pdf prior likelihood dr = Ok post ->
         (length prior = length likelihood /\ length post = length prior)
         \/ (length prior = 1%nat /\ length post = length likelihood)
         \/ (length likelihood = 1%nat /\ length post = length prior)).
Proof.
  unfold post_pdf, numer, broadcast2.
  destruct (Nat.eqb (length prior) (length likelihood)) eqn:E.
  - apply Nat.eqb_eq in E. cbn [bind]. split; [split |]; [| | split].
    + discriminate.
    + intros [Hne _]. contradiction.
    + discriminate.
    + intros post Hp. injection Hp as <-. left. split; [exact E |].
      rewrite !length_map, length_combine. lia.
  - apply Nat.eqb_neq in E.
    destruct prior as [| x [| x' p]]; destruct likelihood as [| y [| y' l]];
      cbn [bind length] in *; repeat split;
      try discriminate; try lia; try reflexivity;
      try (intros [_ [H1 H2]]; lia);
      try (intros e H; now injection H as <-);
      try (intros post H; injection H as <-; simpl; rewrite ?length_map;
           lia).
Qed.

(** X5.  A vector of fewer than two samples never passes [test_norm]:
    its trapezoidal sum is the empty sum 0, whatever the sample and the
    spacing are. *)
Theorem test_norm_needs_two_samples (ppdf : list npfloat) (delta : npfloat) :
  (length ppdf < 2)%nat ->
  trapz ppdf delta = Fin 0
  /\ test_norm ppdf delta = Raise AssertionError.
Proof.
  intros H.
  assert (Ht : trapz ppdf delta = Fin 0).
  { destruct ppdf as [| x [| y l]]; [reflexivity | reflexivity |].
    simpl in H. lia. }
  split; [exact Ht |].
  apply (test_norm_Fin ppdf delta 0 Ht). lra.
Qed.

Lemma test_norm_needs_two_samples_witness :
  trapz [Fin 1] (Fin 1) = Fin 0
  /\ test_norm [Fin 1] (Fin 1) = Raise AssertionError.
Proof.
  apply (test_norm_needs_two_samples [Fin 1] (Fin 1)). simpl. lia.
Defined.

Lemma nth_map_R {A : Type} (f : A -> R) (l : list A) (a : A) (i : nat) :
  (i < length l)%nat -> nth i (map f l) 0 = f (nth i l a).
Proof.
  intros H.
  rewrite (nth_indep _ 0 (f a)) by (rewrite length_map; exact H).
  apply map_nth.
Qed.

Lemma nth_map_seq (f : nat -> R) (n i : nat) :
  (i < n)%nat -> nth i (map f (seq 0 n)) 0 = f i.
Proof.
  intros H. rewrite (nth_map_R f _ 0%nat) by (rewrite length_seq; exact H).
  rewrite seq_nth by exact H. reflexivity.
Qed.

(** The samples of [linspace(a, b, m + 2)] on reals. *)
Lemma linspace_spacing (a b : R) (m : nat) :
  spacing (linspace (Fin a) (Fin b) (S (S m)))
  = Ok (Fin ((b + - a) / INR (S m))).
Proof.
  rewrite linspace_fins.
  change (seq 0 (S (S m))) with (0%nat :: 1%nat :: seq 2 m).
  cbn [map fins spacing fsub fneg fadd]. do 2 f_equal.
  change (INR 1) with 1. change (INR 0) with 0. ring.
Qed.

Lemma linspace_increasing (a b : R) (m : nat) :
  a < b ->
  strictly_increasing
    (map (fun i => INR i * ((b + - a) / INR (S m)) + a) (seq 0 (S (S m)))).
Proof.
  intros Hab i j [Hij Hj]. rewrite length_map, length_seq in Hj.
  rewrite !nth_map_seq by lia.
  assert (Hm' : 0 < INR (S m)) by (apply lt_0_INR; lia).
  assert (Hs : 0 < (b + - a) / INR (S m)) by (apply Rdiv_lt_0_compat; lra).
  assert (INR i < INR j) by (apply lt_INR; exact Hij).
  nra.
Qed.

End ShapesAndGrid.

(** ** The shape of the Normal likelihood *)

Section NormalShape.
Import NP RealSide Notebook Sample.




End NormalShape.

(** ** Likelihoods as functions of the data *)

Section DataSets.
Import NP RealSide Notebook Sample.

Lemma rsum_app (a b : list R) : rsum (a ++ b) = rsum a + rsum b.
Proof.
  unfold rsum. induction a as [| x a IH]; simpl; [ring | rewrite IH; ring].
Qed.

Lemma rprod_app (a b : list R) : rprod (a ++ b) = rprod a * rprod b.
Proof.
  unfold rprod. induction a as [| x a IH]; simpl; [ring | rewrite IH; ring].
Qed.

Lemma norm_l_app (d1 d2 : list R) (sig mu : R) :
  norm_l (d1 ++ d2) sig mu = norm_l d1 sig mu * norm_l d2 sig mu.
Proof.
  unfold norm_l. rewrite map_app, rsum_app, <- exp_plus.
  f_equal. unfold Rdiv. ring.
Qed.

Lemma cauchy_l_app (d1 d2 : list R) (scale x0 : R) :
  cauchy_l (d1 ++ d2) scale x0 = cauchy_l d1 scale x0 * cauchy_l d2 scale x0.
Proof. unfold cauchy_l. now rewrite map_app, rprod_app. Qed.

Lemma fins_app (a b : list R) : fins (a ++ b) = fins a ++ fins b.
Proof. apply map_app. Qed.

Lemma rsum_perm (a b : list R) : Permutation a b -> rsum a = rsum b.
Proof.
  unfold rsum. induction 1; simpl; lra.
Qed.

Lemma rprod_perm (a b : list R) : Permutation a b -> rprod a = rprod b.
Proof.
  unfold rprod. induction 1; simpl; nra.
Qed.

(** X12.  Only the square of the scale enters: [norm_like] and
    [cauchy_like] accept a negative [sig] or [scale] and return what
    they return for its absolute value, on every input. *)
Theorem likelihoods_ignore_scale_sign
    (data : list npfloat) (grid : ndarray) (s : npfloat) :
  norm_like data grid (fneg s) = norm_like data grid s
  /\ cauchy_like data grid (fneg s) = cauchy_like data grid s.
Proof.
  assert (H1 : fmul (fneg s) (fneg s) = fmul s s).
  { destruct s; simpl; try reflexivity. f_equal. ring. }
  assert (H2 : fpow (fneg s) 2 = fpow s 2).
  { destruct s; simpl; try reflexivity. f_equal. ring. }
  unfold norm_like, cauchy_like. rewrite H1, H2. split; reflexivity.
Qed.

End DataSets.

(** ** Degenerate scale and empty data *)

Section Degenerate.
Import NP RealSide Notebook.

Lemma sq_residuals_fins (data : list R) (mu : R) :
  map (fun d => fpow (fsub d (Fin mu)) 2) (fins data)
  = fins (map (fun d => (d + - mu) ^ 2) data).
Proof.
  unfold fins. rewrite !map_map. apply map_ext. intros d. reflexivity.
Qed.

Lemma sum_sq_nonneg (data : list R) (mu : R) :
  0 <= rsum (map (fun d => (d + - mu) ^ 2) data).
Proof.
  apply rsum_nonneg. apply List.Forall_forall. intros y Hy.
  apply in_map_iff in Hy. destruct Hy as [d [<- _]]. apply pow2_ge_0.
Qed.

Lemma sum_sq_zero (data : list R) (mu : R) :
  Forall (fun d => d = mu) data ->
  rsum (map (fun d => (d + - mu) ^ 2) data) = 0.
Proof.
  unfold rsum. induction 1 as [| d l Hd Hl IH]; cbn [map fold_right];
    [reflexivity |].
  rewrite IH, Hd. ring.
Qed.

Lemma sum_sq_pos (data : list R) (mu : R) :
  Exists (fun d => d <> mu) data ->
  0 < rsum (map (fun d => (d + - mu) ^ 2) data).
Proof.
  induction 1 as [d l Hd | d l Hl IH].
  - assert (0 < (d + - mu) ^ 2) by (apply sqr_pos_of_neq; lra).
    pose proof (sum_sq_nonneg l mu) as Hn.
    unfold rsum in *. cbn [map fold_right]. lra.
  - assert (0 <= (d + - mu) ^ 2) by apply pow2_ge_0.
    unfold rsum in *. cbn [map fold_right]. lra.
Qed.

Lemma zero_sig_entry (data : list R) (mu : R) :
  let y := fexp (fmul (Fin (-0.5))
                      (norm_q (fins data) (fmul (Fin 0) (Fin 0)) (Fin mu))) in
  (Forall (fun d => d = mu) data -> y = NaN)
  /\ (Exists (fun d => d <> mu) data -> y = Fin 0).
Proof.
  cbv zeta. unfold norm_q.
  rewrite sq_residuals_fins, np_sum_fins.
  cbn [fmul fdiv]. replace (0 * 0) with 0 by ring. rewrite sgn_zero.
  split; intros H.
  - rewrite (sum_sq_zero data mu H), sgn_zero. reflexivity.
  - rewrite (sgn_pos _ (sum_sq_pos data mu H)).
    unfold inf_times. rewrite sgn_neg by lra. reflexivity.
Qed.

Lemma fold_fmul_NaN (l : list npfloat) : fold_left fmul l NaN = NaN.
Proof. induction l as [| x l IH]; simpl; [reflexivity | exact IH]. Qed.

Lemma fold_fmul_In_NaN (l : list npfloat) (a : npfloat) :
  In NaN l -> fold_left fmul l a = NaN.
Proof.
  revert a. induction l as [| x l IH]; intros a H; [destruct H |].
  destruct H as [H | H]; simpl.
  - subst x. replace (fmul a NaN) with NaN by (now destruct a).
    apply fold_fmul_NaN.
  - now apply IH.
Qed.

Lemma fold_fmul_zeros (l : list npfloat) :
  Forall (fun x => x = Fin 0) l -> l <> [] ->
  forall a : R, fold_left fmul l (Fin a) = Fin 0.
Proof.
  induction 1 as [| x l Hx Hl IH]; intros Hne a; [contradiction |].
  subst x. simpl. replace (a * 0) with 0 by ring.
  destruct l as [| y l]; [reflexivity |].
  apply IH. discriminate.
Qed.

Lemma zero_scale_factor (x0 d : R) :
  let y := fdiv (Fin 1)
             (fadd (Fin 1)
                (fdiv (fpow (fsub (Fin x0) (Fin d)) 2) (fpow (Fin 0) 2))) in
  (d = x0 -> y = NaN) /\ (d <> x0 -> y = Fin 0).
Proof.
  cbv zeta. cbn [fsub fneg fadd fpow fdiv].
  replace (0 ^ 2) with 0 by ring. rewrite sgn_zero. split; intros H.
  - subst d. replace ((x0 + - x0) ^ 2) with 0 by ring.
    rewrite sgn_zero. reflexivity.
  - rewrite sgn_pos by (apply sqr_pos_of_neq; lra). reflexivity.
Qed.

End Degenerate.

(** ** The Normal and the Cauchy section *)

Section LocationSections.
Import NP RealSide Notebook Sections Sample.

Lemma rtrapz_rpost (prior lk : list R) (d : R) :
  rtrapz (rmul2 prior lk) d <> 0 -> rtrapz (rpost prior lk d) d = 1.
Proof.
  intros HZ. unfold rpost. rewrite rtrapz_scale. field. exact HZ.
Qed.

Lemma rpost_passes (prior lk : list R) (d : R) :
  length prior = length lk ->
  rtrapz (rmul2 prior lk) d <> 0 ->
  post_pdf (fins prior) (fins lk) (Fin d) = Ok (fins (rpost prior lk d))
  /\ trapz (fins (rpost prior lk d)) (Fin d) = Fin 1
  /\ test_norm (fins (rpost prior lk d)) (Fin d) = Ok tt.
Proof.
  intros Hlen HZ.
  assert (Ht : trapz (fins (rpost prior lk d)) (Fin d) = Fin 1)
    by (rewrite trapz_fins, rtrapz_rpost by exact HZ; reflexivity).
  split; [apply post_pdf_fins; assumption |]. split; [exact Ht |].
  apply (test_norm_Fin _ _ 1 Ht). lra.
Qed.

Lemma Forall_pos_Exists (l : list R) :
  l <> [] -> Forall (fun x => 0 < x) l -> Exists (fun x => 0 < x) l.
Proof.
  intros Hne H. destruct H; [contradiction | now apply Exists_cons_hd].
Qed.

Lemma Forall_pos_nonneg (l : list R) :
  Forall (fun x => 0 < x) l -> Forall (fun x => 0 <= x) l.
Proof.
  intros H. eapply Forall_impl; [exact H |]. intros x Hx. simpl in Hx. lra.
Qed.

Lemma rmul2_pos (a b : list R) :
  Forall (fun x => 0 < x) a -> Forall (fun x => 0 < x) b ->
  Forall (fun x => 0 < x) (rmul2 a b).
Proof.
  apply rmul2_Forall2. intros x y Hx Hy. now apply Rmult_lt_0_compat.
Qed.

(** The normalising constant of positive vectors on a grid of positive
    spacing. *)
Lemma Z_pos (prior lk : list R) (d : R) :
  length prior = length lk -> (2 <= length prior)%nat ->
  Forall (fun x => 0 < x) prior -> Forall (fun x => 0 < x) lk -> 0 < d ->
  0 < rtrapz (rmul2 prior lk) d.
Proof.
  intros Hlen Hn Hp Hl Hd.
  pose proof (rmul2_pos prior lk Hp Hl) as Hm.
  apply rtrapz_pos; [| now apply Forall_pos_nonneg | | exact Hd].
  - rewrite length_rmul2 by exact Hlen. exact Hn.
  - apply Forall_pos_Exists; [| exact Hm].
    intros E. apply (f_equal (@length R)) in E.
    rewrite length_rmul2 in E by exact Hlen. simpl in E. lia.
Qed.

Lemma rpost_pos (prior lk : list R) (d : R) :
  length prior = length lk -> (2 <= length prior)%nat ->
  Forall (fun x => 0 < x) prior -> Forall (fun x => 0 < x) lk -> 0 < d ->
  Forall (fun x => 0 < x) (rpost prior lk d).
Proof.
  intros Hlen Hn Hp Hl Hd.
  pose proof (Z_pos prior lk d Hlen Hn Hp Hl Hd) as HZ.
  unfold rpost. rewrite Forall_map.
  eapply Forall_impl; [exact (rmul2_pos prior lk Hp Hl) |].
  intros x Hx. simpl in *. now apply Rdiv_lt_0_compat.
Qed.

Lemma length_rpost (prior lk : list R) (d : R) :
  length prior = length lk -> length (rpost prior lk d) = length prior.
Proof.
  intros H. unfold rpost. rewrite length_map. now apply length_rmul2.
Qed.

(** The shared lines on a finite increasing grid, for a likelihood that
    is finite and positive on finite grids. *)
Lemma grid_posterior_lines_pass (like_fn : ndarray -> result ndarray)
    (l : R -> R) (lo hi : R) :
  (forall xs, like_fn (Vector (fins xs)) = Ok (Vector (fins (map l xs)))) ->
  (forall x, 0 < l x) ->
  lo < hi ->
  exists post,
    grid_posterior_lines like_fn (Fin lo) (Fin hi) = Ok (fins post)
    /\ length post = 200%nat
    /\ Forall (fun x => 0 < x) post
    /\ trapz (fins post) (Fin ((hi + - lo) / INR 199)) = Fin 1.
Proof.
  intros Hl Hpos Hlt. unfold grid_posterior_lines.
  change 200%nat with (S (S 198)).
  rewrite linspace_spacing. cbn [bind].
  rewrite linspace_fins.
  set (xs := map _ (seq 0 (S (S 198)))).
  assert (Hxs : length xs = 200%nat)
    by (unfold xs; rewrite length_map, length_seq; reflexivity).
  clearbody xs.
  rewrite prior_pdf_fins by lra. rewrite Hl. cbn [bind as_operand].
  set (d := (hi + - lo) / INR 199).
  assert (Hd : 0 < d).
  { apply Rdiv_lt_0_compat; [lra | apply lt_0_INR; lia]. }
  set (pr := map (fun _ => 1 / (100 + - -100)) xs).
  assert (Hpr : Forall (fun x => 0 < x) pr).
  { apply map_const_Forall. apply Rdiv_lt_0_compat; lra. }
  assert (Hlk : Forall (fun x => 0 < x) (map l xs)).
  { rewrite Forall_map. apply Forall_forall. intros x _. apply Hpos. }
  assert (Hlen : length pr = length (map l xs))
    by (unfold pr; now rewrite !length_map).
  assert (Hn : (2 <= length pr)%nat)
    by (unfold pr; rewrite length_map, Hxs; lia).
  pose proof (Z_pos pr (map l xs) d Hlen Hn Hpr Hlk Hd) as HZ.
  destruct (rpost_passes pr (map l xs) d Hlen) as (Hp & Ht & Hn1);
    [lra |].
  rewrite Hp. cbn [bind]. rewrite Hn1. cbn [bind].
  exists (rpost pr (map l xs) d).
  split; [reflexivity |]. split.
  - rewrite length_rpost by exact Hlen. unfold pr. now rewrite length_map.
  - split; [now apply rpost_pos | exact Ht].
Qed.

End LocationSections.

(** ** A grid of one point, and the loop over data sets *)

Section PointGridAndLoop.
Import NP RealSide Notebook Sections Sample.

Lemma rtrapz_zero_spacing (y : list R) : rtrapz y 0 = 0.
Proof.
  unfold rtrapz, rsum. induction (pairs y) as [| p l IH]; simpl;
    [reflexivity | rewrite IH; unfold Rdiv; ring].
Qed.

Lemma fdiv_pos_zero (x : R) : 0 < x -> fdiv (Fin x) (Fin 0) = PInf.
Proof. intros H. cbn [fdiv]. now rewrite sgn_zero, sgn_pos. Qed.

Lemma post_pdf_zero_spacing (prior lk : list R) :
  length prior = length lk ->
  Forall (fun x => 0 < x) prior -> Forall (fun x => 0 < x) lk ->
  post_pdf (fins prior) (fins lk) (Fin 0)
  = Ok (map (fun _ => PInf) (rmul2 prior lk)).
Proof.
  intros Hlen Hp Hl. unfold post_pdf.
  rewrite numer_fins by exact Hlen. cbn [bind]. unfold denom.
  rewrite trapz_fins, rtrapz_zero_spacing. f_equal.
  pose proof (rmul2_pos prior lk Hp Hl) as Hm.
  unfold fins. rewrite map_map.
  induction Hm as [| x l Hx Hm IH]; [reflexivity |].
  cbn [map]. rewrite IH. f_equal. now apply fdiv_pos_zero.
Qed.

Lemma fold_fadd_NaN (l : list npfloat) : fold_left fadd l NaN = NaN.
Proof. induction l as [| x l IH]; simpl; [reflexivity | exact IH]. Qed.

Lemma trapz_inf_zero {A : Type} (l : list A) :
  (2 <= length l)%nat -> trapz (map (fun _ => PInf) l) (Fin 0) = NaN.
Proof.
  intros H. destruct l as [| a [| b t]]; [simpl in H; lia | simpl in H; lia |].
  unfold trapz. rewrite combine_tl_removelast.
  cbn [map pairs]. unfold np_sum. cbn [fold_left fst snd fadd fmul].
  unfold inf_times. rewrite sgn_zero. cbn [fdiv fadd].
  apply fold_fadd_NaN.
Qed.

Lemma grid_posterior_lines_point (like_fn : ndarray -> result ndarray)
    (l : R -> R) (a : R) :
  (forall xs, like_fn (Vector (fins xs)) = Ok (Vector (fins (map l xs)))) ->
  (forall x, 0 < l x) ->
  grid_posterior_lines like_fn (Fin a) (Fin a) = Raise AssertionError.
Proof.
  intros Hl Hpos. unfold grid_posterior_lines.
  change 200%nat with (S (S 198)).
  rewrite linspace_spacing. cbn [bind].
  rewrite linspace_fins.
  set (xs := map _ (seq 0 (S (S 198)))).
  assert (Hxs : length xs = 200%nat)
    by (unfold xs; rewrite length_map, length_seq; reflexivity).
  clearbody xs.
  replace ((a + - a) / INR 199) with 0
    by (field; apply not_0_INR; lia).
  rewrite prior_pdf_fins by lra. rewrite Hl. cbn [bind as_operand].
  rewrite post_pdf_zero_spacing.
  - cbn [bind]. rewrite test_norm_not_Fin; [reflexivity |].
    rewrite trapz_inf_zero; [reflexivity |].
    rewrite length_rmul2 by (now rewrite !length_map).
    rewrite length_map, Hxs. lia.
  - now rewrite !length_map.
  - apply map_const_Forall. apply Rdiv_lt_0_compat; lra.
  - rewrite Forall_map. apply Forall_forall. intros x _. apply Hpos.
Qed.

End PointGridAndLoop.

(** ** The Poisson cells in notebook order *)

Section PoissonCells.
Import NP RealSide Notebook Cells Sections.

(** The 4th-case cell on a namespace that binds a frozen exponential
    prior, a finite grid, a finite likelihood and a finite spacing. *)
Lemma cell_case4_spec (ns : gmap string value) (rv lk : list R) (s d : R) :
  ns !! "prior" = Some (VGamma1 (Fin s)) ->
  ns !! "rvals" = Some (VArray (fins rv)) ->
  ns !! "like" = Some (VArray (fins lk)) ->
  ns !! "dr" = Some (VFloat (Fin d)) ->
  0 < s ->
  length rv = length lk ->
  rtrapz (rmul2 (map (gamma1_l s) rv) lk) d <> 0 ->
  exists ns',
    cell_case4 ns = Ok ns'
    /\ ns' !! "post_pdf4" =
       Some (VArray (fins (rpost (map (gamma1_l s) rv) lk d)))
    /\ (forall k : string,
           k <> "numer" -> k <> "denom" -> k <> "post_pdf4" ->
           ns' !! k = ns !! k).
Proof.
  intros Hpr Hrv Hlk Hd Hs Hlen HZ.
  unfold cell_case4, get_gamma1, get_array, get_float.
  rewrite Hpr, Hrv, Hlk, Hd. cbn [bind]. cbv zeta.
  rewrite gamma_prior_fins by exact Hs.
  rewrite numer_fins by (rewrite length_map; exact Hlen). cbn [bind].
  rewrite bayes_fins; [| rewrite length_map; exact Hlen | exact HZ].
  eexists. split; [reflexivity |]. split.
  - rewrite lookup_insert_eq. reflexivity.
  - intros k H1 H2 H3.
    rewrite !lookup_insert_ne by congruence. reflexivity.
Qed.

Lemma cell_case2_binds_prior (ns ns' : gmap string value) :
  cell_case2 ns = Ok ns' -> ns' !! "prior" = Some (VGamma1 (Fin 10)).
Proof.
  unfold cell_case2, bayes. cbv zeta.
  destruct (get_array _ "rvals") as [rv | e]; [| discriminate].
  destruct (get_array _ "like") as [lk | e]; [| discriminate].
  cbn [bind].
  destruct (numer _ lk) as [nm | e]; [| discriminate]. cbn [bind].
  destruct (get_float _ "dr") as [d | e]; [| discriminate].
  cbn [bind].
  destruct (post_pdf _ lk d) as [post | e]; [| discriminate]. cbn [bind].
  intros H. injection H as <-.
  rewrite !lookup_insert_ne by discriminate.
  rewrite lookup_insert_eq. reflexivity.
Qed.

(** A test cell on a posterior of trapezoidal sum 1. *)
Lemma cell_test_passes (name : string) (ns : gmap string value)
    (p : list R) (d : R) :
  ns !! name = Some (VArray (fins p)) ->
  ns !! "dr" = Some (VFloat (Fin d)) ->
  rtrapz p d = 1 ->
  cell_test name ns = Ok ns.
Proof.
  intros Hp Hd H1. unfold cell_test, get_array, get_float.
  rewrite Hp, Hd. cbn [bind].
  assert (Ht : trapz (fins p) (Fin d) = Fin 1)
    by (rewrite trapz_fins, H1; reflexivity).
  rewrite (proj1 (test_norm_Fin _ _ 1 Ht)) by lra. reflexivity.
Qed.

(** X19.  Run in the order of the notebook from an empty namespace, the
    four Poisson cells and the [test_norm] cell after each of them all
    complete: no assertion fails, and each of [post_pdf], [post_pdf2],
    [post_pdf3], [post_pdf4] is left bound to a vector of 200 samples
    whose trapezoidal sum is 1. *)
Theorem poisson_cells_run :
  exists (ns : gmap string value) (dr : npfloat),
    run poisson_cells ∅ = Ok ns
    /\ ns !! "dr" = Some (VFloat dr)
    /\ Forall (fun name =>
                 exists p, ns !! name = Some (VArray p)
                           /\ length p = 200%nat
                           /\ trapz p dr = Fin 1)
              ["post_pdf"; "post_pdf2"; "post_pdf3"; "post_pdf4"]%string.
Proof.
  set (L1 := map (poisson_l 16 2) rv200).
  set (L3 := map (poisson_l 80 10) rv200).
  set (F := map (fun _ : R => 1 / (100000 + - 0)) rv200).
  set (G := map (gamma1_l 10) rv200).
  assert (HF : Forall (fun x => 0 < x) F)
    by (apply map_const_Forall; apply Rdiv_lt_0_compat; lra).
  assert (HG : Forall (fun x => 0 < x) G) by exact gamma_prior_200_pos.
  assert (HlF : length F = 200%nat) by (unfold F; now rewrite length_map).
  assert (HlG : length G = 200%nat) by (unfold G; now rewrite length_map).
  assert (Hl1 : length L1 = 200%nat) by (unfold L1; now rewrite length_map).
  assert (Hl3 : length L3 = 200%nat) by (unfold L3; now rewrite length_map).
  assert (Z1 : rtrapz (rmul2 F L1) (20 / 199) <> 0)
    by (apply Rgt_not_eq, Z200_pos; [exact HlF | exact HF | lra]).
  assert (Z2 : rtrapz (rmul2 G L1) (20 / 199) <> 0)
    by (apply Rgt_not_eq, Z200_pos; [exact HlG | exact HG | lra]).
  assert (Z3 : rtrapz (rmul2 F L3) (20 / 199) <> 0)
    by (apply Rgt_not_eq, Z200_pos; [exact HlF | exact HF | lra]).
  assert (Z4 : rtrapz (rmul2 G L3) (20 / 199) <> 0)
    by (apply Rgt_not_eq, Z200_pos; [exact HlG | exact HG | lra]).
  destruct (cell_case1_spec ∅)
    as (ns1 & H1 & Hp1 & Hrv1 & Hlk1 & Hd1 & Hu1 & Hlo1).
  pose proof (cell_test_passes "post_pdf" ns1 _ _ Hp1 Hd1
                (rtrapz_rpost F L1 _ Z1)) as T1.
  destruct (cell_case2_spec ns1 rv200 L1 (20 / 199))
    as (ns2 & H2 & Hp2 & Hfr2); try assumption.
  pose proof (cell_case2_binds_prior ns1 ns2 H2) as Hpr2.
  assert (Hd2 : ns2 !! "dr" = Some (VFloat (Fin (20 / 199))))
    by (rewrite Hfr2 by discriminate; exact Hd1).
  pose proof (cell_test_passes "post_pdf2" ns2 _ _ Hp2 Hd2
                (rtrapz_rpost G L1 _ Z2)) as T2.
  destruct (cell_case3_spec ns2 rv200 0 100000 (20 / 199))
    as (ns3 & H3 & Hp3 & Hlk3 & Hfr3); try assumption.
  { rewrite Hfr2 by discriminate. exact Hrv1. }
  { rewrite Hfr2 by discriminate. exact Hu1. }
  { rewrite Hfr2 by discriminate. exact Hlo1. }
  { lra. }
  assert (Hd3 : ns3 !! "dr" = Some (VFloat (Fin (20 / 199))))
    by (rewrite Hfr3 by discriminate; exact Hd2).
  pose proof (cell_test_passes "post_pdf3" ns3 _ _ Hp3 Hd3
                (rtrapz_rpost F L3 _ Z3)) as T3.
  destruct (cell_case4_spec ns3 rv200 L3 10 (20 / 199))
    as (ns4 & H4 & Hp4 & Hfr4); try assumption.
  { rewrite Hfr3 by discriminate. exact Hpr2. }
  { rewrite Hfr3, Hfr2 by discriminate. exact Hrv1. }
  { lra. }
  assert (Hd4 : ns4 !! "dr" = Some (VFloat (Fin (20 / 199))))
    by (rewrite Hfr4 by discriminate; exact Hd3).
  pose proof (cell_test_passes "post_pdf4" ns4 _ _ Hp4 Hd4
                (rtrapz_rpost G L3 _ Z4)) as T4.
  exists ns4, (Fin (20 / 199)).
  split.
  { unfold poisson_cells. cbn [run].
    rewrite H1; cbn [bind]. rewrite T1; cbn [bind].
    rewrite H2; cbn [bind]. rewrite T2; cbn [bind].
    rewrite H3; cbn [bind]. rewrite T3; cbn [bind].
    rewrite H4; cbn [bind]. rewrite T4; cbn [bind]. reflexivity. }
  split; [exact Hd4 |].
  repeat constructor.
  - exists (fins (rpost F L1 (20 / 199))). split.
    + rewrite Hfr4, Hfr3, Hfr2 by discriminate. exact Hp1.
    + split; [unfold fins; rewrite length_map, length_rpost; congruence |].
      rewrite trapz_fins, rtrapz_rpost by exact Z1. reflexivity.
  - exists (fins (rpost G L1 (20 / 199))). split.
    + rewrite Hfr4, Hfr3 by discriminate. exact Hp2.
    + split; [unfold fins; rewrite length_map, length_rpost; congruence |].
      rewrite trapz_fins, rtrapz_rpost by exact Z2. reflexivity.
  - exists (fins (rpost F L3 (20 / 199))). split.
    + rewrite Hfr4 by discriminate. exact Hp3.
    + split; [unfold fins; rewrite length_map, length_rpost; congruence |].
      rewrite trapz_fins, rtrapz_rpost by exact Z3. reflexivity.
  - exists (fins (rpost G L3 (20 / 199))). split.
    + exact Hp4.
    + split; [unfold fins; rewrite length_map, length_rpost; congruence |].
      rewrite trapz_fins, rtrapz_rpost by exact Z4. reflexivity.
Qed.

(** X20.  The 1st-case cell runs from any namespace.  The later cells
    depend on what earlier cells left: when [rvals] is unbound the 2nd
    and the 3rd case raise [NameError] for it, when [prior] is unbound
    the 4th case does, and a [test_norm] cell raises [NameError] for a
    posterior that no cell has stored yet. *)
Theorem later_cells_need_earlier_names (ns : gmap string value) :
  (exists ns', cell_case1 ns = Ok ns')
  /\ (ns !! "rvals" = None ->
      cell_case2 ns = Raise (NameError "rvals")
      /\ cell_case3 ns = Raise (NameError "rvals"))
  /\ (ns !! "prior" = None -> cell_case4 ns = Raise (NameError "prior"))
  /\ (forall name : string,
         ns !! name = None -> cell_test name ns = Raise (NameError name)).
Proof.
  split; [| split; [| split]].
  - destruct (cell_case1_spec ns) as (ns' & H & _). now exists ns'.
  - intros H. split.
    + unfold cell_case2, get_array.
      rewrite !lookup_insert_ne by discriminate. now rewrite H.
    + unfold cell_case3, get_array.
      rewrite !lookup_insert_ne by discriminate. now rewrite H.
  - intros H. unfold cell_case4, get_gamma1. now rewrite H.
  - intros name H. unfold cell_test, get_array. now rewrite H.
Qed.

End PoissonCells.

(** ** The Poisson posterior on a grid *)

Section PoissonPosterior.
Import NP RealSide Notebook Sample.






End PoissonPosterior.

(** ** Operands in range *)

Section RangeFacts.
Import NP RealSide Notebook Range.

Lemma pow2_pos (k : nat) : 0 < 2 ^ k.
Proof. apply pow_lt. lra. Qed.

Lemma pow2_ge_1024 (k : nat) : (10 <= k)%nat -> 1024 <= 2 ^ k.
Proof.
  intros H. replace 1024 with (2 ^ 10) by (simpl; lra).
  apply Rle_pow; [lra | exact H].
Qed.

Lemma in_range_pos (k : nat) (x : R) : in_range k x -> 0 < x.
Proof.
  intros [H _]. pose proof (Rinv_0_lt_compat _ (pow2_pos k)). lra.
Qed.

Lemma in_range_small (k : nat) (x : R) :
  (10 <= k)%nat -> / 1024 <= x <= 1024 -> in_range k x.
Proof.
  intros Hk [H1 H2]. pose proof (pow2_ge_1024 k Hk) as Hp.
  assert (/ 2 ^ k <= / 1024) by (apply Rinv_le_contravar; lra).
  split; lra.
Qed.

Lemma sample_small (k : nat) (x : R) :
  (10 <= k)%nat -> x = 0 \/ / 1024 <= x <= 1024 -> sample k x.
Proof.
  intros Hk [H | H]; [left; exact H | right; now apply in_range_small].
Qed.

Lemma bounded_small (k : nat) (x : R) :
  (10 <= k)%nat -> - 1024 <= x <= 1024 -> bounded k x.
Proof.
  intros Hk H. pose proof (pow2_ge_1024 k Hk) as Hp.
  unfold bounded. apply Rabs_le. lra.
Qed.

Lemma in_range_abs_small (k : nat) (x : R) :
  (10 <= k)%nat -> / 1024 <= x <= 1024 -> in_range k (Rabs x).
Proof.
  intros Hk H. rewrite Rabs_pos_eq by lra. now apply in_range_small.
Qed.

Lemma in_range_abs_neq (k : nat) (x : R) : in_range k (Rabs x) -> x <> 0.
Proof.
  intros H ->. apply in_range_pos in H. rewrite Rabs_R0 in H. lra.
Qed.

Lemma sample_nonneg (k : nat) (x : R) : sample k x -> 0 <= x.
Proof.
  intros [-> | H]; [lra | apply in_range_pos in H; lra].
Qed.

Lemma Forall_sample_nonneg (k : nat) (l : list R) :
  Forall (sample k) l -> Forall (fun x => 0 <= x) l.
Proof.
  intros H. eapply Forall_impl; [exact H |]. intros x. apply sample_nonneg.
Qed.

Lemma grid_size_two (N : nat) : grid_size N -> (2 <= N)%nat.
Proof. unfold grid_size. lia. Qed.

(** In the regime of the posterior lines the normalizing constant is
    positive. *)
Lemma posterior_regime_Z (prior lk : list R) (d : R) :
  posterior_regime prior lk d -> 0 < rtrapz (rmul2 prior lk) d.
Proof.
  intros (Hlen & HN & Hp & Hl & Hd & Hex).
  apply rtrapz_pos.
  - rewrite length_rmul2 by exact Hlen. now apply grid_size_two.
  - apply (rmul2_Forall2 (fun x => 0 <= x) (fun x => 0 <= x));
      [| now apply (Forall_sample_nonneg 60)
       | now apply (Forall_sample_nonneg 300)].
    intros x y Hx Hy. now apply Rmult_le_pos.
  - exact Hex.
  - now apply (in_range_pos 60).
Qed.

End RangeFacts.

(** Range side conditions at concrete operands. *)
Ltac small :=
  first [ apply sample_small; [lia | first [left; lra | right; lra]]
        | apply in_range_abs_small; [lia | lra]
        | apply in_range_small; [lia | lra]
        | apply bounded_small; [lia | lra] ].

Ltac small_all :=
  repeat match goal with
         | |- Forall _ [] => constructor
         | |- Forall _ (_ :: _) => constructor; [small |]
         end.

(** ** What binary64 does out of range *)

Section Binary64Replay.
Import NP B64.
Local Open Scope float_scope.

#[local] Set Warnings "-inexact-float".


End Binary64Replay.

(** ** The normalizer and the validator in range *)

Section NormalizerClaims.
Import NP RealSide Notebook Range.



(** C2, as the claim states it, fails: the comparison to two
    significant digits is not a relative tolerance of 1%.  The constant
    vector 1.05 over a unit interval has trapezoidal sum 1.05, which is
    5% off, and [test_norm] accepts it. *)
Lemma test_norm_accepts_five_percent :
  exists I : R,
    trapz (fins [1.05; 1.05]) (Fin 1) = Fin I
    /\ 0.01 * Rabs 1 < Rabs (I - 1)
    /\ test_norm (fins [1.05; 1.05]) (Fin 1) = Ok tt.
Proof.
  exists (rtrapz [1.05; 1.05] 1).
  assert (HI : rtrapz [1.05; 1.05] 1 = 1.05)
    by (unfold rtrapz, rsum; simpl; lra).
  split; [apply trapz_fins |]. split.
  - rewrite HI, Rabs_R1. rewrite Rabs_pos_eq; lra.
  - apply (test_norm_Fin _ _ _ (trapz_fins _ _)). rewrite HI. lra.
Qed.

(** C2, amended.  [test_norm] recomputes the trapezoidal sum and
    compares it with 1 as numpy compares to two significant digits: both
    numbers are scaled by the power of ten below their mean, and the
    difference must stay under 0.1.  For a vector of samples in range on
    2 to [2^20] points the sum [I] is a non-negative number; [test_norm]
    returns normally when [0.9901 <= I <= 1.0999] and raises
    [AssertionError] when [I <= 0.9899] or [1.1001 <= I].  It also
    raises whenever the sum is not a finite number.  On the all-ones
    vector over the 200-point grid on [0, 20], whose sum is about 20, it
    raises. *)
Theorem test_norm_acceptance_band :
  (forall (p : list R) (d : R),
      Forall (sample 100) p -> in_range 100 d -> grid_size (length p) ->
      exists I : R,
        trapz (fins p) (Fin d) = Fin I
        /\ 0 <= I
        /\ (0.9901 <= I <= 1.0999 -> test_norm (fins p) (Fin d) = Ok tt)
        /\ (I <= 0.9899 \/ 1.1001 <= I ->
            test_norm (fins p) (Fin d) = Raise AssertionError))
  /\ (forall (ppdf : list npfloat) (delta : npfloat),
         isfinite (trapz ppdf delta) = false ->
         test_norm ppdf delta = Raise AssertionError)
  /\ (let rvals := linspace (Fin 0) (Fin 20) 200 in
      exists (dr : npfloat) (I : R),
        spacing rvals = Ok dr
        /\ trapz (ones_like rvals) dr = Fin I
        /\ 19 <= I <= 21
        /\ test_norm (ones_like rvals) dr = Raise AssertionError).
Proof.
  split; [| split].
  - intros p d Hp Hd _. exists (rtrapz p d).
    pose proof (trapz_fins p d) as Ht.
    destruct (test_norm_Fin _ _ _ Ht) as [Hin Hout].
    split; [exact Ht |]. split.
    + apply rtrapz_nonneg; [now apply (Forall_sample_nonneg 100) |].
      apply in_range_pos in Hd. lra.
    + split; intros H; [apply Hin | apply Hout]; lra.
  - exact test_norm_not_Fin.
  - cbv zeta. exists (Fin (20 / 199)), 20.
    assert (Ht : trapz (ones_like (linspace (Fin 0) (Fin 20) 200))
                   (Fin (20 / 199)) = Fin 20).
    { rewrite rvals_200, ones_like_fins, trapz_fins, rtrapz_ones.
      rewrite length_map, length_seq. f_equal.
      replace (INR (200 - 1)) with 199 by (rewrite INR_IZR_INZ; reflexivity).
      lra. }
    split; [exact spacing_200 |]. split; [exact Ht |]. split; [lra |].
    apply (test_norm_Fin _ _ _ Ht). lra.
Qed.

(** C3, amended.  [post_pdf] checks nothing about the normalizing
    constant [Z]: for every prior and likelihood whose shapes combine it
    returns the product divided elementwise by [Z], of the length of the
    product, and raises nothing.  When [Z] is NaN every element of the
    output is NaN; when [Z] is zero no element of the output is a finite
    number: each is an infinity or NaN. *)
Theorem post_pdf_never_checks_Z
    (prior likelihood nm : list npfloat) (dr : npfloat) :
  numer prior likelihood = Ok nm ->
  exists post,
    post_pdf prior likelihood dr = Ok post
    /\ post = map (fun x => fdiv x (denom nm dr)) nm
    /\ length post = length nm
    /\ (denom nm dr = NaN -> Forall (fun x => x = NaN) post)
    /\ (denom nm dr = Fin 0 -> Forall (fun x => isfinite x = false) post).
Proof.
  intros Hnm. exists (map (fun x => fdiv x (denom nm dr)) nm).
  split; [unfold post_pdf; rewrite Hnm; reflexivity |].
  split; [reflexivity |]. split; [apply length_map |]. split.
  - intros ->. rewrite Forall_map. apply Forall_forall. intros x _.
    apply fdiv_NaN_r.
  - intros ->. rewrite Forall_map. apply Forall_forall. intros x _.
    destruct x as [r | | |]; cbn [fdiv]; rewrite ?sgn_zero;
      try reflexivity.
    destruct (sgn r); reflexivity.
Qed.

Lemma post_pdf_never_checks_Z_witness :
  exists post,
    post_pdf [Fin 1; Fin 1] [Fin 0; Fin 0] (Fin 1) = Ok post
    /\ length post = 2%nat.
Proof.
  destruct (post_pdf_never_checks_Z [Fin 1; Fin 1] [Fin 0; Fin 0]
              (fins [1 * 0; 1 * 0]) (Fin 1) eq_refl)
    as (post & Hp & _ & Hl & _).
  exists post. split; [exact Hp | exact Hl].
Defined.

End NormalizerClaims.

Section Binary64Cauchy.
Import NP B64.
Local Open Scope float_scope.

#[local] Set Warnings "-inexact-float".


(** C10, as the claim states it, fails in binary64.  For the
    observation 0 and the scale 3, at the locations 1e200 and 2e200 the
    square [(x0 - data)**2] overflows, and [cauchy_like] returns 0 at
    both: the values leave (0, 1].  On that increasing grid the
    normalizing constant of the flat-prior posterior is 0 and the
    normalizer divides 0 by 0. *)
Lemma cauchy_like_zero_far_grid :
  exists (nm : list float),
    cauchy_like [0] (Vector64 [1e200; 2e200]) 3 = Ok (Vector64 [0; 0])
    /\ cauchy_like [0] (Scalar64 1e200) 3 = Ok (Scalar64 0)
    /\ spacing [1e200; 2e200] = Ok 1e200
    /\ numer (prior_pdf [1e200; 2e200] (-100) 100) [0; 0] = Ok nm
    /\ denom nm 1e200 = 0
    /\ post_pdf (prior_pdf [1e200; 2e200] (-100) 100) [0; 0] 1e200
       = Ok [nan; nan].
Proof.
  eexists. repeat split; vm_compute; reflexivity.
Qed.

End Binary64Cauchy.

(** ** The evaluators and the density vectors in range *)

Section EvaluatorClaims.
Import NP RealSide Notebook Range.






(** C10, amended.  In the regime of the Cauchy likelihood (scale in
    range, at most 20 bounded observations, each within 64 scales of
    every location: no overflow and no underflow in binary64), every
    value that [cauchy_like] returns is a finite number in (0, 1], for a
    scalar location and for each entry of a vector grid.  On a grid of 2
    to [2^20] such locations with a spacing in range and the flat prior,
    the normalizing constant of the Cauchy posterior is finite and
    strictly positive, and [post_pdf] returns a vector of finite
    numbers: no division by zero takes place. *)
Theorem cauchy_like_unit_interval (data xs : list R) (scale : R) :
  cauchy_regime data xs scale ->
  Forall (fun x0 => exists v,
            cauchy_like (fins data) (Scalar (Fin x0)) (Fin scale)
              = Ok (Scalar (Fin v))
            /\ 0 < v <= 1) xs
  /\ (exists vs,
         cauchy_like (fins data) (Vector (fins xs)) (Fin scale)
           = Ok (Vector (fins vs))
         /\ length vs = length xs
         /\ Forall (fun v => 0 < v <= 1) vs)
  /\ (forall pl pu dx : R,
         grid_size (length xs) ->
         spacing (fins xs) = Ok (Fin dx) -> in_range 60 dx ->
         in_range 60 (pu - pl) -> bounded 60 pl -> bounded 60 pu ->
         exists vs nm Z post,
           cauchy_like (fins data) (Vector (fins xs)) (Fin scale)
             = Ok (Vector vs)
           /\ numer (prior_pdf (fins xs) (Fin pl) (Fin pu)) vs = Ok nm
           /\ denom nm (Fin dx) = Fin Z /\ 0 < Z
           /\ post_pdf (prior_pdf (fins xs) (Fin pl) (Fin pu)) vs (Fin dx)
              = Ok (fins post)
           /\ length post = length xs).
Proof.
  intros (Hsc & _). pose proof (in_range_abs_neq _ _ Hsc) as Hs.
  split; [| split].
  - apply Forall_forall. intros x0 _. exists (cauchy_l data scale x0). split.
    + unfold cauchy_like. rewrite cauchy_prod_fins by exact Hs. reflexivity.
    + apply cauchy_l_range, Hs.
  - apply cauchy_like_positive, Hs.
  - intros pl pu dx HN Hdx Hd Hp _ _.
    apply grid_size_two in HN. apply in_range_pos in Hd, Hp.
    destruct (cauchy_like_positive data xs scale Hs) as (vs & Hvs & Hlv & Hr).
    destruct (flat_prior_positive xs pl pu) as (pr & Hpr & Hlp & Hpp); [lra |].
    assert (Hvpos : Forall (fun x => 0 < x) vs).
    { eapply Forall_impl; [exact Hr |]. intros x Hx. simpl in Hx. tauto. }
    assert (Hvnn : Forall (fun x => 0 <= x) vs).
    { eapply Forall_impl; [exact Hr |]. intros x Hx. simpl in Hx. lra. }
    assert (Hex : Exists (fun x => 0 < x) vs).
    { destruct vs as [| v vs]; [simpl in Hlv; lia |].
      apply Exists_cons_hd. inversion Hvpos; assumption. }
    destruct (posterior_density pr vs dx)
      as (post & Z & HZ & HZpos & Hnm & Hpost & Hlpost & _);
      try assumption; try lia.
    exists (fins vs), (fins (rmul2 pr vs)), Z, post.
    rewrite Hpr. repeat split; try assumption.
    + unfold denom. rewrite trapz_fins, HZ. reflexivity.
    + lia.
Qed.

Lemma cauchy_like_unit_interval_witness :
  Forall (fun x0 => exists v,
            cauchy_like (fins [2; 4]) (Scalar (Fin x0)) (Fin 3)
              = Ok (Scalar (Fin v))
            /\ 0 < v <= 1) [0; 1]
  /\ (exists vs,
         cauchy_like (fins [2; 4]) (Vector (fins [0; 1])) (Fin 3)
           = Ok (Vector (fins vs))
         /\ length vs = length [0; 1]
         /\ Forall (fun v => 0 < v <= 1) vs).
Proof.
  destruct (cauchy_like_unit_interval [2; 4] [0; 1] 3) as (H1 & H2 & _).
  - split; [small |]. split; [small_all |]. split; [small_all |].
    split; [simpl; lia |].
    repeat (constructor; [repeat (constructor;
      [unfold Rabs; repeat destruct (Rcase_abs _); lra |]); constructor |]).
    constructor.
  - split; [exact H1 | exact H2].
Defined.

End EvaluatorClaims.

(** ** Determinism of the cells and of the evaluators *)

Section Determinism.
Import NP RealSide Notebook Cells Buffer.

(** The loop of [cauchy_like] has overwritten the first [i] entries of
    its buffer. *)
Lemma fill_lvals_spec (data : list npfloat) (scale2 : npfloat)
    (x0vals : list npfloat) (todo : nat) :
  forall (i : nat) (lvals : list npfloat),
    (i + todo)%nat = length x0vals ->
    length lvals = length x0vals ->
    take i lvals = map (cauchy_prod data scale2) (take i x0vals) ->
    fill_lvals data scale2 x0vals i todo lvals
    = Ok (map (cauchy_prod data scale2) x0vals).
Proof.
  induction todo as [| todo IH]; intros i lvals Hi Hlen Hdone.
  - cbn [fill_lvals]. f_equal.
    rewrite <- (take_ge lvals i) by lia.
    rewrite Hdone, take_ge by lia. reflexivity.
  - cbn [fill_lvals].
    destruct (lookup_lt_is_Some_2 x0vals i) as [x0 Hx0]; [lia |].
    rewrite Hx0. destruct (decide (i < length lvals)%nat) as [Hlt | Hge];
      [| lia].
    apply IH.
    + lia.
    + now rewrite length_insert.
    + rewrite (take_S_r _ _ (cauchy_prod data scale2 x0))
        by (now apply list_lookup_insert_eq).
      rewrite take_insert_ge by lia.
      rewrite (take_S_r _ _ _ Hx0), map_app, Hdone. reflexivity.
Qed.

(** Whatever the buffer held, the loop returns what [cauchy_like]
    returns. *)
Lemma cauchy_like_lvals_spec (data x0vals garbage : list npfloat)
    (scale : npfloat) :
  length garbage = length x0vals ->
  cauchy_like_lvals data x0vals scale garbage
  = Ok (map (cauchy_prod data (fpow scale 2)) x0vals).
Proof.
  intros Hlen. unfold cauchy_like_lvals.
  apply fill_lvals_spec; [lia | exact Hlen | reflexivity].
Qed.

(** C8.  The posterior cells and the evaluators are deterministic
    functions of their inputs: two runs on equal inputs give the same
    output or the same error.  The inputs of a posterior cell are the
    names it reads from the namespace: the 1st case reads none, so its
    posterior is the same from every namespace; the 2nd case reads
    [rvals], [like], [dr]; the 3rd [rvals], [prior_u], [prior_l], [dr];
    the 4th [prior], [rvals], [like], [dr]; two namespaces that agree on
    those names give the same posterior or the same error, whatever else
    they hold, and running a cell again on the namespace it has just
    produced changes nothing.  The evaluators [norm_like] and
    [cauchy_like] are functions of their arguments: the result of
    [cauchy_like] does not depend on what its buffer
    [empty_like(x0vals)] held, and every entry of the result of
    [norm_like] and of [cauchy_like] is determined by the data, the
    scale and the grid value at its own index. *)
Theorem posterior_cells_read_the_namespace :
  (forall ns1 ns2 : gmap string value,
      posterior_of "post_pdf" (cell_case1 ns1)
      = posterior_of "post_pdf" (cell_case1 ns2))
  /\ (forall ns1 ns2 : gmap string value,
         ns1 !! "rvals" = ns2 !! "rvals" ->
         ns1 !! "like" = ns2 !! "like" ->
         ns1 !! "dr" = ns2 !! "dr" ->
         posterior_of "post_pdf2" (cell_case2 ns1)
         = posterior_of "post_pdf2" (cell_case2 ns2))
  /\ (forall ns1 ns2 : gmap string value,
         ns1 !! "rvals" = ns2 !! "rvals" ->
         ns1 !! "prior_u" = ns2 !! "prior_u" ->
         ns1 !! "prior_l" = ns2 !! "prior_l" ->
         ns1 !! "dr" = ns2 !! "dr" ->
         posterior_of "post_pdf3" (cell_case3 ns1)
         = posterior_of "post_pdf3" (cell_case3 ns2))
  /\ (forall ns1 ns2 : gmap string value,
         ns1 !! "prior" = ns2 !! "prior" ->
         ns1 !! "rvals" = ns2 !! "rvals" ->
         ns1 !! "like" = ns2 !! "like" ->
         ns1 !! "dr" = ns2 !! "dr" ->
         posterior_of "post_pdf4" (cell_case4 ns1)
         = posterior_of "post_pdf4" (cell_case4 ns2))
  /\ (forall c : gmap string value -> result (gmap string value),
         In c [cell_case1; cell_case2; cell_case3; cell_case4] ->
         forall ns ns' : gmap string value,
           c ns = Ok ns' -> c ns' = Ok ns')
  /\ (forall (data x0vals garbage garbage' : list npfloat) (scale : npfloat),
         length garbage = length x0vals ->
         length garbage' = length x0vals ->
         cauchy_like_lvals data x0vals scale garbage
         = cauchy_like_lvals data x0vals scale garbage'
         /\ cauchy_like data (Vector x0vals) scale
            = bind (cauchy_like_lvals data x0vals scale garbage)
                   (fun lvals => Ok (Vector lvals)))
  /\ (forall (data grid grid' v v' : list npfloat) (s : npfloat) (i : nat),
         grid !! i = grid' !! i ->
         (norm_like data (Vector grid) s = Ok (Vector v) ->
          norm_like data (Vector grid') s = Ok (Vector v') ->
          v !! i = v' !! i)
         /\ (cauchy_like data (Vector grid) s = Ok (Vector v) ->
             cauchy_like data (Vector grid') s = Ok (Vector v') ->
             v !! i = v' !! i)).
Proof.
  split; [exact cell_case1_reads |].
  split; [exact cell_case2_reads |].
  split; [exact cell_case3_reads |].
  split; [exact cell_case4_reads |].
  split; [| split].
  - intros c Hc ns ns'.
    destruct Hc as [<- | [<- | [<- | [<- | []]]]].
    + apply cell_case1_idem.
    + apply cell_case2_idem.
    + apply cell_case3_idem.
    + apply cell_case4_idem.
  - intros data x0vals garbage garbage' scale Hg Hg'.
    rewrite !cauchy_like_lvals_spec by assumption.
    split; reflexivity.
  - intros data grid grid' v v' s i Hi. split.
    + unfold norm_like. intros H H'. injection H as <-. injection H' as <-.
      rewrite !list_lookup_fmap, Hi. reflexivity.
    + unfold cauchy_like. intros H H'. injection H as <-. injection H' as <-.
      rewrite !list_lookup_fmap, Hi. reflexivity.
Qed.

Lemma posterior_cells_read_the_namespace_witness :
  let ns := <["dr" := VFloat (Fin 1)]>
            (<["like" := VArray (fins [1; 2])]>
            (<["rvals" := VArray (fins [0; 1])]> ∅)) in
  posterior_of "post_pdf2" (cell_case2 ns)
  = posterior_of "post_pdf2" (cell_case2 (<["n" := VInt 16]> ns))
  /\ exists p, posterior_of "post_pdf2" (cell_case2 ns)
               = Ok (Some (VArray p)).
Proof.
  cbv zeta. split.
  - destruct posterior_cells_read_the_namespace as (_ & H2 & _).
    apply H2; reflexivity.
  - destruct (cell_case2_spec
                (<["dr" := VFloat (Fin 1)]>
                 (<["like" := VArray (fins [1; 2])]>
                 (<["rvals" := VArray (fins [0; 1])]> ∅)))
                [0; 1] [1; 2] 1) as (ns' & Hrun & Hp & _);
      try reflexivity.
    + pose proof (gamma1_l_pos 10 0) as H0.
      pose proof (gamma1_l_pos 10 1) as H1.
      unfold rtrapz, rsum, rmul2. simpl. lra.
    + eexists. rewrite Hrun. cbn [posterior_of bind]. rewrite Hp. reflexivity.
Defined.

End Determinism.

(** ** Constant factors and sequential updates, in range *)

Section PosteriorAlgebraClaims.
Import NP RealSide Notebook Sample Range.

(** X1.  Constant factors cancel in the three posterior lines: in the
    regime of the posterior lines, multiplying the prior by [a] and the
    likelihood by [b], both within [2^-20, 2^20], leaves [post_pdf]
    unchanged (up to rounding in binary64).  This is why the notebook
    may drop the [n!] of the Poisson likelihood. *)
Theorem post_pdf_drops_constant_factors
    (prior likelihood : list R) (a b d : R) :
  posterior_regime prior likelihood d ->
  in_range 20 a -> in_range 20 b ->
  post_pdf (fins (scaled a prior)) (fins (scaled b likelihood)) (Fin d)
  = post_pdf (fins prior) (fins likelihood) (Fin d).
Proof.
  intros Hreg Ha Hb.
  pose proof (posterior_regime_Z _ _ _ Hreg) as HZ.
  destruct Hreg as (Hlen & _).
  apply in_range_pos in Ha, Hb.
  assert (Ha0 : a <> 0) by lra. assert (Hb0 : b <> 0) by lra.
  assert (HZ0 : rtrapz (rmul2 prior likelihood) d <> 0) by lra.
  rewrite (post_pdf_fins prior likelihood d Hlen HZ0).
  rewrite post_pdf_fins.
  - do 2 f_equal. apply (rpost_scaled a b d prior likelihood Ha0 Hb0 HZ0).
  - now rewrite !length_scaled.
  - rewrite rmul2_scaled, rtrapz_scaled.
    apply Rmult_integral_contrapositive_currified; [| exact HZ0].
    apply Rmult_integral_contrapositive_currified; assumption.
Qed.

Lemma post_pdf_drops_constant_factors_witness :
  post_pdf (fins (scaled 2 [1; 3])) (fins (scaled 5 [2; 1])) (Fin 4)
  = post_pdf (fins [1; 3]) (fins [2; 1]) (Fin 4).
Proof.
  apply (post_pdf_drops_constant_factors [1; 3] [2; 1] 2 5 4).
  - split; [reflexivity |].
    split; [unfold grid_size; simpl; lia |].
    split; [small_all |]. split; [small_all |]. split; [small |].
    apply Exists_cons_hd. simpl. lra.
  - small.
  - small.
Defined.

(** X2.  With the bounded flat prior the posterior is the likelihood
    divided by its own trapezoidal sum: the bounds [prior_l], [prior_u]
    cancel, so two flat priors of different bounds give one posterior
    (up to rounding in binary64), wherever the grid lies.  The bounds
    are at most [2^60] in magnitude and between [2^-60] and [2^60]
    apart, the likelihood samples are zero or within [2^-300, 2^300]
    and somewhere positive, the spacing is within [2^-60, 2^60]. *)
Theorem flat_prior_bounds_cancel (xs lk : list R) (pl pu pl' pu' d : R) :
  length xs = length lk -> grid_size (length lk) ->
  Forall (sample 300) lk -> Exists (fun y => 0 < y) lk -> in_range 60 d ->
  in_range 60 (Rabs (pu - pl)) -> bounded 60 pl -> bounded 60 pu ->
  in_range 60 (Rabs (pu' - pl')) -> bounded 60 pl' -> bounded 60 pu' ->
  post_pdf (prior_pdf (fins xs) (Fin pl) (Fin pu)) (fins lk) (Fin d)
  = Ok (fins (map (fun y => y / rtrapz lk d) lk))
  /\ post_pdf (prior_pdf (fins xs) (Fin pl') (Fin pu')) (fins lk) (Fin d)
     = post_pdf (prior_pdf (fins xs) (Fin pl) (Fin pu)) (fins lk) (Fin d).
Proof.
  intros Hlen HN Hlk Hex Hd Hp _ _ Hp' _ _.
  assert (HZ : rtrapz lk d <> 0).
  { apply Rgt_not_eq, rtrapz_pos;
      [now apply grid_size_two | now apply (Forall_sample_nonneg 300)
      | exact Hex | now apply (in_range_pos 60)]. }
  apply in_range_abs_neq in Hp, Hp'.
  rewrite !flat_prior_bounds_cancel_gen; try assumption; try lra.
  split; reflexivity.
Qed.

Lemma flat_prior_bounds_cancel_witness :
  post_pdf (prior_pdf (fins [0; 1]) (Fin 0) (Fin 1000)) (fins [2; 1])
           (Fin 4)
  = Ok (fins (map (fun y => y / rtrapz [2; 1] 4) [2; 1]))
  /\ post_pdf (prior_pdf (fins [0; 1]) (Fin (-100)) (Fin 100)) (fins [2; 1])
              (Fin 4)
     = post_pdf (prior_pdf (fins [0; 1]) (Fin 0) (Fin 1000)) (fins [2; 1])
                (Fin 4).
Proof.
  apply (flat_prior_bounds_cancel [0; 1] [2; 1] 0 1000 (-100) 100 4).
  - reflexivity.
  - unfold grid_size. simpl. lia.
  - small_all.
  - apply Exists_cons_hd. lra.
  - small.
  - replace (1000 - 0) with 1000 by lra. small.
  - small.
  - small.
  - replace (100 - -100) with 200 by lra. small.
  - small.
  - small.
Defined.

(** X3.  Updating in two steps is updating once: the posterior of a
    first likelihood, used as the prior of a second one, gives the
    posterior of the product of the two likelihoods (up to rounding in
    binary64), for likelihood samples zero or within [2^-100, 2^100] and
    both updates in the regime of the posterior lines. *)
Theorem post_pdf_sequential (prior l1 l2 : list R) (d : R) :
  posterior_regime prior l1 d ->
  posterior_regime prior (rmul2 l1 l2) d ->
  length l1 = length l2 ->
  Forall (sample 100) l1 -> Forall (sample 100) l2 ->
  exists q,
    post_pdf (fins prior) (fins l1) (Fin d) = Ok (fins q)
    /\ post_pdf (fins q) (fins l2) (Fin d)
       = post_pdf (fins prior) (fins (rmul2 l1 l2)) (Fin d).
Proof.
  intros Hr1 Hr12 H2 _ _.
  pose proof (posterior_regime_Z _ _ _ Hr1) as HZ1.
  pose proof (posterior_regime_Z _ _ _ Hr12) as HZ.
  destruct Hr1 as (H1 & _).
  exists (rpost prior l1 d). split.
  - apply post_pdf_fins; [exact H1 | lra].
  - assert (Hl12 : length (rmul2 l1 l2) = length l1)
      by (apply length_rmul2; exact H2).
    assert (Hq : rmul2 (rpost prior l1 d) l2
                 = map (fun x => x / rtrapz (rmul2 prior l1) d)
                       (rmul2 prior (rmul2 l1 l2))).
    { unfold rpost. rewrite rmul2_div_l. now rewrite rmul2_assoc. }
    rewrite (post_pdf_fins prior (rmul2 l1 l2) d); [| congruence | lra].
    rewrite post_pdf_fins.
    + do 2 f_equal. rewrite Hq, rtrapz_scale, map_map.
      apply map_ext. intros x. field. split; lra.
    + unfold rpost. rewrite length_map, (length_rmul2 _ _ H1). congruence.
    + rewrite Hq, rtrapz_scale. unfold Rdiv.
      apply Rmult_integral_contrapositive_currified; [lra |].
      apply Rinv_neq_0_compat. lra.
Qed.

Lemma post_pdf_sequential_witness :
  exists q,
    post_pdf (fins [1; 3]) (fins [2; 1]) (Fin 4) = Ok (fins q)
    /\ post_pdf (fins q) (fins [1; 2]) (Fin 4)
       = post_pdf (fins [1; 3]) (fins (rmul2 [2; 1] [1; 2])) (Fin 4).
Proof.
  apply (post_pdf_sequential [1; 3] [2; 1] [1; 2] 4).
  - split; [reflexivity |].
    split; [unfold grid_size; simpl; lia |].
    split; [small_all |]. split; [small_all |]. split; [small |].
    apply Exists_cons_hd. simpl. lra.
  - split; [reflexivity |].
    split; [unfold grid_size; simpl; lia |].
    split; [small_all |].
    split; [unfold rmul2; cbn [combine map fst snd]; small_all |].
    split; [small |].
    apply Exists_cons_hd. simpl. lra.
  - reflexivity.
  - small_all.
  - small_all.
Defined.

End PosteriorAlgebraClaims.

(** ** The shape of the Normal likelihood, in range *)

Section NormalShapeClaims.
Import NP RealSide Notebook Sample Range.






End NormalShapeClaims.

(** ** Likelihoods as functions of the data, in range *)

Section DataSetClaims.
Import NP RealSide Notebook Sample Range.

(** X9.  Independent data multiply: on one grid, the likelihood of two
    data sets put together is the elementwise product
    ([numer = a*b] of the notebook) of their likelihoods (up to rounding
    in binary64), for [norm_like] and for [cauchy_like], when the two
    data sets together are in the regime of the likelihood. *)
Theorem likelihoods_multiply_over_data (d1 d2 grid : list R) (s : R) :
  (norm_regime (d1 ++ d2) grid s ->
   exists v1 v2 v12,
     norm_like (fins d1) (Vector (fins grid)) (Fin s) = Ok (Vector v1)
     /\ norm_like (fins d2) (Vector (fins grid)) (Fin s) = Ok (Vector v2)
     /\ numer v1 v2 = Ok v12
     /\ norm_like (fins d1 ++ fins d2) (Vector (fins grid)) (Fin s)
        = Ok (Vector v12))
  /\ (cauchy_regime (d1 ++ d2) grid s ->
      exists v1 v2 v12,
        cauchy_like (fins d1) (Vector (fins grid)) (Fin s) = Ok (Vector v1)
        /\ cauchy_like (fins d2) (Vector (fins grid)) (Fin s)
           = Ok (Vector v2)
        /\ numer v1 v2 = Ok v12
        /\ cauchy_like (fins d1 ++ fins d2) (Vector (fins grid)) (Fin s)
           = Ok (Vector v12)).
Proof.
  split.
  - intros (Hsr & _). pose proof (in_range_abs_neq _ _ Hsr) as Hs.
    exists (fins (map (norm_l d1 s) grid)), (fins (map (norm_l d2 s) grid)),
           (fins (rmul2 (map (norm_l d1 s) grid) (map (norm_l d2 s) grid))).
    repeat split; try (apply norm_like_fins; exact Hs).
    + apply numer_fins. now rewrite !length_map.
    + rewrite <- fins_app, (norm_like_fins _ _ _ Hs), rmul2_map.
      do 3 f_equal. apply map_ext. intros mu. apply norm_l_app.
  - intros (Hsr & _). pose proof (in_range_abs_neq _ _ Hsr) as Hs.
    exists (fins (map (cauchy_l d1 s) grid)),
           (fins (map (cauchy_l d2 s) grid)),
           (fins (rmul2 (map (cauchy_l d1 s) grid)
                        (map (cauchy_l d2 s) grid))).
    repeat split; try (apply cauchy_like_fins; exact Hs).
    + apply numer_fins. now rewrite !length_map.
    + rewrite <- fins_app, (cauchy_like_fins _ _ _ Hs), rmul2_map.
      do 3 f_equal. apply map_ext. intros x0. apply cauchy_l_app.
Qed.

Lemma likelihoods_multiply_over_data_witness :
  exists v1 v2 v12,
    norm_like (fins [2]) (Vector (fins [0; 1])) (Fin 3) = Ok (Vector v1)
    /\ norm_like (fins [4]) (Vector (fins [0; 1])) (Fin 3) = Ok (Vector v2)
    /\ numer v1 v2 = Ok v12
    /\ norm_like (fins [2] ++ fins [4]) (Vector (fins [0; 1])) (Fin 3)
       = Ok (Vector v12).
Proof.
  apply (proj1 (likelihoods_multiply_over_data [2] [4] [0; 1] 3)).
  unfold norm_regime. cbn [app].
  split; [small |]. split; [small_all |]. split; [small_all |].
  split; [simpl; lia |].
  constructor; [| constructor; [| constructor]];
    unfold rsum; simpl; lra.
Defined.

(** X10.  The order of the data does not matter: in the regime of the
    likelihood, [norm_like] and [cauchy_like] return the same vector
    (up to rounding in binary64) for a data set and for any
    rearrangement of it. *)
Theorem likelihoods_ignore_data_order (d d' grid : list R) (s : R) :
  Permutation d d' ->
  (norm_regime d grid s ->
   norm_like (fins d) (Vector (fins grid)) (Fin s)
   = norm_like (fins d') (Vector (fins grid)) (Fin s))
  /\ (cauchy_regime d grid s ->
      cauchy_like (fins d) (Vector (fins grid)) (Fin s)
      = cauchy_like (fins d') (Vector (fins grid)) (Fin s)).
Proof.
  intros Hp. split.
  - intros (Hsr & _). pose proof (in_range_abs_neq _ _ Hsr) as Hs.
    rewrite !(norm_like_fins _ _ _ Hs). do 3 f_equal.
    apply map_ext. intros mu. unfold norm_l. do 3 f_equal.
    apply rsum_perm. now apply Permutation_map.
  - intros (Hsr & _). pose proof (in_range_abs_neq _ _ Hsr) as Hs.
    rewrite !(cauchy_like_fins _ _ _ Hs). do 3 f_equal.
    apply map_ext. intros x0. unfold cauchy_l.
    apply rprod_perm. now apply Permutation_map.
Qed.

Lemma likelihoods_ignore_data_order_witness :
  norm_like (fins [2; 4]) (Vector (fins [0; 1])) (Fin 3)
  = norm_like (fins [4; 2]) (Vector (fins [0; 1])) (Fin 3)
  /\ cauchy_like (fins [2; 4]) (Vector (fins [0; 1])) (Fin 3)
     = cauchy_like (fins [4; 2]) (Vector (fins [0; 1])) (Fin 3).
Proof.
  destruct (likelihoods_ignore_data_order [2; 4] [4; 2] [0; 1] 3)
    as (Hn & Hc); [apply perm_swap |].
  split.
  - apply Hn. split; [small |]. split; [small_all |]. split; [small_all |].
    split; [simpl; lia |].
    constructor; [| constructor; [| constructor]];
      unfold rsum; simpl; lra.
  - apply Hc. split; [small |]. split; [small_all |]. split; [small_all |].
    split; [simpl; lia |].
    repeat (constructor; [repeat (constructor;
      [unfold Rabs; repeat destruct (Rcase_abs _); lra |]); constructor |]).
    constructor.
Defined.

End DataSetClaims.

(** ** Degenerate scales and empty data, in range *)

Section DegenerateClaims.
Import NP RealSide Notebook Sample Range.

(** X13.  [norm_like] with [sig = 0] raises nothing on data and
    locations of magnitude at most [2^100] and at most [2^20]
    observations: the division by [sig2 = 0] makes an entry NaN where
    every observation equals the grid value (and for empty data), and 0
    where some observation is at least [2^-100] away from it. *)
Theorem norm_like_zero_sig (data mus : list R) :
  Forall (bounded 100) data -> Forall (bounded 100) mus ->
  (Z.of_nat (length data) <= 1048576)%Z ->
  exists v,
    norm_like (fins data) (Vector (fins mus)) (Fin 0) = Ok (Vector v)
    /\ Forall2 (fun mu y =>
                  (Forall (fun d => d = mu) data -> y = NaN)
                  /\ (Exists (fun d => / 2 ^ 100 <= Rabs (d - mu)) data ->
                      y = Fin 0)) mus v.
Proof.
  intros _ _ _.
  unfold norm_like. eexists. split; [reflexivity |].
  unfold fins at 2. rewrite !map_map.
  induction mus as [| mu mus IH]; simpl; constructor; [| exact IH].
  destruct (zero_sig_entry data mu) as (Hn & Hz).
  split; [exact Hn |].
  intros Hex. apply Hz.
  eapply List.Exists_impl; [| exact Hex].
  intros d Hd ->. simpl in Hd.
  pose proof (Rinv_0_lt_compat _ (pow2_pos 100)).
  replace (mu - mu) with 0 in Hd by ring. rewrite Rabs_R0 in Hd. lra.
Qed.

Lemma norm_like_zero_sig_witness :
  exists v,
    norm_like (fins [2; 4]) (Vector (fins [2; 3])) (Fin 0) = Ok (Vector v)
    /\ Forall2 (fun mu y =>
                  (Forall (fun d => d = mu) [2; 4] -> y = NaN)
                  /\ (Exists (fun d => / 2 ^ 100 <= Rabs (d - mu)) [2; 4] ->
                      y = Fin 0)) [2; 3] v.
Proof.
  apply (norm_like_zero_sig [2; 4] [2; 3]).
  - small_all.
  - small_all.
  - simpl. lia.
Defined.

(** X14.  [cauchy_like] with [scale = 0] raises nothing on data and a
    float grid of magnitude at most [2^100]: an entry is NaN where the
    grid value coincides with an observation, 0 where it is at least
    [2^-100] away from every one of them, and 1 for empty data. *)
Theorem cauchy_like_zero_scale (data xs : list R) :
  Forall (bounded 100) data -> Forall (bounded 100) xs ->
  exists v,
    cauchy_like (fins data) (Vector (fins xs)) (Fin 0) = Ok (Vector v)
    /\ Forall2 (fun x0 y =>
                  (In x0 data -> y = NaN)
                  /\ (Forall (fun d => / 2 ^ 100 <= Rabs (x0 - d)) data ->
                      data <> [] -> y = Fin 0)
                  /\ (data = [] -> y = Fin 1)) xs v.
Proof.
  intros _ _.
  unfold cauchy_like. eexists. split; [reflexivity |].
  unfold fins at 2. rewrite map_map.
  induction xs as [| x0 xs IH]; simpl; constructor; [| exact IH].
  unfold cauchy_prod, np_prod, fins. rewrite map_map.
  split; [| split].
  - intros Hin. apply fold_fmul_In_NaN. apply in_map_iff.
    exists x0. split; [| exact Hin].
    now apply (proj1 (zero_scale_factor x0 x0)).
  - intros Hfar Hne. apply fold_fmul_zeros.
    + apply List.Forall_forall. intros y Hy. apply in_map_iff in Hy.
      destruct Hy as [d [<- Hd]].
      apply (proj2 (zero_scale_factor x0 d)). intros ->.
      rewrite List.Forall_forall in Hfar. specialize (Hfar _ Hd).
      simpl in Hfar.
      pose proof (Rinv_0_lt_compat _ (pow2_pos 100)).
      replace (x0 - x0) with 0 in Hfar by ring.
      rewrite Rabs_R0 in Hfar. lra.
    + destruct data; [contradiction | discriminate].
  - intros ->. reflexivity.
Qed.

Lemma cauchy_like_zero_scale_witness :
  exists v,
    cauchy_like (fins [2; 4]) (Vector (fins [2; 3])) (Fin 0) = Ok (Vector v)
    /\ Forall2 (fun x0 y =>
                  (In x0 [2; 4] -> y = NaN)
                  /\ (Forall (fun d => / 2 ^ 100 <= Rabs (x0 - d)) [2; 4] ->
                      [2; 4] <> [] -> y = Fin 0)
                  /\ ([2; 4] = [] -> y = Fin 1)) [2; 3] v.
Proof.
  apply (cauchy_like_zero_scale [2; 4] [2; 3]).
  - small_all.
  - small_all.
Defined.

(** X15.  Without data both likelihoods are identically 1, on every
    float grid (NaN entries included): [cauchy_like] for a scale of
    magnitude at most [2^100], [norm_like] for a [sig] of magnitude
    within [2^-100, 2^100]. *)
Theorem likelihood_of_no_data (grid : list npfloat) :
  (forall scale : R,
      bounded 100 scale ->
      cauchy_like [] (Vector grid) (Fin scale)
      = Ok (Vector (map (fun _ => Fin 1) grid)))
  /\ (forall sig : R,
         in_range 100 (Rabs sig) ->
         norm_like [] (Vector grid) (Fin sig)
         = Ok (Vector (map (fun _ => Fin 1) grid))).
Proof.
  split.
  - intros scale _. reflexivity.
  - intros sig Hsr. pose proof (in_range_abs_neq _ _ Hsr) as Hs.
    unfold norm_like. rewrite map_map. do 2 f_equal.
    apply map_ext. intros mu. unfold norm_q, np_sum. cbn [map fold_left fmul].
    rewrite fdiv_fin by nra. cbn [fmul fexp]. f_equal.
    replace (-0.5 * (0 / (sig * sig))) with 0 by (field; exact Hs).
    apply exp_0.
Qed.

Lemma likelihood_of_no_data_witness :
  cauchy_like [] (Vector [Fin 0; NaN]) (Fin 3)
  = Ok (Vector (map (fun _ => Fin 1) [Fin 0; NaN]))
  /\ norm_like [] (Vector [Fin 0; NaN]) (Fin 3)
     = Ok (Vector (map (fun _ => Fin 1) [Fin 0; NaN])).
Proof.
  destruct (likelihood_of_no_data [Fin 0; NaN]) as (Hc & Hn).
  split; [apply Hc | apply Hn]; small.
Defined.

End DegenerateClaims.

(** ** The Normal and the Cauchy section, in range *)

Section LocationClaims.
Import NP RealSide Notebook Sections Sample Range.

(** X16.  The Normal and the Cauchy section run to the end when the
    grid bounds are separated, the known scale is within
    [2^-100, 2^100] in magnitude, the data are at most [2^100] in
    magnitude, and the likelihood stays away from underflow on the grid
    (Normal: at most [2^20] observations whose squared residuals sum to
    at most 400 squared scales at every location of the grid; Cauchy: at
    most 20 observations, each within 64 scales of every location of the
    grid).  The posterior then has 200 strictly positive entries, its
    trapezoidal sum is 1 up to rounding, and [test_norm] accepts it. *)
Theorem location_posteriors_pass (data : list R) (s lo hi : R) :
  separated lo hi -> in_range 100 (Rabs s) -> Forall (bounded 100) data ->
  ((Z.of_nat (length data) <= 1048576)%Z ->
   (forall mu, lo <= mu <= hi ->
               rsum (map (fun d => (d + - mu) ^ 2) data) <= 400 * (s * s)) ->
   exists post,
     normal_posterior (fins data) (Fin s) (Fin lo) (Fin hi) = Ok (fins post)
     /\ length post = 200%nat
     /\ Forall (fun x => 0 < x) post
     /\ trapz (fins post) (Fin ((hi + - lo) / INR 199)) = Fin 1)
  /\ ((length data <= 20)%nat ->
      (forall x0, lo <= x0 <= hi ->
                  Forall (fun d => Rabs (x0 + - d) <= 64 * Rabs s) data) ->
      exists post,
        cauchy_posterior (fins data) (Fin s) (Fin lo) (Fin hi)
        = Ok (fins post)
        /\ length post = 200%nat
        /\ Forall (fun x => 0 < x) post
        /\ trapz (fins post) (Fin ((hi + - lo) / INR 199)) = Fin 1).
Proof.
  intros (Hsep & _) Hsr _. pose proof (in_range_abs_neq _ _ Hsr) as Hs.
  apply in_range_pos in Hsep.
  assert (Hlt : lo < hi) by lra.
  split; intros _ _.
  - apply (grid_posterior_lines_pass _ (norm_l data s)).
    + intros xs. now apply norm_like_fins.
    + apply norm_l_pos.
    + exact Hlt.
  - apply (grid_posterior_lines_pass _ (cauchy_l data s)).
    + intros xs. now apply cauchy_like_fins.
    + intros x. now apply cauchy_l_range.
    + exact Hlt.
Qed.

Lemma location_posteriors_pass_witness :
  (exists post,
      normal_posterior (fins [2; 4]) (Fin 3) (Fin 0) (Fin 6) = Ok (fins post)
      /\ length post = 200%nat
      /\ Forall (fun x => 0 < x) post
      /\ trapz (fins post) (Fin ((6 + - 0) / INR 199)) = Fin 1)
  /\ (exists post,
         cauchy_posterior (fins [2; 4]) (Fin 3) (Fin 0) (Fin 6)
         = Ok (fins post)
         /\ length post = 200%nat
         /\ Forall (fun x => 0 < x) post
         /\ trapz (fins post) (Fin ((6 + - 0) / INR 199)) = Fin 1).
Proof.
  destruct (location_posteriors_pass [2; 4] 3 0 6) as (Hn & Hc).
  - pose proof (pow2_ge_1024 20 ltac:(lia)) as Hp.
    split; [replace (6 - 0) with 6 by lra; small |].
    split; unfold Rabs; destruct (Rcase_abs _); lra.
  - small.
  - small_all.
  - split.
    + apply Hn; [simpl; lia |].
      intros mu Hmu. unfold rsum. simpl. nra.
    + apply Hc; [simpl; lia |].
      intros x0 Hx.
      repeat (constructor;
              [unfold Rabs; repeat destruct (Rcase_abs _); lra |]).
      constructor.
Defined.

(** X17.  When the two grid bounds coincide (a data set of zero span or
    of zero standard deviation) the Normal and the Cauchy section end
    in [AssertionError], for a scale within [2^-100, 2^100] in magnitude
    and data and a bound of magnitude at most [2^100]. *)
Theorem location_posteriors_fail_on_point_grid (data : list R) (s a : R) :
  in_range 100 (Rabs s) -> Forall (bounded 100) data -> bounded 100 a ->
  normal_posterior (fins data) (Fin s) (Fin a) (Fin a) = Raise AssertionError
  /\ cauchy_posterior (fins data) (Fin s) (Fin a) (Fin a)
     = Raise AssertionError.
Proof.
  intros Hsr _ _. pose proof (in_range_abs_neq _ _ Hsr) as Hs. split.
  - apply (grid_posterior_lines_point _ (norm_l data s)).
    + intros xs. now apply norm_like_fins.
    + apply norm_l_pos.
  - apply (grid_posterior_lines_point _ (cauchy_l data s)).
    + intros xs. now apply cauchy_like_fins.
    + intros x. now apply cauchy_l_range.
Qed.

Lemma location_posteriors_fail_on_point_grid_witness :
  normal_posterior (fins [5; 5]) (Fin 3) (Fin 5) (Fin 5)
  = Raise AssertionError
  /\ cauchy_posterior (fins [5; 5]) (Fin 3) (Fin 5) (Fin 5)
     = Raise AssertionError.
Proof.
  apply (location_posteriors_fail_on_point_grid [5; 5] 3 5).
  - small.
  - small_all.
  - small.
Defined.

(** X18.  The loop over the simulated Cauchy data sets runs through
    when every data set is in the regime of the Cauchy likelihood on the
    grid, the prior samples and the spacing are within [2^-60, 2^60]
    and the grid has two to [2^20] points: every pass satisfies
    [test_norm], and the loop yields one density vector of trapezoidal
    sum 1 (up to rounding) per data set. *)
Theorem cauchy_loop_completes (datasets : list (list R))
    (xs prior : list R) (s d : R) :
  in_range 60 d -> grid_size (length xs) -> length prior = length xs ->
  Forall (in_range 60) prior ->
  in_range 100 (Rabs s) ->
  Forall (fun data => cauchy_regime data xs s) datasets ->
  exists posts,
    cauchy_loop (map fins datasets) (fins xs) (fins prior) (Fin s) (Fin d)
    = Ok posts
    /\ length posts = length datasets
    /\ Forall (fun p => density_vector (length xs) p
                        /\ trapz p (Fin d) = Fin 1) posts.
Proof.
  intros Hdr HN Hlen Hpr Hsr _.
  pose proof (in_range_abs_neq _ _ Hsr) as Hs.
  pose proof (in_range_pos _ _ Hdr) as Hd.
  pose proof (grid_size_two _ HN) as Hn.
  assert (Hp : Forall (fun x => 0 < x) prior).
  { eapply Forall_impl; [exact Hpr |]. intros x. apply in_range_pos. }
  induction datasets as [| data rest IH].
  - exists []. repeat split. constructor.
  - destruct IH as (ps & Hps & Hl & Hall).
    set (lk := map (cauchy_l data s) xs).
    assert (Hlk : Forall (fun x => 0 < x) lk).
    { unfold lk. rewrite Forall_map. apply Forall_forall. intros x _.
      now apply cauchy_l_range. }
    assert (Hlen' : length prior = length lk)
      by (unfold lk; now rewrite length_map).
    assert (Hn' : (2 <= length prior)%nat) by lia.
    pose proof (Z_pos prior lk d Hlen' Hn' Hp Hlk Hd) as HZ.
    destruct (rpost_passes prior lk d Hlen') as (Hpost & Ht & Htn); [lra |].
    exists (fins (rpost prior lk d) :: ps).
    split; [| split].
    + cbn [map cauchy_loop].
      rewrite (cauchy_like_fins data xs s Hs). cbn [bind as_operand].
      fold lk. rewrite Hpost. cbn [bind]. rewrite Htn. cbn [bind].
      rewrite Hps. reflexivity.
    + simpl. now rewrite Hl.
    + constructor; [| exact Hall]. split; [| exact Ht].
      exists (rpost prior lk d). split; [reflexivity |]. split.
      * rewrite length_rpost by exact Hlen'. exact Hlen.
      * apply Forall_pos_nonneg. now apply rpost_pos.
Qed.

Lemma cauchy_loop_completes_witness :
  exists posts,
    cauchy_loop (map fins [[2; 4]; [1]]) (fins [0; 1]) (fins [1; 1])
                (Fin 3) (Fin 1)
    = Ok posts
    /\ length posts = length [[2; 4]; [1]]
    /\ Forall (fun p => density_vector (length [0; 1]) p
                        /\ trapz p (Fin 1) = Fin 1) posts.
Proof.
  apply (cauchy_loop_completes [[2; 4]; [1]] [0; 1] [1; 1] 3 1).
  - small.
  - unfold grid_size. simpl. lia.
  - reflexivity.
  - small_all.
  - small.
  - constructor; [| constructor; [| constructor]].
    + split; [small |]. split; [small_all |]. split; [small_all |].
      split; [simpl; lia |].
      repeat (constructor; [repeat (constructor;
        [unfold Rabs; repeat destruct (Rcase_abs _); lra |]);
        constructor |]).
      constructor.
    + split; [small |]. split; [small_all |]. split; [small_all |].
      split; [simpl; lia |].
      repeat (constructor; [repeat (constructor;
        [unfold Rabs; repeat destruct (Rcase_abs _); lra |]);
        constructor |]).
      constructor.
Defined.

End LocationClaims.

(** ** The Poisson posterior, in range *)

Section PoissonPosteriorClaims.
Import NP RealSide Notebook Sample Range.






End PoissonPosteriorClaims.
